(** * graphql-js: TypeInfo, validation context, two validation rules and
      mapAsyncIterator

    A shallow embedding of
    - [utilities/TypeInfo] (class [TypeInfo], [visitWithTypeInfo]),
    - [validation/ValidationContext] (the three context classes),
    - [validation/rules/ExecutableDefinitionsRule] and
      [validation/rules/VariablesAreInputTypesRule],
    - [subscription/mapAsyncIterator],
    with the properties of these modules stated and proved below. *)

From Stdlib Require Import String Ascii List Arith Lia Bool.
From stdpp Require Import base option list strings gmap.
Import ListNotations.

Set Default Proof Using "Type".
Set Warnings "-register-all".

(* ===================================================================== *)
(** * JavaScript values used by the embedded code *)
(* ===================================================================== *)

(** A JavaScript slot of type [T | null | undefined]. *)
Inductive JsOpt (A : Type) : Type :=
| undefined : JsOpt A
| null : JsOpt A
| Just (a : A) : JsOpt A.
Arguments undefined {A}.
Arguments null {A}.
Arguments Just {A} a.

(** Truthiness of such a slot when [T] is an object type ([if (x)]). *)
Definition truthy {A} (x : JsOpt A) : bool :=
  match x with Just _ => true | _ => false end.

Definition JsOpt_map {A B} (f : A -> B) (x : JsOpt A) : JsOpt B :=
  match x with
  | Just a => Just (f a)
  | null => null
  | undefined => undefined
  end.

(** [x ?? y] *)
Definition nullish_or {A} (x y : JsOpt A) : JsOpt A :=
  match x with Just _ => x | _ => y end.

(** ** Arrays used through [push], [pop], [length] and indexing.
    An array is the list of its elements in index order. *)
Module JsArray.

Definition push {A} (a : list A) (x : A) : list A := a ++ [x].

(** [a.pop()]: the removed element ([None] for [undefined] on an empty
    array) and the array that remains. *)
Definition pop {A} (a : list A) : option A * list A :=
  (last a, removelast a).

(** [a[i]], which is [undefined] out of range. *)
Definition get {A} (a : list (JsOpt A)) (i : nat) : JsOpt A :=
  match a !! i with Some x => x | None => undefined end.

End JsArray.

(* ===================================================================== *)
(** * language/ast *)
(* ===================================================================== *)

(** All node kinds, as listed by [ASTKindToNode]. *)
Inductive Kind : Type :=
| NAME | DOCUMENT | OPERATION_DEFINITION | VARIABLE_DEFINITION | VARIABLE
| SELECTION_SET | FIELD | ARGUMENT | FRAGMENT_SPREAD | INLINE_FRAGMENT
| FRAGMENT_DEFINITION | INT | FLOAT | STRING | BOOLEAN | NULL | ENUM | LIST
| OBJECT | OBJECT_FIELD | DIRECTIVE | NAMED_TYPE | LIST_TYPE | NON_NULL_TYPE
| SCHEMA_DEFINITION | OPERATION_TYPE_DEFINITION | SCALAR_TYPE_DEFINITION
| OBJECT_TYPE_DEFINITION | FIELD_DEFINITION | INPUT_VALUE_DEFINITION
| INTERFACE_TYPE_DEFINITION | UNION_TYPE_DEFINITION | ENUM_TYPE_DEFINITION
| ENUM_VALUE_DEFINITION | INPUT_OBJECT_TYPE_DEFINITION | DIRECTIVE_DEFINITION
| SCHEMA_EXTENSION | SCALAR_TYPE_EXTENSION | OBJECT_TYPE_EXTENSION
| INTERFACE_TYPE_EXTENSION | UNION_TYPE_EXTENSION | ENUM_TYPE_EXTENSION
| INPUT_OBJECT_TYPE_EXTENSION.

#[global] Instance Kind_eq_dec : EqDecision Kind.
Proof. solve_decision. Defined.

Record NameNode : Type := Name { value : string }.

Inductive OperationTypeNode : Type := query | mutation | subscription.

Record NamedTypeNode : Type := NamedType { nt_name : NameNode }.

(** [TypeNode = NamedTypeNode | ListTypeNode | NonNullTypeNode] *)
Inductive TypeNode : Type :=
| TNamed (t : NamedTypeNode)
| ListType (type : TypeNode)
| NonNullType (type : TypeNode).

Record VariableNode : Type := MkVariable { var_name : NameNode }.

(** [ValueNode], with [ObjectFieldNode] inlined as a mutual type. *)
Inductive ValueNode : Type :=
| VVariable (v : VariableNode)
| IntValue (v : string)
| FloatValue (v : string)
| StringValue (v : string) (block : bool)
| BooleanValue (v : bool)
| NullValue
| EnumValue (v : string)
| ListValue (values : list ValueNode)
| ObjectValue (fields : list ObjectFieldNode)
with ObjectFieldNode : Type :=
| ObjectField (name : NameNode) (v : ValueNode).

Record ArgumentNode : Type :=
  Argument { arg_name : NameNode; arg_value : ValueNode }.

(** Optional child arrays ([arguments?], [directives?], ...) are lists; an
    absent array is the empty list, which every reader below treats alike. *)
Record DirectiveNode : Type :=
  Directive { dir_name : NameNode; dir_arguments : list ArgumentNode }.

Record VariableDefinitionNode : Type := VariableDefinition {
  vd_variable : VariableNode;
  vd_type : TypeNode;
  vd_defaultValue : option ValueNode;
  vd_directives : list DirectiveNode }.

Record FragmentSpreadNode : Type :=
  FragmentSpread { fs_name : NameNode; fs_directives : list DirectiveNode }.

(** [SelectionNode = FieldNode | FragmentSpreadNode | InlineFragmentNode] *)
Inductive SelectionNode : Type :=
| SField (f : FieldNode)
| SFragmentSpread (f : FragmentSpreadNode)
| SInlineFragment (f : InlineFragmentNode)
with FieldNode : Type :=
| Field (alias : option NameNode) (name : NameNode)
        (arguments : list ArgumentNode) (directives : list DirectiveNode)
        (selectionSet : option SelectionSetNode)
with InlineFragmentNode : Type :=
| InlineFragment (typeCondition : option NamedTypeNode)
                 (directives : list DirectiveNode)
                 (selectionSet : SelectionSetNode)
with SelectionSetNode : Type :=
| SelectionSet (selections : list SelectionNode).

Definition selections (s : SelectionSetNode) : list SelectionNode :=
  match s with SelectionSet l => l end.

Definition field_name (f : FieldNode) : NameNode :=
  match f with Field _ n _ _ _ => n end.
Definition field_arguments (f : FieldNode) : list ArgumentNode :=
  match f with Field _ _ a _ _ => a end.
Definition field_directives (f : FieldNode) : list DirectiveNode :=
  match f with Field _ _ _ d _ => d end.
Definition field_selectionSet (f : FieldNode) : option SelectionSetNode :=
  match f with Field _ _ _ _ s => s end.
Definition field_alias (f : FieldNode) : option NameNode :=
  match f with Field a _ _ _ _ => a end.

Definition if_typeCondition (f : InlineFragmentNode) : option NamedTypeNode :=
  match f with InlineFragment t _ _ => t end.
Definition if_directives (f : InlineFragmentNode) : list DirectiveNode :=
  match f with InlineFragment _ d _ => d end.
Definition if_selectionSet (f : InlineFragmentNode) : SelectionSetNode :=
  match f with InlineFragment _ _ s => s end.

Record OperationDefinitionNode : Type := OperationDefinition {
  op_operation : OperationTypeNode;
  op_name : option NameNode;
  op_variableDefinitions : list VariableDefinitionNode;
  op_directives : list DirectiveNode;
  op_selectionSet : SelectionSetNode }.

Record FragmentDefinitionNode : Type := FragmentDefinition {
  fd_name : NameNode;
  fd_variableDefinitions : list VariableDefinitionNode;
  fd_typeCondition : NamedTypeNode;
  fd_directives : list DirectiveNode;
  fd_selectionSet : SelectionSetNode }.

(** Type-system definitions and extensions. The code embedded here reads
    their [kind] and, where they have one, their [name]; the other fields
    are not represented. *)
Inductive NamedTypeSystemKind : Type :=
| ScalarTypeDefinition | ObjectTypeDefinition | InterfaceTypeDefinition
| UnionTypeDefinition | EnumTypeDefinition | InputObjectTypeDefinition
| DirectiveDefinition
| ScalarTypeExtension | ObjectTypeExtension | InterfaceTypeExtension
| UnionTypeExtension | EnumTypeExtension | InputObjectTypeExtension.

Inductive TypeSystemNode : Type :=
| SchemaDefinition
| SchemaExtension
| NamedTypeSystem (k : NamedTypeSystemKind) (name : NameNode).

(** [DefinitionNode = ExecutableDefinitionNode | TypeSystemDefinitionNode
                      | TypeSystemExtensionNode] *)
Inductive DefinitionNode : Type :=
| DOperation (o : OperationDefinitionNode)
| DFragment (f : FragmentDefinitionNode)
| DTypeSystem (t : TypeSystemNode).

Record DocumentNode : Type := Document { definitions : list DefinitionNode }.

(** Kinds of the members of type-system definitions, which are nodes too. *)
Inductive TypeSystemPartKind : Type :=
| OperationTypeDefinition | FieldDefinition | InputValueDefinition
| EnumValueDefinition.

(** [ASTNode]: the union of all node types. *)
Inductive ASTNode : Type :=
| NName (n : NameNode)
| NDocument (d : DocumentNode)
| NDefinition (d : DefinitionNode)
| NVariableDefinition (v : VariableDefinitionNode)
| NSelectionSet (s : SelectionSetNode)
| NSelection (s : SelectionNode)
| NArgument (a : ArgumentNode)
| NValue (v : ValueNode)
| NObjectField (f : ObjectFieldNode)
| NDirective (d : DirectiveNode)
| NType (t : TypeNode)
| NTypeSystemPart (k : TypeSystemPartKind).

Definition NamedTypeSystemKind_kind (k : NamedTypeSystemKind) : Kind :=
  match k with
  | ScalarTypeDefinition => SCALAR_TYPE_DEFINITION
  | ObjectTypeDefinition => OBJECT_TYPE_DEFINITION
  | InterfaceTypeDefinition => INTERFACE_TYPE_DEFINITION
  | UnionTypeDefinition => UNION_TYPE_DEFINITION
  | EnumTypeDefinition => ENUM_TYPE_DEFINITION
  | InputObjectTypeDefinition => INPUT_OBJECT_TYPE_DEFINITION
  | DirectiveDefinition => DIRECTIVE_DEFINITION
  | ScalarTypeExtension => SCALAR_TYPE_EXTENSION
  | ObjectTypeExtension => OBJECT_TYPE_EXTENSION
  | InterfaceTypeExtension => INTERFACE_TYPE_EXTENSION
  | UnionTypeExtension => UNION_TYPE_EXTENSION
  | EnumTypeExtension => ENUM_TYPE_EXTENSION
  | InputObjectTypeExtension => INPUT_OBJECT_TYPE_EXTENSION
  end.

Definition definition_kind (d : DefinitionNode) : Kind :=
  match d with
  | DOperation _ => OPERATION_DEFINITION
  | DFragment _ => FRAGMENT_DEFINITION
  | DTypeSystem SchemaDefinition => SCHEMA_DEFINITION
  | DTypeSystem SchemaExtension => SCHEMA_EXTENSION
  | DTypeSystem (NamedTypeSystem k _) => NamedTypeSystemKind_kind k
  end.

Definition value_kind (v : ValueNode) : Kind :=
  match v with
  | VVariable _ => VARIABLE
  | IntValue _ => INT
  | FloatValue _ => FLOAT
  | StringValue _ _ => STRING
  | BooleanValue _ => BOOLEAN
  | NullValue => NULL
  | EnumValue _ => ENUM
  | ListValue _ => LIST
  | ObjectValue _ => OBJECT
  end.

Definition selection_kind (s : SelectionNode) : Kind :=
  match s with
  | SField _ => FIELD
  | SFragmentSpread _ => FRAGMENT_SPREAD
  | SInlineFragment _ => INLINE_FRAGMENT
  end.

(** [node.kind] *)
Definition kind (n : ASTNode) : Kind :=
  match n with
  | NName _ => NAME
  | NDocument _ => DOCUMENT
  | NDefinition d => definition_kind d
  | NVariableDefinition _ => VARIABLE_DEFINITION
  | NSelectionSet _ => SELECTION_SET
  | NSelection s => selection_kind s
  | NArgument _ => ARGUMENT
  | NValue v => value_kind v
  | NObjectField _ => OBJECT_FIELD
  | NDirective _ => DIRECTIVE
  | NType (TNamed _) => NAMED_TYPE
  | NType (ListType _) => LIST_TYPE
  | NType (NonNullType _) => NON_NULL_TYPE
  | NTypeSystemPart OperationTypeDefinition => OPERATION_TYPE_DEFINITION
  | NTypeSystemPart FieldDefinition => FIELD_DEFINITION
  | NTypeSystemPart InputValueDefinition => INPUT_VALUE_DEFINITION
  | NTypeSystemPart EnumValueDefinition => ENUM_VALUE_DEFINITION
  end.

(** ** Decidable equality of nodes, for the caches keyed by a node. *)

#[global] Instance NameNode_eq_dec : EqDecision NameNode.
Proof. solve_decision. Defined.
#[global] Instance OperationTypeNode_eq_dec : EqDecision OperationTypeNode.
Proof. solve_decision. Defined.
#[global] Instance NamedTypeNode_eq_dec : EqDecision NamedTypeNode.
Proof. solve_decision. Defined.
#[global] Instance TypeNode_eq_dec : EqDecision TypeNode.
Proof. solve_decision. Defined.
#[global] Instance VariableNode_eq_dec : EqDecision VariableNode.
Proof. solve_decision. Defined.

Fixpoint ValueNode_eq_dec_aux (x y : ValueNode) {struct x} :
  {x = y} + {x <> y}
with ObjectFieldNode_eq_dec_aux (x y : ObjectFieldNode) {struct x} :
  {x = y} + {x <> y}.
Proof.
  - decide equality;
      first [ apply String.string_dec | apply Bool.bool_dec
            | apply VariableNode_eq_dec
            | apply (List.list_eq_dec ValueNode_eq_dec_aux)
            | apply (List.list_eq_dec ObjectFieldNode_eq_dec_aux) ].
  - decide equality. apply NameNode_eq_dec.
Defined.

#[global] Instance ValueNode_eq_dec : EqDecision ValueNode :=
  ValueNode_eq_dec_aux.
#[global] Instance ObjectFieldNode_eq_dec : EqDecision ObjectFieldNode :=
  ObjectFieldNode_eq_dec_aux.
#[global] Instance ArgumentNode_eq_dec : EqDecision ArgumentNode.
Proof. solve_decision. Defined.
#[global] Instance DirectiveNode_eq_dec : EqDecision DirectiveNode.
Proof. solve_decision. Defined.
#[global] Instance VariableDefinitionNode_eq_dec :
  EqDecision VariableDefinitionNode.
Proof. solve_decision. Defined.
#[global] Instance FragmentSpreadNode_eq_dec : EqDecision FragmentSpreadNode.
Proof. solve_decision. Defined.

Fixpoint SelectionNode_eq_dec_aux (x y : SelectionNode) {struct x} :
  {x = y} + {x <> y}
with FieldNode_eq_dec_aux (x y : FieldNode) {struct x} : {x = y} + {x <> y}
with InlineFragmentNode_eq_dec_aux (x y : InlineFragmentNode) {struct x} :
  {x = y} + {x <> y}
with SelectionSetNode_eq_dec_aux (x y : SelectionSetNode) {struct x} :
  {x = y} + {x <> y}.
Proof.
  - decide equality;
      first [ apply FieldNode_eq_dec_aux | apply FragmentSpreadNode_eq_dec
            | apply InlineFragmentNode_eq_dec_aux ].
  - decide equality;
      first [ apply (List.list_eq_dec DirectiveNode_eq_dec)
            | apply (List.list_eq_dec ArgumentNode_eq_dec)
            | apply NameNode_eq_dec
            | apply (@option_eq_dec _ NameNode_eq_dec)
            | idtac ].
    destruct selectionSet as [s|], selectionSet0 as [s0|];
      try (right; congruence).
    + destruct (SelectionSetNode_eq_dec_aux s s0); [left|right]; congruence.
    + left; reflexivity.
  - decide equality;
      first [ apply (List.list_eq_dec DirectiveNode_eq_dec)
            | apply (@option_eq_dec _ NamedTypeNode_eq_dec)
            | apply SelectionSetNode_eq_dec_aux ].
  - decide equality. apply (List.list_eq_dec SelectionNode_eq_dec_aux).
Defined.

#[global] Instance SelectionNode_eq_dec : EqDecision SelectionNode :=
  SelectionNode_eq_dec_aux.
#[global] Instance FieldNode_eq_dec : EqDecision FieldNode :=
  FieldNode_eq_dec_aux.
#[global] Instance InlineFragmentNode_eq_dec : EqDecision InlineFragmentNode :=
  InlineFragmentNode_eq_dec_aux.
#[global] Instance SelectionSetNode_eq_dec : EqDecision SelectionSetNode :=
  SelectionSetNode_eq_dec_aux.
#[global] Instance OperationDefinitionNode_eq_dec :
  EqDecision OperationDefinitionNode.
Proof. solve_decision. Defined.
#[global] Instance FragmentDefinitionNode_eq_dec :
  EqDecision FragmentDefinitionNode.
Proof. solve_decision. Defined.

(** [NodeWithSelectionSet = OperationDefinitionNode | FragmentDefinitionNode] *)
Inductive NodeWithSelectionSet : Type :=
| WOperation (o : OperationDefinitionNode)
| WFragment (f : FragmentDefinitionNode).

#[global] Instance NodeWithSelectionSet_eq_dec :
  EqDecision NodeWithSelectionSet.
Proof. solve_decision. Defined.

(** [isNode] is applied to what a visitor function returns. *)
Inductive VisitResult : Type :=
| RUndefined            (* no action *)
| RFalse                (* skip this node *)
| RNull                 (* delete this node *)
| RBreak                (* the BREAK sentinel, a frozen empty object *)
| RNode (n : ASTNode).  (* replace this node *)

Definition isNode (maybeNode : VisitResult) : bool :=
  match maybeNode with RNode _ => true | _ => false end.

(* ===================================================================== *)
(** * The type system, as TypeInfo and the rules consume it *)
(* ===================================================================== *)

(** [type/definition], [type/schema], [type/introspection],
    [utilities/typeFromAST] and [language/printer] are consumed through
    the operations below and nothing else is assumed of them. *)
Class TypeSystem : Type := {
  GraphQLSchema : Type;
  GraphQLType : Type;
  GraphQLField : Type;
  GraphQLArgument : Type;
  GraphQLInputField : Type;
  GraphQLDirective : Type;
  GraphQLEnumValue : Type;
  (** default values, of type [unknown] *)
  JsValue : Type;
  (** [===] on type objects *)
  GraphQLType_eq_dec :: EqDecision GraphQLType;
  (** type/definition: predicates, applied to [unknown] values *)
  isObjectType : JsOpt GraphQLType -> bool;
  isInterfaceType : JsOpt GraphQLType -> bool;
  isEnumType : JsOpt GraphQLType -> bool;
  isInputObjectType : JsOpt GraphQLType -> bool;
  isListType : JsOpt GraphQLType -> bool;
  isCompositeType : JsOpt GraphQLType -> bool;
  isInputType : JsOpt GraphQLType -> bool;
  isOutputType : JsOpt GraphQLType -> bool;
  getNullableType : JsOpt GraphQLType -> JsOpt GraphQLType;
  getNamedType : JsOpt GraphQLType -> JsOpt GraphQLType;
  (** [listType.ofType] *)
  ofType : GraphQLType -> JsOpt GraphQLType;
  (** [type.getFields()[name]], on object and interface types *)
  getFields : GraphQLType -> string -> JsOpt GraphQLField;
  (** [type.getFields()[name]], on input object types *)
  getInputFields : GraphQLType -> string -> JsOpt GraphQLInputField;
  (** [enumType.getValue(name)] *)
  getValue : GraphQLType -> string -> JsOpt GraphQLEnumValue;
  (** [field.name], [field.type], [field.args] *)
  fieldName : GraphQLField -> string;
  fieldType : GraphQLField -> JsOpt GraphQLType;
  fieldArgs : GraphQLField -> list GraphQLArgument;
  (** [directive.args] *)
  directiveArgs : GraphQLDirective -> list GraphQLArgument;
  (** [arg.name], [arg.type], [arg.defaultValue] *)
  argName : GraphQLArgument -> string;
  argType : GraphQLArgument -> JsOpt GraphQLType;
  argDefaultValue : GraphQLArgument -> JsOpt JsValue;
  (** [inputField.type], [inputField.defaultValue] *)
  inputFieldType : GraphQLInputField -> JsOpt GraphQLType;
  inputFieldDefaultValue : GraphQLInputField -> JsOpt JsValue;
  (** type/schema *)
  getQueryType : GraphQLSchema -> JsOpt GraphQLType;
  getMutationType : GraphQLSchema -> JsOpt GraphQLType;
  getSubscriptionType : GraphQLSchema -> JsOpt GraphQLType;
  getDirective : GraphQLSchema -> string -> JsOpt GraphQLDirective;
  (** type/introspection *)
  SchemaMetaFieldDef : GraphQLField;
  TypeMetaFieldDef : GraphQLField;
  TypeNameMetaFieldDef : GraphQLField;
  (** utilities/typeFromAST *)
  typeFromAST : GraphQLSchema -> TypeNode -> JsOpt GraphQLType;
  (** language/printer, on type nodes *)
  print : TypeNode -> string
}.

(* ===================================================================== *)
(** * utilities/TypeInfo *)
(* ===================================================================== *)

Section TypeInfo.
Context `{TS : TypeSystem}.

(** The type of [getFieldDef] and of the constructor's [getFieldDefFn]. *)
Definition GetFieldDefFn : Type :=
  GraphQLSchema -> GraphQLType -> FieldNode -> JsOpt GraphQLField.

(** The fields of a [TypeInfo] instance. *)
Record TypeInfo : Type := mkTypeInfo {
  _schema : GraphQLSchema;
  _typeStack : list (JsOpt GraphQLType);
  _parentTypeStack : list (JsOpt GraphQLType);
  _inputTypeStack : list (JsOpt GraphQLType);
  _fieldDefStack : list (JsOpt GraphQLField);
  _defaultValueStack : list (JsOpt JsValue);
  _directive : JsOpt GraphQLDirective;
  _argument : JsOpt GraphQLArgument;
  _enumValue : JsOpt GraphQLEnumValue;
  _getFieldDef : GetFieldDefFn }.

(** Field updates. *)
Definition set_typeStack (v : list (JsOpt GraphQLType)) (t : TypeInfo) :=
  mkTypeInfo (_schema t) v (_parentTypeStack t) (_inputTypeStack t)
    (_fieldDefStack t) (_defaultValueStack t) (_directive t) (_argument t)
    (_enumValue t) (_getFieldDef t).
Definition set_parentTypeStack (v : list (JsOpt GraphQLType))
    (t : TypeInfo) :=
  mkTypeInfo (_schema t) (_typeStack t) v (_inputTypeStack t)
    (_fieldDefStack t) (_defaultValueStack t) (_directive t) (_argument t)
    (_enumValue t) (_getFieldDef t).
Definition set_inputTypeStack (v : list (JsOpt GraphQLType))
    (t : TypeInfo) :=
  mkTypeInfo (_schema t) (_typeStack t) (_parentTypeStack t) v
    (_fieldDefStack t) (_defaultValueStack t) (_directive t) (_argument t)
    (_enumValue t) (_getFieldDef t).
Definition set_fieldDefStack (v : list (JsOpt GraphQLField))
    (t : TypeInfo) :=
  mkTypeInfo (_schema t) (_typeStack t) (_parentTypeStack t)
    (_inputTypeStack t) v (_defaultValueStack t) (_directive t)
    (_argument t) (_enumValue t) (_getFieldDef t).
Definition set_defaultValueStack (v : list (JsOpt JsValue))
    (t : TypeInfo) :=
  mkTypeInfo (_schema t) (_typeStack t) (_parentTypeStack t)
    (_inputTypeStack t) (_fieldDefStack t) v (_directive t) (_argument t)
    (_enumValue t) (_getFieldDef t).
Definition set_directive (v : JsOpt GraphQLDirective) (t : TypeInfo) :=
  mkTypeInfo (_schema t) (_typeStack t) (_parentTypeStack t)
    (_inputTypeStack t) (_fieldDefStack t) (_defaultValueStack t) v
    (_argument t) (_enumValue t) (_getFieldDef t).
Definition set_argument (v : JsOpt GraphQLArgument) (t : TypeInfo) :=
  mkTypeInfo (_schema t) (_typeStack t) (_parentTypeStack t)
    (_inputTypeStack t) (_fieldDefStack t) (_defaultValueStack t)
    (_directive t) v (_enumValue t) (_getFieldDef t).
Definition set_enumValue (v : JsOpt GraphQLEnumValue) (t : TypeInfo) :=
  mkTypeInfo (_schema t) (_typeStack t) (_parentTypeStack t)
    (_inputTypeStack t) (_fieldDefStack t) (_defaultValueStack t)
    (_directive t) (_argument t) v (_getFieldDef t).

(** [x === y] for a slot and a type object. *)
Definition same_type (x : JsOpt GraphQLType) (y : GraphQLType) : bool :=
  match x with Just t => bool_decide (t = y) | _ => false end.

(** [function getFieldDef(schema, parentType, fieldNode)] *)
Definition getFieldDef : GetFieldDefFn := fun schema parentType fieldNode =>
  let name := value (field_name fieldNode) in
  if String.eqb name (fieldName SchemaMetaFieldDef)
     && same_type (getQueryType schema) parentType
  then Just SchemaMetaFieldDef
  else if String.eqb name (fieldName TypeMetaFieldDef)
          && same_type (getQueryType schema) parentType
  then Just TypeMetaFieldDef
  else if String.eqb name (fieldName TypeNameMetaFieldDef)
          && isCompositeType (Just parentType)
  then Just TypeNameMetaFieldDef
  else if isObjectType (Just parentType) || isInterfaceType (Just parentType)
  then getFields parentType name
  else undefined.

(** [new TypeInfo(schema, getFieldDefFn, initialType)] *)
Definition newTypeInfo (schema : GraphQLSchema)
    (getFieldDefFn : option GetFieldDefFn)
    (initialType : option GraphQLType) : TypeInfo :=
  let this :=
    mkTypeInfo schema [] [] [] [] [] null null null
      (match getFieldDefFn with Some f => f | None => getFieldDef end) in
  match initialType with
  | Some initialType =>
      let this :=
        if isInputType (Just initialType)
        then set_inputTypeStack
               (JsArray.push (_inputTypeStack this) (Just initialType)) this
        else this in
      let this :=
        if isCompositeType (Just initialType)
        then set_parentTypeStack
               (JsArray.push (_parentTypeStack this) (Just initialType)) this
        else this in
      if isOutputType (Just initialType)
      then set_typeStack
             (JsArray.push (_typeStack this) (Just initialType)) this
      else this
  | None => this
  end.

(** Top-of-stack accessors. A method that falls off its [if] returns
    [undefined]. *)
Definition getType (this : TypeInfo) : JsOpt GraphQLType :=
  if 0 <? length (_typeStack this)
  then JsArray.get (_typeStack this) (length (_typeStack this) - 1)
  else undefined.

Definition getParentType (this : TypeInfo) : JsOpt GraphQLType :=
  if 0 <? length (_parentTypeStack this)
  then JsArray.get (_parentTypeStack this)
         (length (_parentTypeStack this) - 1)
  else undefined.

Definition getInputType (this : TypeInfo) : JsOpt GraphQLType :=
  if 0 <? length (_inputTypeStack this)
  then JsArray.get (_inputTypeStack this)
         (length (_inputTypeStack this) - 1)
  else undefined.

Definition getParentInputType (this : TypeInfo) : JsOpt GraphQLType :=
  if 1 <? length (_inputTypeStack this)
  then JsArray.get (_inputTypeStack this)
         (length (_inputTypeStack this) - 2)
  else undefined.

Definition getFieldDef_ (this : TypeInfo) : JsOpt GraphQLField :=
  if 0 <? length (_fieldDefStack this)
  then JsArray.get (_fieldDefStack this)
         (length (_fieldDefStack this) - 1)
  else undefined.

Definition getDefaultValue (this : TypeInfo) : JsOpt JsValue :=
  if 0 <? length (_defaultValueStack this)
  then JsArray.get (_defaultValueStack this)
         (length (_defaultValueStack this) - 1)
  else undefined.

Definition getDirective_ (this : TypeInfo) : JsOpt GraphQLDirective :=
  _directive this.
Definition getArgument (this : TypeInfo) : JsOpt GraphQLArgument :=
  _argument this.
Definition getEnumValue (this : TypeInfo) : JsOpt GraphQLEnumValue :=
  _enumValue this.

(** [cond(x) ? x : undefined] *)
Definition keep_if (cond : JsOpt GraphQLType -> bool)
    (x : JsOpt GraphQLType) : JsOpt GraphQLType :=
  if cond x then x else undefined.

(** [args.find((arg) => arg.name === name)] *)
Definition find_arg (args : list GraphQLArgument) (name : string) :
    JsOpt GraphQLArgument :=
  match List.find (fun arg => String.eqb (argName arg) name) args with
  | Some a => Just a
  | None => undefined
  end.

(** [enter(node)] *)
Definition enter (node : ASTNode) (this : TypeInfo) : TypeInfo :=
  let schema := _schema this in
  match node with
  | NSelectionSet _ =>
      let namedType := getNamedType (getType this) in
      set_parentTypeStack
        (JsArray.push (_parentTypeStack this)
           (keep_if isCompositeType namedType)) this
  | NSelection (SField node) =>
      let parentType := getParentType this in
      let fieldDef :=
        match parentType with
        | Just parentType => _getFieldDef this schema parentType node
        | _ => undefined
        end in
      let fieldType :=
        match fieldDef with
        | Just fieldDef => fieldType fieldDef
        | _ => undefined
        end in
      let this :=
        set_fieldDefStack (JsArray.push (_fieldDefStack this) fieldDef)
          this in
      set_typeStack
        (JsArray.push (_typeStack this) (keep_if isOutputType fieldType))
        this
  | NDirective node =>
      set_directive (getDirective schema (value (dir_name node))) this
  | NDefinition (DOperation node) =>
      let type :=
        match op_operation node with
        | query => getQueryType schema
        | mutation => getMutationType schema
        | subscription => getSubscriptionType schema
        end in
      set_typeStack
        (JsArray.push (_typeStack this) (keep_if isObjectType type)) this
  | NSelection (SInlineFragment node) =>
      let typeConditionAST := if_typeCondition node in
      let outputType :=
        match typeConditionAST with
        | Some typeConditionAST => typeFromAST schema (TNamed typeConditionAST)
        | None => getNamedType (getType this)
        end in
      set_typeStack
        (JsArray.push (_typeStack this) (keep_if isOutputType outputType))
        this
  | NDefinition (DFragment node) =>
      let typeConditionAST := fd_typeCondition node in
      let outputType := typeFromAST schema (TNamed typeConditionAST) in
      set_typeStack
        (JsArray.push (_typeStack this) (keep_if isOutputType outputType))
        this
  | NVariableDefinition node =>
      let inputType := typeFromAST schema (vd_type node) in
      set_inputTypeStack
        (JsArray.push (_inputTypeStack this) (keep_if isInputType inputType))
        this
  | NArgument node =>
      let fieldOrDirective :=
        nullish_or (JsOpt_map inl (getDirective_ this))
                   (JsOpt_map inr (getFieldDef_ this)) in
      let argDef :=
        match fieldOrDirective with
        | Just fieldOrDirective =>
            find_arg
              (match fieldOrDirective with
               | inl d => directiveArgs d
               | inr f => fieldArgs f
               end) (value (arg_name node))
        | _ => undefined
        end in
      let argType :=
        match argDef with Just argDef => argType argDef | _ => undefined end
      in
      let this := set_argument argDef this in
      let this :=
        set_defaultValueStack
          (JsArray.push (_defaultValueStack this)
             (match argDef with
              | Just argDef => argDefaultValue argDef
              | _ => undefined
              end)) this in
      set_inputTypeStack
        (JsArray.push (_inputTypeStack this) (keep_if isInputType argType))
        this
  | NValue (ListValue _) =>
      let listType := getNullableType (getInputType this) in
      let itemType :=
        if isListType listType
        then match listType with Just l => ofType l | _ => undefined end
        else listType in
      let this :=
        set_defaultValueStack
          (JsArray.push (_defaultValueStack this) undefined) this in
      set_inputTypeStack
        (JsArray.push (_inputTypeStack this) (keep_if isInputType itemType))
        this
  | NObjectField (ObjectField name _) =>
      let objectType := getNamedType (getInputType this) in
      let inputField :=
        if isInputObjectType objectType
        then match objectType with
             | Just o => getInputFields o (value name)
             | _ => undefined
             end
        else undefined in
      let inputFieldType :=
        match inputField with
        | Just inputField => inputFieldType inputField
        | _ => undefined
        end in
      let this :=
        set_defaultValueStack
          (JsArray.push (_defaultValueStack this)
             (match inputField with
              | Just inputField => inputFieldDefaultValue inputField
              | _ => undefined
              end)) this in
      set_inputTypeStack
        (JsArray.push (_inputTypeStack this)
           (keep_if isInputType inputFieldType)) this
  | NValue (EnumValue v) =>
      let enumType := getNamedType (getInputType this) in
      let enumValue :=
        if isEnumType enumType
        then match enumType with
             | Just e => getValue e v
             | _ => undefined
             end
        else undefined in
      set_enumValue enumValue this
  | _ => this
  end.

(** [leave(node)] *)
Definition leave (node : ASTNode) (this : TypeInfo) : TypeInfo :=
  match kind node with
  | SELECTION_SET =>
      set_parentTypeStack (snd (JsArray.pop (_parentTypeStack this))) this
  | FIELD =>
      let this :=
        set_fieldDefStack (snd (JsArray.pop (_fieldDefStack this))) this in
      set_typeStack (snd (JsArray.pop (_typeStack this))) this
  | DIRECTIVE => set_directive null this
  | OPERATION_DEFINITION | INLINE_FRAGMENT | FRAGMENT_DEFINITION =>
      set_typeStack (snd (JsArray.pop (_typeStack this))) this
  | VARIABLE_DEFINITION =>
      set_inputTypeStack (snd (JsArray.pop (_inputTypeStack this))) this
  | ARGUMENT =>
      let this := set_argument null this in
      let this :=
        set_defaultValueStack
          (snd (JsArray.pop (_defaultValueStack this))) this in
      set_inputTypeStack (snd (JsArray.pop (_inputTypeStack this))) this
  | LIST | OBJECT_FIELD =>
      let this :=
        set_defaultValueStack
          (snd (JsArray.pop (_defaultValueStack this))) this in
      set_inputTypeStack (snd (JsArray.pop (_inputTypeStack this))) this
  | ENUM => set_enumValue null this
  | _ => this
  end.

End TypeInfo.

(** ** [visitWithTypeInfo]

    The program state [W] holds the [TypeInfo] instance and whatever the
    visitor's functions close over. [typeInfo] is an object reference: its
    methods update the state. A visitor is given by the function that
    [getVisitFn(visitor, kind, isLeaving)] finds in it; visitor functions
    receive [(node, key, parent, path, ancestors)], of which [node] is
    represented. *)
Section VisitWithTypeInfo.
Context {W : Type}.

Definition VisitFn : Type := ASTNode -> W -> VisitResult * W.

Record Visitor : Type := { getVisitFn : Kind -> bool -> option VisitFn }.

Record TypeInfoObject : Type := {
  typeInfo_enter : ASTNode -> W -> W;
  typeInfo_leave : ASTNode -> W -> W }.

Definition visitWithTypeInfo (typeInfo : TypeInfoObject)
    (visitor : Visitor) : Visitor :=
  let enter_ : VisitFn := fun node w =>
    let w := typeInfo_enter typeInfo node w in
    let fn := getVisitFn visitor (kind node) (* isLeaving *) false in
    match fn with
    | Some fn =>
        let '(result, w) := fn node w in
        let w :=
          match result with
          | RUndefined => w
          | _ =>
              let w := typeInfo_leave typeInfo node w in
              match result with
              | RNode result => typeInfo_enter typeInfo result w
              | _ => w
              end
          end in
        (result, w)
    | None => (RUndefined, w)
    end in
  let leave_ : VisitFn := fun node w =>
    let fn := getVisitFn visitor (kind node) (* isLeaving *) true in
    let '(result, w) :=
      match fn with
      | Some fn => fn node w
      | None => (RUndefined, w)
      end in
    let w := typeInfo_leave typeInfo node w in
    (result, w) in
  {| getVisitFn := fun _ isLeaving =>
       Some (if isLeaving then leave_ else enter_) |}.

End VisitWithTypeInfo.
Arguments Visitor W : clear implicits.
Arguments VisitFn W : clear implicits.
Arguments TypeInfoObject W : clear implicits.

(* ===================================================================== *)
(** * language/visitor: [visit] *)
(* ===================================================================== *)

(** How a walk ends. *)
Inductive Walk : Type :=
| Completed    (* every node was visited *)
| Stopped      (* a visitor function returned BREAK *)
| Edited.      (* a visitor function asked for an edit *)

(** [visit] of language/visitor is not among the sources. It is modelled
    from the spec for visitors that do not edit: the walk is depth first;
    the children of a node are its node-valued fields in the order in which
    language/ast declares them; [enter] is called before the children of a
    node and [leave] after them; when [enter] returns [false] the subtree is
    skipped and [leave] is not called for it; BREAK stops the walk. The
    editing convention is not represented: a walk whose visitor returns an
    edit (a node, or null) ends as [Edited]. *)
Section Visit.
Context {W : Type}.
Variable visitor : Visitor W.

Definition Step : Type := W -> Walk * W.

(** Modelled from the spec: the part of [visit] that walks the children
    of a node one after the other, until one of them stops the walk. *)
Fixpoint visit_seq (steps : list Step) : Step := fun w =>
  match steps with
  | [] => (Completed, w)
  | step :: steps =>
      match step w with
      | (Completed, w) => visit_seq steps w
      | stop => stop
      end
  end.

(** Modelled from the spec: the part of [visit] that leaves a node. It
    calls the [leave] function that the visitor has for the kind of the
    node, if any; BREAK stops the walk. *)
Definition visit_leave (node : ASTNode) : Step := fun w =>
  match getVisitFn visitor (kind node) true with
  | None => (Completed, w)
  | Some fn =>
      match fn node w with
      | (RUndefined, w) | (RFalse, w) => (Completed, w)
      | (RBreak, w) => (Stopped, w)
      | (RNull, w) | (RNode _, w) => (Edited, w)
      end
  end.

(** Modelled from the spec: the part of [visit] that enters a node,
    walks its children and leaves it. It calls the [enter] function that
    the visitor has for the kind of the node, if any; on [false] the
    children are skipped and the node is not left; BREAK stops the
    walk. *)
Definition visit_node (node : ASTNode) (children : Step) : Step := fun w =>
  let descend : Step := visit_seq [children; visit_leave node] in
  match getVisitFn visitor (kind node) false with
  | None => descend w
  | Some fn =>
      match fn node w with
      | (RUndefined, w) => descend w
      | (RFalse, w) => (Completed, w)
      | (RBreak, w) => (Stopped, w)
      | (RNull, w) | (RNode _, w) => (Edited, w)
      end
  end.

(** The functions below are modelled from the spec and from
    language/ast: each walks a node of one type, and gives its children
    in the order of the fields of that type. *)
Definition visit_opt {A} (f : A -> Step) (x : option A) : Step :=
  match x with Some a => f a | None => visit_seq [] end.

Definition visit_Name (n : NameNode) : Step :=
  visit_node (NName n) (visit_seq []).

Definition visit_NamedType (t : NamedTypeNode) : Step :=
  visit_node (NType (TNamed t)) (visit_Name (nt_name t)).

Fixpoint visit_Type (t : TypeNode) : Step :=
  match t with
  | TNamed n => visit_NamedType n
  | ListType type => visit_node (NType t) (visit_Type type)
  | NonNullType type => visit_node (NType t) (visit_Type type)
  end.

Fixpoint visit_Value (v : ValueNode) : Step :=
  visit_node (NValue v)
    match v with
    | VVariable x => visit_Name (var_name x)
    | ListValue values => visit_seq (map visit_Value values)
    | ObjectValue fields => visit_seq (map visit_ObjectField fields)
    | _ => visit_seq []
    end
with visit_ObjectField (f : ObjectFieldNode) : Step :=
  match f with
  | ObjectField name v =>
      visit_node (NObjectField f)
        (visit_seq [visit_Name name; visit_Value v])
  end.

Definition visit_Argument (a : ArgumentNode) : Step :=
  visit_node (NArgument a)
    (visit_seq [visit_Name (arg_name a); visit_Value (arg_value a)]).

Definition visit_Directive (d : DirectiveNode) : Step :=
  visit_node (NDirective d)
    (visit_seq [visit_Name (dir_name d);
                visit_seq (map visit_Argument (dir_arguments d))]).

Definition visit_VariableDefinition (d : VariableDefinitionNode) : Step :=
  visit_node (NVariableDefinition d)
    (visit_seq [visit_Value (VVariable (vd_variable d));
                visit_Type (vd_type d);
                visit_opt visit_Value (vd_defaultValue d);
                visit_seq (map visit_Directive (vd_directives d))]).

Fixpoint visit_SelectionSet (s : SelectionSetNode) : Step :=
  match s with
  | SelectionSet selections =>
      visit_node (NSelectionSet s)
        (visit_seq (map visit_Selection selections))
  end
with visit_Selection (s : SelectionNode) : Step :=
  match s with
  | SField (Field alias name arguments directives selectionSet) =>
      visit_node (NSelection s)
        (visit_seq [visit_opt visit_Name alias;
                    visit_Name name;
                    visit_seq (map visit_Argument arguments);
                    visit_seq (map visit_Directive directives);
                    match selectionSet with
                    | Some ss => visit_SelectionSet ss
                    | None => visit_seq []
                    end])
  | SFragmentSpread f =>
      visit_node (NSelection s)
        (visit_seq [visit_Name (fs_name f);
                    visit_seq (map visit_Directive (fs_directives f))])
  | SInlineFragment (InlineFragment typeCondition directives selectionSet) =>
      visit_node (NSelection s)
        (visit_seq [visit_opt visit_NamedType typeCondition;
                    visit_seq (map visit_Directive directives);
                    visit_SelectionSet selectionSet])
  end.

Definition visit_OperationDefinition (o : OperationDefinitionNode) : Step :=
  visit_node (NDefinition (DOperation o))
    (visit_seq
       [visit_opt visit_Name (op_name o);
        visit_seq (map visit_VariableDefinition (op_variableDefinitions o));
        visit_seq (map visit_Directive (op_directives o));
        visit_SelectionSet (op_selectionSet o)]).

Definition visit_FragmentDefinition (f : FragmentDefinitionNode) : Step :=
  visit_node (NDefinition (DFragment f))
    (visit_seq
       [visit_Name (fd_name f);
        visit_seq (map visit_VariableDefinition (fd_variableDefinitions f));
        visit_NamedType (fd_typeCondition f);
        visit_seq (map visit_Directive (fd_directives f));
        visit_SelectionSet (fd_selectionSet f)]).

(** Modelled from the spec: [visit(root, visitor)] of language/visitor,
    for a root that is an operation or a fragment definition. *)
Definition visit (root : NodeWithSelectionSet) : Step :=
  match root with
  | WOperation o => visit_OperationDefinition o
  | WFragment f => visit_FragmentDefinition f
  end.

End Visit.

(* ===================================================================== *)
(** * error/GraphQLError and the caches of a context *)
(* ===================================================================== *)

(** [new GraphQLError(message, nodes)] *)
Record GraphQLError : Type := mkGraphQLError {
  message : string;
  nodes : ASTNode }.

(** A [Map] keyed by a node. Keys are compared by the identity of the node
    object; nodes are compared here by structure, so two equal subtrees at
    different places of a document share an entry. Everything cached below
    is a function of the structure of the key. Entries are kept in
    insertion order. *)
Module JsMap.
Section JsMap.
Context {K V : Type} `{EqDecision K}.

Definition t : Type := list (K * V).

Definition get (k : K) (m : t) : option V :=
  snd <$> List.find (fun p => bool_decide (fst p = k)) m.

Fixpoint set (k : K) (v : V) (m : t) : t :=
  match m with
  | [] => [(k, v)]
  | (k', v') :: m =>
      if bool_decide (k' = k) then (k, v) :: m else (k', v') :: set k v m
  end.
End JsMap.
Arguments t K V : clear implicits.
End JsMap.

(** The double quote character and [`"${s}"`]. *)
Definition dquote : string :=
  String (Ascii false true false false false true false false) EmptyString.
Definition quoted (s : string) : string := (dquote ++ s ++ dquote)%string.

(* ===================================================================== *)
(** * validation/ValidationContext *)
(* ===================================================================== *)

Module ValidationContext.

(** [VariableUsage] *)
Record VariableUsage `{TS : TypeSystem} : Type := mkVariableUsage {
  node : VariableNode;
  type : JsOpt GraphQLType;
  defaultValue : JsOpt JsValue }.

(** The fields of an [ASTValidationContext]. [_onError] is a callback;
    [reported] is the sequence of errors it has been called with. *)
Record ASTValidationContext : Type := mkASTValidationContext {
  _ast : DocumentNode;
  reported : list GraphQLError;
  _fragments : option (gmap string FragmentDefinitionNode);
  _fragmentSpreads : JsMap.t SelectionSetNode (list FragmentSpreadNode);
  _recursivelyReferencedFragments :
    JsMap.t OperationDefinitionNode (list FragmentDefinitionNode) }.

(** [new ASTValidationContext(ast, onError)] *)
Definition newASTValidationContext (ast : DocumentNode) :
    ASTValidationContext :=
  mkASTValidationContext ast [] None [] [].

(** [reportError(error)] *)
Definition reportError (error : GraphQLError)
    (this : ASTValidationContext) : ASTValidationContext :=
  mkASTValidationContext (_ast this) (JsArray.push (reported this) error)
    (_fragments this) (_fragmentSpreads this)
    (_recursivelyReferencedFragments this).

Definition getDocument (this : ASTValidationContext) : DocumentNode :=
  _ast this.

(** The [reduce] of [getFragment]: the fragment definitions of the
    document by name; a later definition replaces an earlier one of the
    same name. *)
Definition fragments_by_name (defs : list DefinitionNode) :
    gmap string FragmentDefinitionNode :=
  fold_left
    (fun frags statement =>
       match statement with
       | DFragment f => <[value (fd_name f) := f]> frags
       | _ => frags
       end)
    defs ∅.

(** [getFragment(name)] *)
Definition getFragment (name : string) (this : ASTValidationContext) :
    option FragmentDefinitionNode * ASTValidationContext :=
  match _fragments this with
  | Some fragments => (fragments !! name, this)
  | None =>
      let fragments := fragments_by_name (definitions (getDocument this)) in
      (fragments !! name,
       mkASTValidationContext (_ast this) (reported this) (Some fragments)
         (_fragmentSpreads this) (_recursivelyReferencedFragments this))
  end.

(** The body of the [for] loop of [getFragmentSpreads]. *)
Definition collect_selection
    (acc : list FragmentSpreadNode * list SelectionSetNode)
    (selection : SelectionNode) :
    list FragmentSpreadNode * list SelectionSetNode :=
  let '(spreads, setsToVisit) := acc in
  match selection with
  | SFragmentSpread selection => (JsArray.push spreads selection, setsToVisit)
  | SField f =>
      match field_selectionSet f with
      | Some selectionSet => (spreads, JsArray.push setsToVisit selectionSet)
      | None => (spreads, setsToVisit)
      end
  | SInlineFragment f =>
      (spreads, JsArray.push setsToVisit (if_selectionSet f))
  end.

(** The [while] loop of [getFragmentSpreads]; [None] when [fuel]
    iterations do not empty [setsToVisit]. *)
Fixpoint collect_spreads (fuel : nat) (spreads : list FragmentSpreadNode)
    (setsToVisit : list SelectionSetNode) :
    option (list FragmentSpreadNode) :=
  match JsArray.pop setsToVisit with
  | (None, _) => Some spreads
  | (Some set, setsToVisit) =>
      match fuel with
      | 0 => None
      | S fuel =>
          let '(spreads, setsToVisit) :=
            fold_left collect_selection (selections set)
              (spreads, setsToVisit) in
          collect_spreads fuel spreads setsToVisit
      end
  end.

(** [getFragmentSpreads(node)] *)
Definition getFragmentSpreads (fuel : nat) (node : SelectionSetNode)
    (this : ASTValidationContext) :
    option (list FragmentSpreadNode * ASTValidationContext) :=
  match JsMap.get node (_fragmentSpreads this) with
  | Some spreads => Some (spreads, this)
  | None =>
      spreads ← collect_spreads fuel [] [node];
      Some (spreads,
            mkASTValidationContext (_ast this) (reported this)
              (_fragments this)
              (JsMap.set node spreads (_fragmentSpreads this))
              (_recursivelyReferencedFragments this))
  end.

(** The state of the loops of [getRecursivelyReferencedFragments]. *)
Record Collecting : Type := mkCollecting {
  this_ : ASTValidationContext;
  collectedNames : gmap string bool;
  fragments : list FragmentDefinitionNode;
  nodesToVisit : list SelectionSetNode }.

(** The body of its [for] loop. *)
Definition collect_spread (st : Collecting) (spread : FragmentSpreadNode) :
    Collecting :=
  let fragName := value (fs_name spread) in
  if bool_decide (collectedNames st !! fragName = Some true) then st
  else
    let collectedNames := <[fragName := true]> (collectedNames st) in
    let '(fragment, this) := getFragment fragName (this_ st) in
    match fragment with
    | Some fragment =>
        mkCollecting this collectedNames
          (JsArray.push (fragments st) fragment)
          (JsArray.push (nodesToVisit st) (fd_selectionSet fragment))
    | None =>
        mkCollecting this collectedNames (fragments st) (nodesToVisit st)
    end.

(** Its [while] loop; [fuel] bounds the iterations of this loop and
    [fuel'] those of each [getFragmentSpreads]. *)
Fixpoint collect_fragments (fuel fuel' : nat) (st : Collecting) :
    option Collecting :=
  match JsArray.pop (nodesToVisit st) with
  | (None, _) => Some st
  | (Some node, nodesToVisit) =>
      match fuel with
      | 0 => None
      | S fuel =>
          '(spreads, this) ← getFragmentSpreads fuel' node (this_ st);
          collect_fragments fuel fuel'
            (fold_left collect_spread spreads
               (mkCollecting this (collectedNames st) (fragments st)
                  nodesToVisit))
      end
  end.

(** [getRecursivelyReferencedFragments(operation)] *)
Definition getRecursivelyReferencedFragments (fuel : nat)
    (operation : OperationDefinitionNode) (this : ASTValidationContext) :
    option (list FragmentDefinitionNode * ASTValidationContext) :=
  match JsMap.get operation (_recursivelyReferencedFragments this) with
  | Some fragments => Some (fragments, this)
  | None =>
      st ← collect_fragments fuel fuel
             (mkCollecting this ∅ [] [op_selectionSet operation]);
      let this := this_ st in
      Some (fragments st,
            mkASTValidationContext (_ast this) (reported this)
              (_fragments this) (_fragmentSpreads this)
              (JsMap.set operation (fragments st)
                 (_recursivelyReferencedFragments this)))
  end.

Section WithSchema.
Context `{TS : TypeSystem}.

(** The fields that [ValidationContext] adds to those of
    [ASTValidationContext], which is [super]. *)
Record ValidationContext : Type := mkValidationContext {
  super : ASTValidationContext;
  _schema : GraphQLSchema;
  _typeInfo : TypeInfo;
  _variableUsages : JsMap.t NodeWithSelectionSet (list VariableUsage);
  _recursiveVariableUsages :
    JsMap.t OperationDefinitionNode (list VariableUsage) }.

(** [new ValidationContext(schema, ast, typeInfo, onError)] *)
Definition newValidationContext (schema : GraphQLSchema)
    (ast : DocumentNode) (typeInfo : TypeInfo) : ValidationContext :=
  mkValidationContext (newASTValidationContext ast) schema typeInfo [] [].

Definition getSchema (this : ValidationContext) : GraphQLSchema :=
  _schema this.

(** The state of the walk of [getVariableUsages]: the fresh [typeInfo]
    and [newUsages]. *)
Definition UsageWalk : Type := TypeInfo * list VariableUsage.

Definition usage_typeInfo : TypeInfoObject UsageWalk :=
  {| typeInfo_enter := fun n w => (enter n (fst w), snd w);
     typeInfo_leave := fun n w => (leave n (fst w), snd w) |}.

(** The visitor [{ VariableDefinition: () => false, Variable(variable)
    {...} }]. How [getVisitFn] of language/visitor, which is not among
    the sources, finds a function in it is modelled from the spec: a
    function stored under a kind is called on entering a node of that
    kind, and nothing is called on leaving. *)
Definition usage_visitor : Visitor UsageWalk :=
  {| getVisitFn := fun kind isLeaving =>
       if isLeaving then None
       else match kind with
            | VARIABLE_DEFINITION => Some (fun _ w => (RFalse, w))
            | VARIABLE =>
                Some (fun variable w =>
                  let '(typeInfo, newUsages) := w in
                  match variable with
                  | NValue (VVariable variable) =>
                      (RUndefined,
                       (typeInfo,
                        JsArray.push newUsages
                          (mkVariableUsage _ variable
                             (getInputType typeInfo)
                             (getDefaultValue typeInfo))))
                  | _ => (RUndefined, w)
                  end)
            | _ => None
            end |}.

(** [getVariableUsages(node)] *)
Definition getVariableUsages (node : NodeWithSelectionSet)
    (this : ValidationContext) :
    list VariableUsage * ValidationContext :=
  match JsMap.get node (_variableUsages this) with
  | Some usages => (usages, this)
  | None =>
      let newUsages := [] in
      let typeInfo := newTypeInfo (_schema this) None None in
      let '(_, (_, newUsages)) :=
        visit (visitWithTypeInfo usage_typeInfo usage_visitor) node
          (typeInfo, newUsages) in
      let usages := newUsages in
      (usages,
       mkValidationContext (super this) (_schema this) (_typeInfo this)
         (JsMap.set node usages (_variableUsages this))
         (_recursiveVariableUsages this))
  end.

End WithSchema.

End ValidationContext.

(* ===================================================================== *)
(** * validation/rules *)
(* ===================================================================== *)

(** Modelled from the spec: [isExecutableDefinitionNode] of
    language/predicates, which is not among the sources: a definition is
    executable when it is an operation or a fragment definition. *)
Definition isExecutableDefinitionNode (node : DefinitionNode) : bool :=
  bool_decide (definition_kind node = OPERATION_DEFINITION)
  || bool_decide (definition_kind node = FRAGMENT_DEFINITION).

(** [definition.name.value]; [None] when reading it throws a TypeError,
    which is the case of an operation without a name and of the schema
    definition and extension, which have no [name]. *)
Definition definition_name_value (definition : DefinitionNode) :
    option string :=
  match definition with
  | DOperation o => value <$> op_name o
  | DFragment f => Some (value (fd_name f))
  | DTypeSystem (NamedTypeSystem _ name) => Some (value name)
  | DTypeSystem _ => None
  end.

Module ExecutableDefinitionsRule.
Import ValidationContext.

(** The body of the [for] loop over the definitions; [None] when it
    throws. *)
Definition check_definition (context : option ASTValidationContext)
    (definition : DefinitionNode) : option ASTValidationContext :=
  context ← context;
  if negb (isExecutableDefinitionNode definition) then
    defName ←
      (if bool_decide (definition_kind definition = SCHEMA_DEFINITION)
          || bool_decide (definition_kind definition = SCHEMA_EXTENSION)
       then Some "schema"%string
       else quoted <$> definition_name_value definition);
    Some (reportError
            (mkGraphQLError
               ("The " ++ defName ++ " definition is not executable.")%string
               (NDefinition definition))
            context)
  else Some context.

(** The [Document(node)] function of the visitor that
    [ExecutableDefinitionsRule(context)] returns. *)
Definition Document_ (node : DocumentNode)
    (context : ASTValidationContext) :
    option (VisitResult * ASTValidationContext) :=
  context ← fold_left check_definition (definitions node) (Some context);
  Some (RFalse, context).

End ExecutableDefinitionsRule.

Module VariablesAreInputTypesRule.
Import ValidationContext.

Section WithSchema.
Context `{TS : TypeSystem}.

(** [super.reportError(error)] on a [ValidationContext] *)
Definition reportError_ (error : GraphQLError)
    (this : ValidationContext) : ValidationContext :=
  mkValidationContext (reportError error (super this)) (_schema this)
    (_typeInfo this) (_variableUsages this)
    (_recursiveVariableUsages this).

(** The [VariableDefinition(node)] function of the visitor that
    [VariablesAreInputTypesRule(context)] returns. *)
Definition VariableDefinition_ (node : VariableDefinitionNode)
    (context : ValidationContext) : VisitResult * ValidationContext :=
  let type := typeFromAST (getSchema context) (vd_type node) in
  if truthy type && negb (isInputType type) then
    let variableName := value (var_name (vd_variable node)) in
    let typeName := print (vd_type node) in
    (RUndefined,
     reportError_
       (mkGraphQLError
          ("Variable " ++ dquote ++ "$" ++ variableName ++ dquote
           ++ " cannot be non-input type " ++ quoted typeName ++ ".")
          (NType (vd_type node)))
       context)
  else (RUndefined, context).

End WithSchema.
End VariablesAreInputTypesRule.

(* ===================================================================== *)
(** * subscription/mapAsyncIterator *)
(* ===================================================================== *)

(** A promise is represented by how it settles; [Err] is the type of the
    values that are thrown. The state [S] is that of the source iterator
    and of whatever it acts on. *)
Module MapAsyncIterator.
Section MapAsyncIterator.
Context {Err S : Type}.

Inductive Promise (A : Type) : Type :=
| Fulfilled (a : A)
| Rejected (error : Err).
Arguments Fulfilled {A} a.
Arguments Rejected {A} error.

(** [IteratorResult<T, R>]: [{ value, done: false }] or
    [{ value, done: true }]. *)
Inductive IteratorResult (T R : Type) : Type :=
| Yielded (value : T)
| Done (value : JsOpt R).
Arguments Yielded {T R} value.
Arguments Done {T R} value.

(** A call that returns a promise and acts on the state. *)
Definition Async (A : Type) : Type := S -> Promise A * S.

(** [p.then(onFulfilled, onRejected)]; a handler that is [undefined]
    passes the settlement on. A handler may return a value, return a
    promise or throw: it returns how its result settles. *)
Definition then_ {A B} (p : Promise A) (onFulfilled : A -> Async B)
    (onRejected : option (Err -> Async B)) : Async B := fun s =>
  match p with
  | Fulfilled a => onFulfilled a s
  | Rejected error =>
      match onRejected with
      | Some onRejected => onRejected error s
      | None => (Rejected error, s)
      end
  end.

(** An async iterator: [next], and [return] and [throw] when it has
    them. *)
Record AsyncIterator (T R : Type) : Type := {
  next : Async (IteratorResult T R);
  return_ : option (Async (IteratorResult T R));
  throw : option (Err -> Async (IteratorResult T R)) }.
Arguments next {T R} _.
Arguments return_ {T R} _.
Arguments throw {T R} _.

Context {T U R : Type}.

(** [asyncMapValue(value, callback)]; [callback] returns a value,
    returns a promise or throws. *)
Definition asyncMapValue {A} (value : A) (callback : A -> Promise U) :
    Promise U :=
  callback value.

Definition iteratorResult (value : U) : Async (IteratorResult U R) :=
  fun s => (Fulfilled (Yielded value), s).

(** [mapAsyncIterator(iterable, callback, rejectCallback)], where
    [iterator] is what [iterable[Symbol.asyncIterator]()] returns. *)
Definition mapAsyncIterator (iterator : AsyncIterator T R)
    (callback : T -> Promise U)
    (rejectCallback : option (Err -> Promise U)) : AsyncIterator U R :=
  let _return := return_ iterator in
  let abruptClose : option (Err -> Async (IteratorResult U R)) :=
    match return_ iterator with
    | Some _return =>
        Some (fun error s =>
          let rethrow : IteratorResult T R -> Async (IteratorResult U R) :=
            fun _ s => (Rejected error, s) in
          let '(p, s) := _return s in
          then_ p rethrow (Some (fun _ s => (Rejected error, s))) s)
    | None => None
    end in
  let mapResult (result : IteratorResult T R) :
      Async (IteratorResult U R) := fun s =>
    match result with
    | Done value => (Fulfilled (Done value), s)
    | Yielded value =>
        then_ (asyncMapValue value callback) iteratorResult abruptClose s
    end in
  let mapReject : option (Err -> Async (IteratorResult U R)) :=
    match rejectCallback with
    | Some reject =>
        Some (fun error s =>
          then_ (asyncMapValue error reject) iteratorResult abruptClose s)
    | None => None
    end in
  {| next := fun s =>
       let '(p, s) := next iterator s in then_ p mapResult mapReject s;
     return_ := Some (fun s =>
       match _return with
       | Some _return =>
           let '(p, s) := _return s in then_ p mapResult mapReject s
       | None => (Fulfilled (Done undefined), s)
       end);
     throw := Some (fun error s =>
       match throw iterator with
       | Some throw_ =>
           let '(p, s) := throw_ error s in then_ p mapResult mapReject s
       | None =>
           then_ (Rejected error)
             (fun r s => (Fulfilled r, s)) abruptClose s
       end) |}.

End MapAsyncIterator.

Arguments Promise Err A : clear implicits.
Arguments Fulfilled {Err A} a.
Arguments Rejected {Err A} error.
Arguments IteratorResult T R : clear implicits.
Arguments Yielded {T R} value.
Arguments Done {T R} value.
Arguments Async Err S A : clear implicits.
Arguments AsyncIterator Err S T R : clear implicits.
Arguments next {Err S T R} _.
Arguments return_ {Err S T R} _.
Arguments throw {Err S T R} _.

(** ** Observing the calls made on the source iterator. *)
Inductive Call : Type := CallNext | CallReturn | CallThrow.

#[global] Instance Call_eq_dec : EqDecision Call.
Proof. solve_decision. Defined.

Section Observed.
Context {Err S T R : Type}.

(** The same iterator, whose methods also record that they are called. *)
Definition observed (iterator : AsyncIterator Err S T R) :
    AsyncIterator Err (S * list Call) T R :=
  let record (c : Call) (m : Async Err S (IteratorResult T R)) :
      Async Err (S * list Call) (IteratorResult T R) :=
    fun '(s, calls) =>
      let '(p, s) := m s in (p, (s, JsArray.push calls c)) in
  {| next := record CallNext (next iterator);
     return_ := record CallReturn <$> return_ iterator;
     throw := (fun m error => record CallThrow (m error))
                <$> throw iterator |}.

(** What a consumer does with an iterator, one call after the other,
    each awaited before the next. *)
Inductive Op : Type := OpNext | OpReturn | OpThrow (error : Err).

Definition run_op {S' T'} (it : AsyncIterator Err S' T' R) (op : Op) :
    Async Err S' (IteratorResult T' R) := fun s =>
  match op with
  | OpNext => next it s
  | OpReturn =>
      match return_ it with
      | Some m => m s
      | None => (Fulfilled (Done undefined), s)
      end
  | OpThrow error =>
      match throw it with
      | Some m => m error s
      | None => (Rejected error, s)
      end
  end.

Fixpoint run {S' T'} (it : AsyncIterator Err S' T' R) (ops : list Op)
    (s : S') : list (Promise Err (IteratorResult T' R)) * S' :=
  match ops with
  | [] => ([], s)
  | op :: ops =>
      let '(p, s) := run_op it op s in
      let '(ps, s) := run it ops s in
      (p :: ps, s)
  end.

End Observed.
End MapAsyncIterator.

(* ===================================================================== *)
(** * Specification-level definitions used by the statements below *)
(* ===================================================================== *)

(** The five stacks of a [TypeInfo]. *)
Inductive Stack : Type :=
| TypeStack | ParentTypeStack | InputTypeStack | FieldDefStack
| DefaultValueStack.

(** The table of the transitions of [enter] and [leave], by node kind: the
    stacks that [enter] pushes on and that [leave] pops. *)
Definition spec_stacks_of_kind (k : Kind) (s : Stack) : bool :=
  match k, s with
  | SELECTION_SET, ParentTypeStack => true
  | FIELD, (FieldDefStack | TypeStack) => true
  | (OPERATION_DEFINITION | INLINE_FRAGMENT | FRAGMENT_DEFINITION), TypeStack =>
      true
  | VARIABLE_DEFINITION, InputTypeStack => true
  | (ARGUMENT | LIST | OBJECT_FIELD), (DefaultValueStack | InputTypeStack) =>
      true
  | _, _ => false
  end.

(** [new] is [old] with one entry pushed, when [b], and [old] otherwise. *)
Definition pushed {A} (b : bool) (old new : list A) : Prop :=
  if b then exists x, new = old ++ [x] else new = old.

(** [new] is [old] with its top entry popped, when [b], and [old]
    otherwise. *)
Definition popped {A} (b : bool) (old new : list A) : Prop :=
  new = if b then removelast old else old.

(** The top of a stack, and the entry under it. *)
Definition top {A} (stack : list (JsOpt A)) : JsOpt A :=
  default undefined (last stack).
Definition second {A} (stack : list (JsOpt A)) : JsOpt A :=
  default undefined (reverse stack !! 1).

(** ** Observing the calls that the visitor of [visitWithTypeInfo] makes *)

Inductive TypeInfoCall : Type :=
| CallTypeInfoEnter (node : ASTNode)    (* typeInfo.enter(node) *)
| CallTypeInfoLeave (node : ASTNode)    (* typeInfo.leave(node) *)
| CallVisitorEnter (node : ASTNode)     (* the wrapped visitor's enter *)
| CallVisitorLeave (node : ASTNode).    (* the wrapped visitor's leave *)

Section ObservedVisit.
Context `{TS : TypeSystem} {U : Type}.

(** A program state made of a [TypeInfo] instance, the state [U] of the
    wrapped visitor and the calls made so far. *)
Record Observed : Type := mkObserved {
  obs_typeInfo : TypeInfo;
  obs_visitor : U;
  obs_calls : list TypeInfoCall }.

(** The [TypeInfo] instance of that state, whose methods also record that
    they are called. *)
Definition observed_typeInfo : TypeInfoObject Observed :=
  {| typeInfo_enter := fun node w =>
       mkObserved (enter node (obs_typeInfo w)) (obs_visitor w)
         (JsArray.push (obs_calls w) (CallTypeInfoEnter node));
     typeInfo_leave := fun node w =>
       mkObserved (leave node (obs_typeInfo w)) (obs_visitor w)
         (JsArray.push (obs_calls w) (CallTypeInfoLeave node)) |}.

(** The functions of a wrapped visitor read the [TypeInfo] instance and
    act on their own state. *)
Definition UserFns : Type :=
  Kind -> bool -> option (ASTNode -> TypeInfo -> U -> VisitResult * U).

(** The visitor made of these functions, which also record that they are
    called. *)
Definition observed_visitor (fns : UserFns) : Visitor Observed :=
  {| getVisitFn := fun kind isLeaving =>
       (fun fn node w =>
          let '(result, u) := fn node (obs_typeInfo w) (obs_visitor w) in
          (result,
           mkObserved (obs_typeInfo w) u
             (JsArray.push (obs_calls w)
                (if isLeaving then CallVisitorLeave node
                 else CallVisitorEnter node))))
       <$> fns kind isLeaving |}.

(** Calling [visitor.enter(node)] or [visitor.leave(node)] on a visitor
    of the shape [{ enter, leave }]. *)
Definition call_visitor {W} (visitor : Visitor W) (isLeaving : bool)
    (node : ASTNode) (w : W) : VisitResult * W :=
  match getVisitFn visitor (kind node) isLeaving with
  | Some fn => fn node w
  | None => (RUndefined, w)
  end.

End ObservedVisit.
Arguments Observed {TS} U.

(** ** What the two rules are expected to report *)

(** The name by which a definition that is not executable is reported. *)
Definition spec_definition_name (t : TypeSystemNode) : string :=
  match t with
  | SchemaDefinition | SchemaExtension => "schema"
  | NamedTypeSystem _ name => quoted (value name)
  end.

(** One error for each definition that is neither an operation nor a
    fragment definition, in the order of the document. *)
Definition spec_not_executable (defs : list DefinitionNode) :
    list GraphQLError :=
  omap (fun d =>
          match d with
          | DTypeSystem t =>
              Some (mkGraphQLError
                      ("The " ++ spec_definition_name t
                       ++ " definition is not executable.")
                      (NDefinition d))
          | _ => None
          end) defs.

(** Whether a definition is an operation or a fragment definition. *)
Definition is_operation_or_fragment (d : DefinitionNode) : bool :=
  match d with DOperation _ | DFragment _ => true | DTypeSystem _ => false end.

(** ** Sources and consumers of [mapAsyncIterator] used in the statements *)

Module MapAsyncIteratorSpec.
Import MapAsyncIterator.

Section Yields.
Context {Err St T R : Type}.

(** From the state [s], successive calls of [next] on the source yield
    the values [vs], in this order, and then the done result with the
    value [r], which leaves the state [s']. *)
Inductive yields (it : AsyncIterator Err St T R) :
    St -> list T -> JsOpt R -> St -> Prop :=
| yields_done s r s' :
    next it s = (Fulfilled (Done r), s') -> yields it s [] r s'
| yields_value s v s1 vs r s' :
    next it s = (Fulfilled (Yielded v), s1) ->
    yields it s1 vs r s' ->
    yields it s (v :: vs) r s'.

(** How often the source's [return] was called. *)
Definition closings (calls : list Call) : nat :=
  length (filter (fun c => c = CallReturn) calls).
End Yields.

(** A source in the manner of an async generator that counts upwards from
    its position to [limit]: its state is the position and whether it
    was closed; [return] closes it. *)
Definition counter (limit : nat) :
    AsyncIterator string (nat * bool) nat unit :=
  {| next := fun '(position, closed) =>
       if closed || (limit <=? position)
       then (Fulfilled (Done undefined), (position, closed))
       else (Fulfilled (Yielded position), (S position, closed));
     return_ := Some (fun '(position, _) =>
       (Fulfilled (Done undefined), (position, true)));
     throw := None |}.

End MapAsyncIteratorSpec.

(** ** Fragment spreads and referenced fragments, declaratively *)

Module FragmentsSpec.
Import ValidationContext.

(** [selection.selectionSet], for a selection that is not a spread. *)
Definition child_set (selection : SelectionNode) :
    option SelectionSetNode :=
  match selection with
  | SField f => field_selectionSet f
  | SFragmentSpread _ => None
  | SInlineFragment f => Some (if_selectionSet f)
  end.

Definition spread_of (selection : SelectionNode) :
    option FragmentSpreadNode :=
  match selection with SFragmentSpread f => Some f | _ => None end.

(** The number of selection sets in a selection set, itself included. *)
Fixpoint ss_size (s : SelectionSetNode) : nat :=
  match s with
  | SelectionSet selections => S (list_sum (map sel_size selections))
  end
with sel_size (selection : SelectionNode) : nat :=
  match selection with
  | SField (Field _ _ _ _ (Some s)) => ss_size s
  | SInlineFragment (InlineFragment _ _ s) => ss_size s
  | _ => 0
  end.

(** The spreads of a selection set in the depth-first order of the tree
    of selection sets in which a set gives its own spreads first, in the
    order of its selections, and its nested sets follow from the last to
    the first. *)
Fixpoint spreads_depth_first (s : SelectionSetNode) :
    list FragmentSpreadNode :=
  match s with
  | SelectionSet selections =>
      omap spread_of selections
      ++ mjoin (reverse (spreads_under <$> selections))
  end
with spreads_under (selection : SelectionNode) : list FragmentSpreadNode :=
  match selection with
  | SField (Field _ _ _ _ (Some s)) => spreads_depth_first s
  | SInlineFragment (InlineFragment _ _ s) => spreads_depth_first s
  | _ => []
  end.

(** The spreads of a selection set in the order of the document. *)
Fixpoint spreads_in_order (s : SelectionSetNode) :
    list FragmentSpreadNode :=
  match s with
  | SelectionSet selections => mjoin (spreads_of_selection <$> selections)
  end
with spreads_of_selection (selection : SelectionNode) :
    list FragmentSpreadNode :=
  match selection with
  | SFragmentSpread f => [f]
  | SField (Field _ _ _ _ (Some s)) => spreads_in_order s
  | SInlineFragment (InlineFragment _ _ s) => spreads_in_order s
  | _ => []
  end.

(** A spread is nested under a selection set when it is one of its
    selections or is nested under the selection set of one of them.
    Fragment definitions are not entered. *)
Inductive nested_spread : SelectionSetNode -> FragmentSpreadNode -> Prop :=
| nested_here s f :
    SFragmentSpread f ∈ selections s -> nested_spread s f
| nested_below s selection s' f :
    selection ∈ selections s ->
    child_set selection = Some s' ->
    nested_spread s' f ->
    nested_spread s f.

(** The fragment definitions of a document, in its order. *)
Definition fragment_definitions (defs : list DefinitionNode) :
    list FragmentDefinitionNode :=
  omap (fun d => match d with DFragment f => Some f | _ => None end) defs.

(** The fragment of a document that a name stands for: the fragment
    definition of the document that has this name, the last one should
    the document have several, and none when it has no fragment of this
    name. *)
Definition fragment_named (defs : list DefinitionNode) (name : string) :
    option FragmentDefinitionNode :=
  last (filter (fun f => value (fd_name f) = name)
          (fragment_definitions defs)).

(** A fragment definition is reachable from a selection set when a
    spread nested under the set names it, or names a fragment from whose
    selection set it is reachable. A spread names the fragment of the
    document that its name stands for. *)
Inductive reachable (defs : list DefinitionNode) :
    SelectionSetNode -> FragmentDefinitionNode -> Prop :=
| reachable_spread s spread f :
    nested_spread s spread ->
    fragment_named defs (value (fs_name spread)) = Some f ->
    reachable defs s f
| reachable_trans s f g :
    reachable defs s f ->
    reachable defs (fd_selectionSet f) g ->
    reachable defs s g.

(** The loops of [getRecursivelyReferencedFragments] without the caches:
    [fm] is what [getFragment] looks names up in, and the spreads of a
    selection set are those that [getFragmentSpreads] returns. *)
Definition Pure : Type :=
  gmap string bool * list FragmentDefinitionNode * list SelectionSetNode.

Definition pure_spread (fm : gmap string FragmentDefinitionNode)
    (st : Pure) (spread : FragmentSpreadNode) : Pure :=
  let '(names, frags, stack) := st in
  let fragName := value (fs_name spread) in
  if bool_decide (names !! fragName = Some true) then st
  else
    match fm !! fragName with
    | Some fragment =>
        (<[fragName := true]> names, frags ++ [fragment],
         stack ++ [fd_selectionSet fragment])
    | None => (<[fragName := true]> names, frags, stack)
    end.

Fixpoint pure_fragments (fuel : nat)
    (fm : gmap string FragmentDefinitionNode) (st : Pure) : option Pure :=
  let '(names, frags, stack) := st in
  match JsArray.pop stack with
  | (None, _) => Some st
  | (Some node, stack) =>
      match fuel with
      | 0 => None
      | S fuel =>
          pure_fragments fuel fm
            (fold_left (pure_spread fm) (spreads_depth_first node)
               (names, frags, stack))
      end
  end.

(** Fuel that suffices for every loop on a document and an operation. *)
Definition def_size (d : DefinitionNode) : nat :=
  match d with
  | DFragment f => ss_size (fd_selectionSet f)
  | _ => 0
  end.

Definition doc_fuel (doc : DocumentNode)
    (operation : OperationDefinitionNode) : nat :=
  S (length (definitions doc))
  + ss_size (op_selectionSet operation)
  + list_sum (map def_size (definitions doc)).

(** The fragments that an operation references, in the order in which
    the loops find them. *)
Definition referenced_fragments (doc : DocumentNode)
    (operation : OperationDefinitionNode) : list FragmentDefinitionNode :=
  match pure_fragments (doc_fuel doc operation)
          (fragments_by_name (definitions doc))
          (∅, [], [op_selectionSet operation])
  with
  | Some (_, frags, _) => frags
  | None => []
  end.

(** The caches of a context hold what the methods compute. *)
Definition cache_ok (this : ASTValidationContext) : Prop :=
  (forall fragments, _fragments this = Some fragments ->
     fragments = fragments_by_name (definitions (_ast this)))
  /\ (forall k v, (k, v) ∈ _fragmentSpreads this ->
        v = spreads_depth_first k)
  /\ (forall k v, (k, v) ∈ _recursivelyReferencedFragments this ->
        v = referenced_fragments (_ast this) k).

(** The same context but for its caches. *)
Definition same_but_caches (this this' : ASTValidationContext) : Prop :=
  _ast this' = _ast this /\ reported this' = reported this.

End FragmentsSpec.

(** ** Invariants of the loops of [getRecursivelyReferencedFragments] *)

Module FragmentsInv.
Import ValidationContext FragmentsSpec.

Definition name_of (f : FragmentDefinitionNode) : string :=
  value (fd_name f).

Section Inv.
Variable defs : list DefinitionNode.
Variable s0 : SelectionSetNode.

(** The selection sets that the loop visits: that of the operation and
    those of the fragments found. *)
Definition visited_set (frags : list FragmentDefinitionNode)
    (s : SelectionSetNode) : Prop :=
  s = s0 \/ exists f, f ∈ frags /\ s = fd_selectionSet f.

(** Every spread of [s] has had its name collected. *)
Definition closed (names : gmap string bool) (s : SelectionSetNode) :
    Prop :=
  forall spread, spread ∈ spreads_depth_first s ->
    names !! value (fs_name spread) = Some true.

(** The invariant of the inner loop, which runs over the spreads of
    [node], of which [pending] are still to come. For the outer loop,
    [pending] is empty and [node] is any set already dealt with. *)
Record inv (node : SelectionSetNode) (pending : list FragmentSpreadNode)
    (st : Pure) : Prop := mkInv {
  inv_frags : forall f, f ∈ st.1.2 ->
    fragments_by_name defs !! name_of f = Some f
    /\ st.1.1 !! name_of f = Some true
    /\ reachable defs s0 f;
  inv_names : forall n f,
    st.1.1 !! n = Some true -> fragments_by_name defs !! n = Some f ->
    f ∈ st.1.2;
  inv_nodup : NoDup (name_of <$> st.1.2);
  inv_stack : forall s, s ∈ st.2 -> visited_set st.1.2 s;
  inv_closed : forall s, visited_set st.1.2 s ->
    s ∈ st.2 \/ closed st.1.1 s
    \/ (s = node /\ forall spread, spread ∈ spreads_depth_first node ->
          spread ∈ pending
          \/ st.1.1 !! value (fs_name spread) = Some true);
  inv_node : visited_set st.1.2 node;
  inv_pending : forall spread, spread ∈ pending ->
    spread ∈ spreads_depth_first node }.
End Inv.

(** The sets that the loop is to visit are no larger than [bound]. *)
Definition sizes_ok (bound : nat) (stack : list SelectionSetNode) : Prop :=
  Forall (fun s => ss_size s <= bound) stack.

(** A loop state with its context put aside, and back. *)
Definition pure_of (st : Collecting) : Pure :=
  (collectedNames st, fragments st, nodesToVisit st).
Definition with_context (this : ASTValidationContext) (st : Pure) :
    Collecting :=
  mkCollecting this st.1.1 st.1.2 st.2.

End FragmentsInv.

(** ** A document for the examples

    [query { a { ...B } ...A }] with
    [fragment A on T { ...B }], [fragment B on T { ...A x { ...C } }],
    [fragment C on T { y }] and [fragment D on T { z }]: the fragments [A]
    and [B] spread one another, and nothing spreads [D]. *)
Module Demo.

Definition leaf (name : string) : SelectionNode :=
  SField (Field None (Name name) [] [] None).
Definition spread (name : string) : FragmentSpreadNode :=
  FragmentSpread (Name name) [].
Definition fragment (name : string) (selections : list SelectionNode) :
    FragmentDefinitionNode :=
  FragmentDefinition (Name name) [] (NamedType (Name "T")) []
    (SelectionSet selections).

Definition operation_set : SelectionSetNode :=
  SelectionSet
    [SField (Field None (Name "a") [] []
               (Some (SelectionSet [SFragmentSpread (spread "B")])));
     SFragmentSpread (spread "A")].

Definition operation : OperationDefinitionNode :=
  OperationDefinition query None [] [] operation_set.

Definition A : FragmentDefinitionNode :=
  fragment "A" [SFragmentSpread (spread "B")].
Definition B : FragmentDefinitionNode :=
  fragment "B"
    [SFragmentSpread (spread "A");
     SField (Field None (Name "x") [] []
               (Some (SelectionSet [SFragmentSpread (spread "C")])))].
Definition C : FragmentDefinitionNode := fragment "C" [leaf "y"].
Definition D : FragmentDefinitionNode := fragment "D" [leaf "z"].

Definition document : DocumentNode :=
  Document [DOperation operation; DFragment A; DFragment B; DFragment C;
            DFragment D].

End Demo.

(** ** The variables of a node, with the TypeInfo at their positions *)

Module UsagesSpec.
Import ValidationContext.

Section Positions.
Context `{TS : TypeSystem}.

(** A variable and the state of a [TypeInfo] at its position. *)
Definition Position : Type := VariableNode * TypeInfo.

(** The functions below take the state of a [TypeInfo] that has entered
    the ancestors of a node, from the root down, and list the [Variable]
    leaves under the node, in the order of the document, each with the
    state of a [TypeInfo] that has also entered the nodes from that
    node down to the leaf. Variable definitions are not part of these
    lists: no function enters one. *)
Fixpoint positions_Value (typeInfo : TypeInfo) (v : ValueNode) :
    list Position :=
  let typeInfo := enter (NValue v) typeInfo in
  match v with
  | VVariable x => [(x, typeInfo)]
  | ListValue values => mjoin (positions_Value typeInfo <$> values)
  | ObjectValue fields => mjoin (positions_ObjectField typeInfo <$> fields)
  | _ => []
  end
with positions_ObjectField (typeInfo : TypeInfo) (f : ObjectFieldNode) :
    list Position :=
  match f with
  | ObjectField _ v => positions_Value (enter (NObjectField f) typeInfo) v
  end.

Definition positions_Argument (typeInfo : TypeInfo) (a : ArgumentNode) :
    list Position :=
  positions_Value (enter (NArgument a) typeInfo) (arg_value a).

Definition positions_Directive (typeInfo : TypeInfo) (d : DirectiveNode) :
    list Position :=
  mjoin (positions_Argument (enter (NDirective d) typeInfo)
           <$> dir_arguments d).

Fixpoint positions_SelectionSet (typeInfo : TypeInfo)
    (s : SelectionSetNode) : list Position :=
  match s with
  | SelectionSet selections =>
      mjoin (positions_Selection (enter (NSelectionSet s) typeInfo)
               <$> selections)
  end
with positions_Selection (typeInfo : TypeInfo) (s : SelectionNode) :
    list Position :=
  let typeInfo := enter (NSelection s) typeInfo in
  match s with
  | SField (Field _ _ arguments directives selectionSet) =>
      mjoin (positions_Argument typeInfo <$> arguments)
      ++ mjoin (positions_Directive typeInfo <$> directives)
      ++ match selectionSet with
         | Some ss => positions_SelectionSet typeInfo ss
         | None => []
         end
  | SFragmentSpread f =>
      mjoin (positions_Directive typeInfo <$> fs_directives f)
  | SInlineFragment (InlineFragment _ directives selectionSet) =>
      mjoin (positions_Directive typeInfo <$> directives)
      ++ positions_SelectionSet typeInfo selectionSet
  end.

Definition positions (typeInfo : TypeInfo) (node : NodeWithSelectionSet) :
    list Position :=
  match node with
  | WOperation o =>
      let typeInfo := enter (NDefinition (DOperation o)) typeInfo in
      mjoin (positions_Directive typeInfo <$> op_directives o)
      ++ positions_SelectionSet typeInfo (op_selectionSet o)
  | WFragment f =>
      let typeInfo := enter (NDefinition (DFragment f)) typeInfo in
      mjoin (positions_Directive typeInfo <$> fd_directives f)
      ++ positions_SelectionSet typeInfo (fd_selectionSet f)
  end.

(** The usage recorded at a position. *)
Definition usage_at (p : Position) : VariableUsage :=
  mkVariableUsage _ p.1 (getInputType p.2) (getDefaultValue p.2).

(** The usages of a node, for a schema. *)
Definition spec_usages (schema : GraphQLSchema)
    (node : NodeWithSelectionSet) : list VariableUsage :=
  usage_at <$> positions (newTypeInfo schema None None) node.

(** The cache of variable usages holds what [getVariableUsages]
    computes. *)
Definition usages_cache_ok (this : ValidationContext) : Prop :=
  forall k v, (k, v) ∈ _variableUsages this ->
    v = spec_usages (ValidationContext._schema this) k.

(** The three slots of a [TypeInfo] hold [null]. *)
Definition slots_null (typeInfo : TypeInfo) : Prop :=
  _directive typeInfo = null /\ _argument typeInfo = null
  /\ _enumValue typeInfo = null.

(** The walk of [getVariableUsages]. *)
Definition usage_walker : Visitor UsageWalk :=
  visitWithTypeInfo usage_typeInfo usage_visitor.

(** From any usages collected so far, a step of the walk completes,
    leaves the [TypeInfo] as it found it and adds the usages at the
    given positions. *)
Definition adds (step : @Step UsageWalk) (typeInfo : TypeInfo)
    (ps : list Position) : Prop :=
  forall usages,
    step (typeInfo, usages)
    = (Completed, (typeInfo, usages ++ (usage_at <$> ps))).

End Positions.
End UsagesSpec.

(** ** A type system for the examples

    [type Query { f(arg: [Int]): Int }] with the scalars [Int] and
    [Boolean] and the directive [@skip(if: Boolean!)]. *)
Module DemoSchema.

Inductive DemoType : Type :=
| DInt | DBoolean | DQuery
| DList (item : DemoType)
| DNonNull (inner : DemoType).

#[global] Instance DemoType_eq_dec : EqDecision DemoType.
Proof. solve_decision. Defined.

Record DemoArgument : Type := {
  da_name : string; da_type : DemoType; da_default : JsOpt nat }.
Record DemoField : Type := {
  df_name : string; df_type : DemoType; df_args : list DemoArgument }.
Record DemoDirective : Type := {
  dd_name : string; dd_args : list DemoArgument }.

Fixpoint named (t : DemoType) : DemoType :=
  match t with DList t | DNonNull t => named t | _ => t end.

Definition is_named (p : DemoType -> bool) (x : JsOpt DemoType) : bool :=
  match x with Just t => p (named t) | _ => false end.

Definition f_field : DemoField :=
  {| df_name := "f"; df_type := DInt;
     df_args := [{| da_name := "arg"; da_type := DList DInt;
                    da_default := undefined |}] |}.

Definition skip : DemoDirective :=
  {| dd_name := "skip";
     dd_args := [{| da_name := "if"; da_type := DNonNull DBoolean;
                    da_default := undefined |}] |}.

Fixpoint demo_typeFromAST (t : TypeNode) : JsOpt DemoType :=
  match t with
  | TNamed n =>
      if String.eqb (value (nt_name n)) "Int" then Just DInt
      else if String.eqb (value (nt_name n)) "Boolean" then Just DBoolean
      else if String.eqb (value (nt_name n)) "Query" then Just DQuery
      else undefined
  | ListType t => JsOpt_map DList (demo_typeFromAST t)
  | NonNullType t => JsOpt_map DNonNull (demo_typeFromAST t)
  end.

Fixpoint demo_print (t : TypeNode) : string :=
  match t with
  | TNamed n => value (nt_name n)
  | ListType t => "[" ++ demo_print t ++ "]"
  | NonNullType t => demo_print t ++ "!"
  end.

#[global] Instance demo : TypeSystem := {|
  GraphQLSchema := unit;
  GraphQLType := DemoType;
  GraphQLField := DemoField;
  GraphQLArgument := DemoArgument;
  GraphQLInputField := DemoArgument;
  GraphQLDirective := DemoDirective;
  GraphQLEnumValue := unit;
  JsValue := nat;
  isObjectType := fun x => match x with Just DQuery => true | _ => false end;
  isInterfaceType := fun _ => false;
  isEnumType := fun _ => false;
  isInputObjectType := fun _ => false;
  isListType := fun x => match x with Just (DList _) => true | _ => false end;
  isCompositeType :=
    fun x => match x with Just DQuery => true | _ => false end;
  isInputType :=
    is_named (fun t => match t with DQuery => false | _ => true end);
  isOutputType := is_named (fun _ => true);
  getNullableType := fun x =>
    match x with
    | Just (DNonNull t) => Just t
    | Just t => Just t
    | _ => undefined
    end;
  getNamedType := fun x =>
    match x with Just t => Just (named t) | _ => undefined end;
  ofType := fun t =>
    match t with DList t | DNonNull t => Just t | _ => undefined end;
  getFields := fun t name =>
    match t with
    | DQuery => if String.eqb name "f" then Just f_field else undefined
    | _ => undefined
    end;
  getInputFields := fun _ _ => undefined;
  getValue := fun _ _ => undefined;
  fieldName := df_name;
  fieldType := fun f => Just (df_type f);
  fieldArgs := df_args;
  directiveArgs := dd_args;
  argName := da_name;
  argType := fun a => Just (da_type a);
  argDefaultValue := da_default;
  inputFieldType := fun a => Just (da_type a);
  inputFieldDefaultValue := da_default;
  getQueryType := fun _ => Just DQuery;
  getMutationType := fun _ => undefined;
  getSubscriptionType := fun _ => undefined;
  getDirective := fun _ name =>
    if String.eqb name "skip" then Just skip else undefined;
  SchemaMetaFieldDef :=
    {| df_name := "__schema"; df_type := DNonNull DQuery; df_args := [] |};
  TypeMetaFieldDef :=
    {| df_name := "__type"; df_type := DQuery; df_args := [] |};
  TypeNameMetaFieldDef :=
    {| df_name := "__typename"; df_type := DNonNull DInt; df_args := [] |};
  typeFromAST := fun _ => demo_typeFromAST;
  print := demo_print
|}.

Definition v : VariableNode := MkVariable (Name "v").
Definition s : VariableNode := MkVariable (Name "s").

(** [query ($v: Int, $s: Boolean!, $q: Query)
     { f(arg: [$v, 1]) @skip(if: $s) }] *)
Definition operation : OperationDefinitionNode :=
  OperationDefinition query None
    [VariableDefinition v (TNamed (NamedType (Name "Int"))) None [];
     VariableDefinition s
       (NonNullType (TNamed (NamedType (Name "Boolean")))) None [];
     VariableDefinition (MkVariable (Name "q"))
       (TNamed (NamedType (Name "Query"))) None []]
    []
    (SelectionSet
       [SField
          (Field None (Name "f")
             [Argument (Name "arg")
                (ListValue [VVariable v; IntValue "1"])]
             [Directive (Name "skip") [Argument (Name "if") (VVariable s)]]
             None)]).

Definition document : DocumentNode := Document [DOperation operation].

Definition context : ValidationContext.ValidationContext :=
  ValidationContext.newValidationContext tt document
    (newTypeInfo tt None None).

End DemoSchema.


(* ===================================================================== *)
(** * Further definitions *)
(* ===================================================================== *)

(** ** The slot of a [TypeInfo] that the kind of a node sets *)

Section Slots.
Context `{TS : TypeSystem}.

(** [enter] sets [_directive] on a directive, [_argument] on an argument
    and [_enumValue] on an enum value, and [leave] stores [null] there.
    The slot that the kind of [node] sets, if any, holds [null]. *)
Definition slot_is_null (node : ASTNode) (this : TypeInfo) : Prop :=
  match kind node with
  | DIRECTIVE => _directive this = null
  | ARGUMENT => _argument this = null
  | ENUM => _enumValue this = null
  | _ => True
  end.

(** The five stacks of a [TypeInfo]. *)
Definition stacks (this : TypeInfo) :=
  (_typeStack this, _parentTypeStack this, _inputTypeStack this,
   _fieldDefStack this, _defaultValueStack this).

End Slots.

(** ** validation/ValidationContext: [getRecursiveVariableUsages] *)

Module ValidationContextExtra.
Import ValidationContext FragmentsSpec UsagesSpec.

Section WithSchema.
Context `{TS : TypeSystem}.

(** The inherited methods act on the fields of [super]. *)
Definition set_super (super' : ASTValidationContext)
    (this : ValidationContext) : ValidationContext :=
  mkValidationContext super' (ValidationContext._schema this)
    (_typeInfo this) (_variableUsages this)
    (_recursiveVariableUsages this).

(** The body of the [for] loop of [getRecursiveVariableUsages]:
    [usages = usages.concat(this.getVariableUsages(frag))]. *)
Definition concat_usages
    (acc : list VariableUsage * ValidationContext)
    (frag : FragmentDefinitionNode) :
    list VariableUsage * ValidationContext :=
  let '(usages, this) := acc in
  let '(more, this) := getVariableUsages (WFragment frag) this in
  (usages ++ more, this).

(** [getRecursiveVariableUsages(operation)]; [fuel] is that of
    [getRecursivelyReferencedFragments]. *)
Definition getRecursiveVariableUsages (fuel : nat)
    (operation : OperationDefinitionNode) (this : ValidationContext) :
    option (list VariableUsage * ValidationContext) :=
  match JsMap.get operation (_recursiveVariableUsages this) with
  | Some usages => Some (usages, this)
  | None =>
      let '(usages, this) :=
        getVariableUsages (WOperation operation) this in
      '(frags, super') ←
        getRecursivelyReferencedFragments fuel operation (super this);
      let this := set_super super' this in
      let '(usages, this) :=
        fold_left concat_usages frags (usages, this) in
      Some (usages,
            mkValidationContext (super this)
              (ValidationContext._schema this) (_typeInfo this)
              (_variableUsages this)
              (JsMap.set operation usages
                 (_recursiveVariableUsages this)))
  end.

(** The usages of an operation and of the fragments it references. *)
Definition spec_recursive_usages (schema : GraphQLSchema)
    (doc : DocumentNode) (operation : OperationDefinitionNode) :
    list VariableUsage :=
  spec_usages schema (WOperation operation)
  ++ mjoin ((fun f => spec_usages schema (WFragment f))
              <$> referenced_fragments doc operation).

(** The three caches of a [ValidationContext] and those of its [super]
    hold what the methods compute. *)
Definition context_ok (this : ValidationContext) : Prop :=
  cache_ok (super this)
  /\ usages_cache_ok this
  /\ forall k v, (k, v) ∈ _recursiveVariableUsages this ->
       v = spec_recursive_usages (ValidationContext._schema this)
             (_ast (super this)) k.

End WithSchema.
End ValidationContextExtra.

(** An operation that spreads a fragment twice. *)
Module DemoUsages.
Import DemoSchema.

(** [fragment F on Query { f @skip(if: $s) }] *)
Definition F : FragmentDefinitionNode :=
  FragmentDefinition (Name "F") [] (NamedType (Name "Query")) []
    (SelectionSet
       [SField
          (Field None (Name "f") []
             [Directive (Name "skip") [Argument (Name "if") (VVariable s)]]
             None)]).

(** [query ($v: Int) { f(arg: [$v]) ...F ...F }] *)
Definition operation : OperationDefinitionNode :=
  OperationDefinition query None
    [VariableDefinition v (TNamed (NamedType (Name "Int"))) None []]
    []
    (SelectionSet
       [SField
          (Field None (Name "f")
             [Argument (Name "arg") (ListValue [VVariable v])] [] None);
        SFragmentSpread (FragmentSpread (Name "F") []);
        SFragmentSpread (FragmentSpread (Name "F") [])]).

Definition document : DocumentNode :=
  Document [DOperation operation; DFragment F].

Definition context : ValidationContext.ValidationContext :=
  ValidationContext.newValidationContext tt document
    (newTypeInfo tt None None).

End DemoUsages.

(** ** utilities/concatAST *)

(** [concatAST(documents)] *)
Definition concatAST (documents : list DocumentNode) : DocumentNode :=
  let definitions_ :=
    fold_left (fun definitions_ doc => definitions_ ++ definitions doc)
      documents [] in
  Document definitions_.

(** ** jsutils/memoize3 *)

(** The arguments of a memoized function are objects, and the [WeakMap]s
    compare them by identity: the types [A1], [A2] and [A3] are those of
    the identities.  The function [fn] acts on a world [W], which the
    memoized function passes on; it does not call the memoized function
    itself.  The closure variable [cache0] is [None] until the first
    call. *)
Module Memoize3.
Section Memoize3.
Context {A1 A2 A3 V W : Type}
  `{EqDecision A1, EqDecision A2, EqDecision A3}.

Definition Cache2 : Type := JsMap.t A3 (JsOpt V).
Definition Cache1 : Type := JsMap.t A2 Cache2.
Definition Cache0 : Type := JsMap.t A1 Cache1.
Definition State : Type := option Cache0 * W.

(** [x !== undefined] *)
Definition defined (x : JsOpt V) : bool :=
  match x with undefined => false | _ => true end.

(** The function [memoized] that [memoize3(fn)] returns.  The maps are
    objects: [cache1] is the map held by [cache0] and [cache2] the one
    held by [cache1], whether found or just created, so that the
    [set]s of the code update them in place; here the updated maps
    are put back. *)
Definition memoized (fn : A1 -> A2 -> A3 -> W -> JsOpt V * W)
    (a1 : A1) (a2 : A2) (a3 : A3) (st : State) : JsOpt V * State :=
  let '(cache0, w) := st in
  let cache0 := default [] cache0 in
  let cache1 := JsMap.get a1 cache0 in
  let cache2 :=
    match cache1 with
    | Some cache1 => JsMap.get a2 cache1
    | None => None
    end in
  let cachedValue :=
    match cache2 with
    | Some cache2 => default undefined (JsMap.get a3 cache2)
    | None => undefined
    end in
  if defined cachedValue then (cachedValue, (Some cache0, w))
  else
    let cache1 := default [] cache1 in
    let cache2 := default [] cache2 in
    let '(newValue, w) := fn a1 a2 a3 w in
    let cache2 := JsMap.set a3 newValue cache2 in
    let cache1 := JsMap.set a2 cache2 cache1 in
    let cache0 := JsMap.set a1 cache1 cache0 in
    (newValue, (Some cache0, w)).

(** A sequence of calls of the memoized function. *)
Fixpoint run (fn : A1 -> A2 -> A3 -> W -> JsOpt V * W)
    (calls : list (A1 * A2 * A3)) (st : State) :
    list (JsOpt V) * State :=
  match calls with
  | [] => ([], st)
  | (a1, a2, a3) :: calls =>
      let '(r, st) := memoized fn a1 a2 a3 st in
      let '(rs, st) := run fn calls st in
      (r :: rs, st)
  end.

(** What the maps hold for three arguments; [undefined] when a map is
    missing or has no entry. *)
Definition stored (cache0 : option Cache0) (c : A1 * A2 * A3) :
    JsOpt V :=
  let '(a1, a2, a3) := c in
  match cache0 with
  | Some cache0 =>
      match JsMap.get a1 cache0 with
      | Some cache1 =>
          match JsMap.get a2 cache1 with
          | Some cache2 => default undefined (JsMap.get a3 cache2)
          | None => undefined
          end
      | None => undefined
      end
  | None => undefined
  end.

End Memoize3.

(** A function without effects that records the arguments of its
    calls. *)
Definition logging {A1 A2 A3 V} (f : A1 -> A2 -> A3 -> JsOpt V)
    (a1 : A1) (a2 : A2) (a3 : A3) (log : list (A1 * A2 * A3)) :
    JsOpt V * list (A1 * A2 * A3) :=
  (f a1 a2 a3, log ++ [(a1, a2, a3)]).

(** A function whose first call returns [undefined]; the world counts
    the calls. *)
Definition late (a1 a2 a3 w : nat) : JsOpt nat * nat :=
  (if w =? 0 then undefined else Just (a1 + a2 + a3 + w), S w).

End Memoize3.

(** ** type/scalars *)

From stdpp Require pretty.

Module Scalars.

(** The finite numbers that are not integers, each with the largest
    integer below it. *)
Class Doubles : Type := { Fractional : Type; floor : Fractional -> Z }.

Section Scalars.
Context `{D : Doubles}.

(** A JavaScript number.  A finite number that is an integer is given
    by its value (not every integer is a number); [-0] is apart. *)
Inductive JsNumber : Type :=
| NaN
| Infinity (negative : bool)
| NegativeZero
| Integer (z : Z)
| NonInteger (x : Fractional).

(** A value of type [unknown].  An object is given by what its
    [valueOf] and [toJSON] return, [None] when the property is not a
    function; the two methods have no effect and do not throw. *)
Inductive Unknown : Type :=
| VUndefined
| VNull
| VBoolean (b : bool)
| VNumber (n : JsNumber)
| VString (s : string)
| VObject (valueOf toJSON : option Unknown)
| VFunction
| VSymbol
| VBigInt (z : Z).

(** The functions of the language and of other modules that the
    scalars call: [Number(s)], the conversion of a number to a
    string, [inspect], [parseInt(s, 10)], [parseFloat] and [print]. *)
Class Runtime : Type := {
  Number_ : string -> JsNumber;
  Number_toString : JsNumber -> string;
  inspect : Unknown -> string;
  parseInt : string -> JsNumber;
  parseFloat : string -> JsNumber;
  print : ValueNode -> string }.

Context `{RT : Runtime}.

(** A result, or the message and the node of the [GraphQLError] that
    is thrown. *)
Definition Result (A : Type) : Type := (string * option ValueNode) + A.

Definition throw {A} (message : string) (nodes : option ValueNode) :
    Result A :=
  inl (message, nodes).

Definition Result_map {A B} (f : A -> B) (r : Result A) : Result B :=
  match r with inl e => inl e | inr a => inr (f a) end.

Definition MAX_INT : Z := 2147483647.
Definition MIN_INT : Z := -2147483648.

(** [Number.isInteger(x)] and [Number.isFinite(x)] *)
Definition Number_isInteger (x : Unknown) : bool :=
  match x with
  | VNumber (Integer _) | VNumber NegativeZero => true
  | _ => false
  end.

Definition Number_isFinite (x : Unknown) : bool :=
  match x with
  | VNumber (Integer _) | VNumber NegativeZero
  | VNumber (NonInteger _) => true
  | _ => false
  end.

(** [num > k] and [num < k] for an integer [k] *)
Definition gt (num : JsNumber) (k : Z) : bool :=
  match num with
  | NaN => false
  | Infinity negative => negb negative
  | NegativeZero => (0 >? k)%Z
  | Integer z => (z >? k)%Z
  | NonInteger x => (floor x >=? k)%Z
  end.

Definition lt (num : JsNumber) (k : Z) : bool :=
  match num with
  | NaN => false
  | Infinity negative => negative
  | NegativeZero => (0 <? k)%Z
  | Integer z => (z <? k)%Z
  | NonInteger x => (floor x <? k)%Z
  end.

(** The numbers of the type [Int]. *)
Definition is_int32 (n : JsNumber) : Prop :=
  n = NegativeZero
  \/ exists z, n = Integer z /\ (MIN_INT <= z <= MAX_INT)%Z.

(** [num !== 0] *)
Definition not_zero (num : JsNumber) : bool :=
  match num with
  | NegativeZero => false
  | Integer z => negb (z =? 0)%Z
  | _ => true
  end.

(** [isObjectLike(value)]: [typeof value == 'object'] and not [null] *)
Definition isObjectLike (value : Unknown) : bool :=
  match value with VObject _ _ => true | _ => false end.

(** [serializeObject(outputValue)] *)
Definition serializeObject (outputValue : Unknown) : Unknown :=
  match outputValue with
  | VObject valueOf toJSON =>
      let after_valueOf :=
        match toJSON with
        | Some result => result
        | None => outputValue
        end in
      match valueOf with
      | Some valueOfResult =>
          if negb (isObjectLike valueOfResult) then valueOfResult
          else after_valueOf
      | None => after_valueOf
      end
  | _ => outputValue
  end.

(** [num] of [serializeInt] and [serializeFloat]: the number of a
    string that is not empty, the value itself otherwise. *)
Definition number_of (coercedValue : Unknown) : Unknown :=
  match coercedValue with
  | VString s =>
      if negb (String.eqb s EmptyString) then VNumber (Number_ s)
      else coercedValue
  | _ => coercedValue
  end.

Definition serializeInt (outputValue : Unknown) : Result JsNumber :=
  let coercedValue := serializeObject outputValue in
  match coercedValue with
  | VBoolean b => inr (Integer (if b then 1 else 0))
  | _ =>
      let num := number_of coercedValue in
      match num with
      | VNumber n =>
          if negb (Number_isInteger num) then
            throw ("Int cannot represent non-integer value: "
                   ++ inspect coercedValue) None
          else if gt n MAX_INT || lt n MIN_INT then
            throw ("Int cannot represent non 32-bit signed integer value: "
                   ++ inspect coercedValue) None
          else inr n
      | _ =>
          throw ("Int cannot represent non-integer value: "
                 ++ inspect coercedValue) None
      end
  end.

Definition coerceInt (inputValue : Unknown) : Result JsNumber :=
  match inputValue with
  | VNumber n =>
      if negb (Number_isInteger inputValue) then
        throw ("Int cannot represent non-integer value: "
               ++ inspect inputValue) None
      else if gt n MAX_INT || lt n MIN_INT then
        throw ("Int cannot represent non 32-bit signed integer value: "
               ++ Number_toString n) None
      else inr n
  | _ =>
      throw ("Int cannot represent non-integer value: "
             ++ inspect inputValue) None
  end.

Definition serializeFloat (outputValue : Unknown) : Result JsNumber :=
  let coercedValue := serializeObject outputValue in
  match coercedValue with
  | VBoolean b => inr (Integer (if b then 1 else 0))
  | _ =>
      let num := number_of coercedValue in
      match num with
      | VNumber n =>
          if negb (Number_isFinite num) then
            throw ("Float cannot represent non numeric value: "
                   ++ inspect coercedValue) None
          else inr n
      | _ =>
          throw ("Float cannot represent non numeric value: "
                 ++ inspect coercedValue) None
      end
  end.

Definition coerceFloat (inputValue : Unknown) : Result JsNumber :=
  match inputValue with
  | VNumber n =>
      if negb (Number_isFinite inputValue) then
        throw ("Float cannot represent non numeric value: "
               ++ inspect inputValue) None
      else inr n
  | _ =>
      throw ("Float cannot represent non numeric value: "
             ++ inspect inputValue) None
  end.

Definition serializeString (outputValue : Unknown) : Result string :=
  let coercedValue := serializeObject outputValue in
  match coercedValue with
  | VString s => inr s
  | VBoolean b => inr (if b then "true" else "false")
  | VNumber n =>
      if Number_isFinite coercedValue then inr (Number_toString n)
      else throw ("String cannot represent value: "
                  ++ inspect outputValue) None
  | _ =>
      throw ("String cannot represent value: " ++ inspect outputValue)
        None
  end.

Definition coerceString (inputValue : Unknown) : Result string :=
  match inputValue with
  | VString s => inr s
  | _ =>
      throw ("String cannot represent a non string value: "
             ++ inspect inputValue) None
  end.

Definition serializeBoolean (outputValue : Unknown) : Result bool :=
  let coercedValue := serializeObject outputValue in
  match coercedValue with
  | VBoolean b => inr b
  | VNumber n =>
      if Number_isFinite coercedValue then inr (not_zero n)
      else throw ("Boolean cannot represent a non boolean value: "
                  ++ inspect coercedValue) None
  | _ =>
      throw ("Boolean cannot represent a non boolean value: "
             ++ inspect coercedValue) None
  end.

Definition coerceBoolean (inputValue : Unknown) : Result bool :=
  match inputValue with
  | VBoolean b => inr b
  | _ =>
      throw ("Boolean cannot represent a non boolean value: "
             ++ inspect inputValue) None
  end.

Definition serializeID (outputValue : Unknown) : Result string :=
  let coercedValue := serializeObject outputValue in
  match coercedValue with
  | VString s => inr s
  | VNumber n =>
      if Number_isInteger coercedValue then inr (Number_toString n)
      else throw ("ID cannot represent value: " ++ inspect outputValue)
             None
  | _ => throw ("ID cannot represent value: " ++ inspect outputValue) None
  end.

Definition coerceID (inputValue : Unknown) : Result string :=
  match inputValue with
  | VString s => inr s
  | VNumber n =>
      if Number_isInteger inputValue then inr (Number_toString n)
      else throw ("ID cannot represent value: " ++ inspect inputValue)
             None
  | _ => throw ("ID cannot represent value: " ++ inspect inputValue) None
  end.

(** What is given to [new GraphQLScalarType]. *)
Record GraphQLScalarType : Type := {
  name : string;
  description : string;
  serialize : Unknown -> Result Unknown;
  parseValue : Unknown -> Result Unknown;
  parseLiteral : ValueNode -> Result Unknown }.

Definition GraphQLInt : GraphQLScalarType := {|
  name := "Int";
  description :=
    "The `Int` scalar type represents non-fractional signed whole numeric values. Int can represent values between -(2^31) and 2^31 - 1.";
  serialize := fun v => Result_map VNumber (serializeInt v);
  parseValue := fun v => Result_map VNumber (coerceInt v);
  parseLiteral := fun valueNode =>
    match valueNode with
    | IntValue v =>
        let num := parseInt v in
        if gt num MAX_INT || lt num MIN_INT then
          throw ("Int cannot represent non 32-bit signed integer value: "
                 ++ v) (Some valueNode)
        else inr (VNumber num)
    | _ =>
        throw ("Int cannot represent non-integer value: "
               ++ print valueNode) (Some valueNode)
    end |}.

Definition GraphQLFloat : GraphQLScalarType := {|
  name := "Float";
  description :=
    "The `Float` scalar type represents signed double-precision fractional values as specified by [IEEE 754](https://en.wikipedia.org/wiki/IEEE_floating_point).";
  serialize := fun v => Result_map VNumber (serializeFloat v);
  parseValue := fun v => Result_map VNumber (coerceFloat v);
  parseLiteral := fun valueNode =>
    match valueNode with
    | FloatValue v | IntValue v => inr (VNumber (parseFloat v))
    | _ =>
        throw ("Float cannot represent non numeric value: "
               ++ print valueNode) (Some valueNode)
    end |}.

Definition GraphQLString : GraphQLScalarType := {|
  name := "String";
  description :=
    "The `String` scalar type represents textual data, represented as UTF-8 character sequences. The String type is most often used by GraphQL to represent free-form human-readable text.";
  serialize := fun v => Result_map VString (serializeString v);
  parseValue := fun v => Result_map VString (coerceString v);
  parseLiteral := fun valueNode =>
    match valueNode with
    | StringValue v _ => inr (VString v)
    | _ =>
        throw ("String cannot represent a non string value: "
               ++ print valueNode) (Some valueNode)
    end |}.

Definition GraphQLBoolean : GraphQLScalarType := {|
  name := "Boolean";
  description := "The `Boolean` scalar type represents `true` or `false`.";
  serialize := fun v => Result_map VBoolean (serializeBoolean v);
  parseValue := fun v => Result_map VBoolean (coerceBoolean v);
  parseLiteral := fun valueNode =>
    match valueNode with
    | BooleanValue v => inr (VBoolean v)
    | _ =>
        throw ("Boolean cannot represent a non boolean value: "
               ++ print valueNode) (Some valueNode)
    end |}.

Definition GraphQLID : GraphQLScalarType := {|
  name := "ID";
  description :=
    "The `ID` scalar type represents a unique identifier, often used to refetch an object or as key for a cache. The ID type appears in a JSON response as a String; however, it is not intended to be human-readable. When expected as an input type, any string (such as `"
    ++ quoted "4"
    ++ "`) or integer (such as `4`) input value will be accepted as an ID.";
  serialize := fun v => Result_map VString (serializeID v);
  parseValue := fun v => Result_map VString (coerceID v);
  parseLiteral := fun valueNode =>
    match valueNode with
    | StringValue v _ | IntValue v => inr (VString v)
    | _ =>
        throw ("ID cannot represent a non-string and non-integer value: "
               ++ print valueNode) (Some valueNode)
    end |}.

Definition specifiedScalarTypes : list GraphQLScalarType :=
  [GraphQLString; GraphQLInt; GraphQLFloat; GraphQLBoolean; GraphQLID].

(** [isSpecifiedScalarType(type)], on the name of the type *)
Definition isSpecifiedScalarType (type_name : string) : bool :=
  existsb (fun t => String.eqb type_name (name t)) specifiedScalarTypes.

End Scalars.

(** A runtime for the examples: it has no number that is not an
    integer and knows the strings of one decimal digit. *)
Definition demo_doubles : Doubles :=
  {| Fractional := Empty_set; floor := fun x => match x with end |}.

Definition demo_digit (s : string) : @JsNumber demo_doubles :=
  match s with
  | String a EmptyString =>
      let n := nat_of_ascii a in
      if (48 <=? n) && (n <=? 57) then Integer (Z.of_nat (n - 48)) else NaN
  | _ => NaN
  end.

Definition demo_runtime : @Runtime demo_doubles :=
  {| Number_ := demo_digit;
     Number_toString := fun n =>
       match n with
       | NaN => "NaN"
       | Infinity negative => if negative then "-Infinity" else "Infinity"
       | NegativeZero => "0"
       | Integer z => pretty.pretty z
       | NonInteger x => match x with end
       end;
     inspect := fun _ => "value";
     parseInt := demo_digit;
     parseFloat := demo_digit;
     print := fun _ => "node" |}.

End Scalars.

(** ** utilities/getIntrospectionQuery *)

Module IntrospectionQuery.

(** An option is absent ([None]), [undefined] or a boolean. *)
Record IntrospectionOptions : Type := {
  descriptions : option (option bool);
  specifiedByUrl : option (option bool);
  directiveIsRepeatable : option (option bool);
  schemaDescription : option (option bool) }.

(** The truth of a property of [{ default, ...options }]: a property
    that [options] has, be it [undefined], replaces the default. *)
Definition with_default (default_ : bool)
    (options : option IntrospectionOptions)
    (property : IntrospectionOptions -> option (option bool)) : bool :=
  match options with
  | Some options =>
      match property options with
      | Some (Some b) => b
      | Some None => false
      | None => default_
      end
  | None => default_
  end.

Definition nl : string := String (ascii_of_nat 10) EmptyString.

(** [getIntrospectionQuery(options)] *)
Definition getIntrospectionQuery (options : option IntrospectionOptions) :
    string :=
  let descriptions_ :=
    if with_default true options descriptions
    then "description" else EmptyString in
  let specifiedByUrl_ :=
    if with_default false options specifiedByUrl
    then "specifiedByUrl" else EmptyString in
  let directiveIsRepeatable_ :=
    if with_default false options directiveIsRepeatable
    then "isRepeatable" else EmptyString in
  let schemaDescription_ :=
    if with_default false options schemaDescription
    then descriptions_ else EmptyString in
  (nl
    ++ "    query IntrospectionQuery {" ++ nl
    ++ "      __schema {" ++ nl
    ++ "        " ++ schemaDescription_ ++ nl
    ++ "        queryType { name }" ++ nl
    ++ "        mutationType { name }" ++ nl
    ++ "        subscriptionType { name }" ++ nl
    ++ "        types {" ++ nl
    ++ "          ...FullType" ++ nl
    ++ "        }" ++ nl
    ++ "        directives {" ++ nl
    ++ "          name" ++ nl
    ++ "          " ++ descriptions_ ++ nl
    ++ "          " ++ directiveIsRepeatable_ ++ nl
    ++ "          locations" ++ nl
    ++ "          args {" ++ nl
    ++ "            ...InputValue" ++ nl
    ++ "          }" ++ nl
    ++ "        }" ++ nl
    ++ "      }" ++ nl
    ++ "    }" ++ nl
    ++ nl
    ++ "    fragment FullType on __Type {" ++ nl
    ++ "      kind" ++ nl
    ++ "      name" ++ nl
    ++ "      " ++ descriptions_ ++ nl
    ++ "      " ++ specifiedByUrl_ ++ nl
    ++ "      fields(includeDeprecated: true) {" ++ nl
    ++ "        name" ++ nl
    ++ "        " ++ descriptions_ ++ nl
    ++ "        args {" ++ nl
    ++ "          ...InputValue" ++ nl
    ++ "        }" ++ nl
    ++ "        type {" ++ nl
    ++ "          ...TypeRef" ++ nl
    ++ "        }" ++ nl
    ++ "        isDeprecated" ++ nl
    ++ "        deprecationReason" ++ nl
    ++ "      }" ++ nl
    ++ "      inputFields {" ++ nl
    ++ "        ...InputValue" ++ nl
    ++ "      }" ++ nl
    ++ "      interfaces {" ++ nl
    ++ "        ...TypeRef" ++ nl
    ++ "      }" ++ nl
    ++ "      enumValues(includeDeprecated: true) {" ++ nl
    ++ "        name" ++ nl
    ++ "        " ++ descriptions_ ++ nl
    ++ "        isDeprecated" ++ nl
    ++ "        deprecationReason" ++ nl
    ++ "      }" ++ nl
    ++ "      possibleTypes {" ++ nl
    ++ "        ...TypeRef" ++ nl
    ++ "      }" ++ nl
    ++ "    }" ++ nl
    ++ nl
    ++ "    fragment InputValue on __InputValue {" ++ nl
    ++ "      name" ++ nl
    ++ "      " ++ descriptions_ ++ nl
    ++ "      type { ...TypeRef }" ++ nl
    ++ "      defaultValue" ++ nl
    ++ "    }" ++ nl
    ++ nl
    ++ "    fragment TypeRef on __Type {" ++ nl
    ++ "      kind" ++ nl
    ++ "      name" ++ nl
    ++ "      ofType {" ++ nl
    ++ "        kind" ++ nl
    ++ "        name" ++ nl
    ++ "        ofType {" ++ nl
    ++ "          kind" ++ nl
    ++ "          name" ++ nl
    ++ "          ofType {" ++ nl
    ++ "            kind" ++ nl
    ++ "            name" ++ nl
    ++ "            ofType {" ++ nl
    ++ "              kind" ++ nl
    ++ "              name" ++ nl
    ++ "              ofType {" ++ nl
    ++ "                kind" ++ nl
    ++ "                name" ++ nl
    ++ "                ofType {" ++ nl
    ++ "                  kind" ++ nl
    ++ "                  name" ++ nl
    ++ "                  ofType {" ++ nl
    ++ "                    kind" ++ nl
    ++ "                    name" ++ nl
    ++ "                  }" ++ nl
    ++ "                }" ++ nl
    ++ "              }" ++ nl
    ++ "            }" ++ nl
    ++ "          }" ++ nl
    ++ "        }" ++ nl
    ++ "      }" ++ nl
    ++ "    }" ++ nl
    ++ "  ")%string.

End IntrospectionQuery.

(* ===================================================================== *)
(** * Properties of arrays *)
(* ===================================================================== *)

Section JsArrayFacts.
Context {A : Type}.
Implicit Types (a : list A) (x : A).

Lemma pop_push a x : JsArray.pop (JsArray.push a x) = (Some x, a).
Proof.
  unfold JsArray.pop, JsArray.push.
  by rewrite last_snoc, removelast_last.
Qed.

Lemma pop_nil : JsArray.pop (@nil A) = (None, []).
Proof. reflexivity. Qed.

Lemma pop_None a rest : JsArray.pop a = (None, rest) -> a = [].
Proof.
  unfold JsArray.pop. intros [= Hl _].
  by apply last_None in Hl.
Qed.

Lemma pop_Some a x rest :
  JsArray.pop a = (Some x, rest) -> a = rest ++ [x].
Proof.
  unfold JsArray.pop. intros [= Hl Hr].
  apply last_Some in Hl as [l' ->].
  by rewrite removelast_last in Hr; subst.
Qed.

Lemma removelast_push a x : removelast (JsArray.push a x) = a.
Proof. apply removelast_last. Qed.

Lemma get_last (s : list (JsOpt A)) (x : JsOpt A) :
  JsArray.get (s ++ [x]) (length (s ++ [x]) - 1) = x.
Proof.
  unfold JsArray.get. rewrite length_app; simpl.
  replace (length s + 1 - 1) with (length s + 0) by lia.
  by rewrite lookup_app_r, Nat.add_0_r, Nat.sub_diag by lia.
Qed.
End JsArrayFacts.

(* ===================================================================== *)
(** * Properties of TypeInfo *)
(* ===================================================================== *)

Section TypeInfoFacts.
Context `{TS : TypeSystem}.
Implicit Types (this : TypeInfo) (node : ASTNode).

Lemma get_top {A} (stack : list (JsOpt A)) :
  (if 0 <? length stack then JsArray.get stack (length stack - 1)
   else undefined) = top stack.
Proof.
  unfold top. destruct stack as [|x s] using rev_ind; [done|].
  rewrite get_last, last_snoc.
  rewrite length_app; simpl.
  by destruct (0 <? length s + 1) eqn:E; [|apply Nat.ltb_ge in E; lia].
Qed.

Lemma get_second {A} (stack : list (JsOpt A)) :
  (if 1 <? length stack then JsArray.get stack (length stack - 2)
   else undefined) = second stack.
Proof.
  unfold second, JsArray.get.
  destruct (1 <? length stack) eqn:E.
  - apply Nat.ltb_lt in E.
    rewrite reverse_lookup by lia.
    by replace (length stack - S 1) with (length stack - 2) by lia.
  - apply Nat.ltb_ge in E.
    by rewrite lookup_ge_None_2 by (rewrite length_reverse; lia).
Qed.

(** C10. The accessors are total functions of the state of the instance.
    Each of [getType], [getParentType], [getInputType], [getFieldDef] and
    [getDefaultValue] returns the top entry of its stack, and [undefined]
    when the stack is empty; [getParentInputType] returns the entry under
    the top of the input-type stack, and [undefined] when that stack has
    fewer than two entries. *)
Theorem accessors_total this :
  (getType this = top (_typeStack this)
   /\ getParentType this = top (_parentTypeStack this)
   /\ getInputType this = top (_inputTypeStack this)
   /\ getParentInputType this = second (_inputTypeStack this)
   /\ getFieldDef_ this = top (_fieldDefStack this)
   /\ getDefaultValue this = top (_defaultValueStack this))
  /\ (forall A, top (@nil (JsOpt A)) = undefined)
  /\ (forall A (s : list (JsOpt A)) x, top (s ++ [x]) = x)
  /\ (forall A, second (@nil (JsOpt A)) = undefined)
  /\ (forall A (x : JsOpt A), second [x] = undefined)
  /\ (forall A (s : list (JsOpt A)) y x, second (s ++ [y; x]) = y).
Proof.
  split; [|split; [|split; [|split; [|split]]]].
  - unfold getType, getParentType, getInputType, getParentInputType,
      getFieldDef_, getDefaultValue.
    by rewrite !get_top, get_second.
  - reflexivity.
  - intros. unfold top. by rewrite last_snoc.
  - reflexivity.
  - reflexivity.
  - intros. unfold second.
    by rewrite reverse_app.
Qed.

End TypeInfoFacts.

Section EnterLeave.
Context `{TS : TypeSystem}.
Implicit Types (this : TypeInfo) (node : ASTNode).

Lemma pushed_refl {A} (l : list A) : pushed false l l.
Proof. reflexivity. Qed.

Lemma pushed_push {A} (l : list A) x : pushed true l (JsArray.push l x).
Proof. by exists x. Qed.

(** [enter] pushes one entry on each stack that the table gives for the
    kind of the node, and leaves the other stacks as they are. *)
Lemma enter_pushes node this :
  pushed (spec_stacks_of_kind (kind node) TypeStack)
    (_typeStack this) (_typeStack (enter node this))
  /\ pushed (spec_stacks_of_kind (kind node) ParentTypeStack)
       (_parentTypeStack this) (_parentTypeStack (enter node this))
  /\ pushed (spec_stacks_of_kind (kind node) InputTypeStack)
       (_inputTypeStack this) (_inputTypeStack (enter node this))
  /\ pushed (spec_stacks_of_kind (kind node) FieldDefStack)
       (_fieldDefStack this) (_fieldDefStack (enter node this))
  /\ pushed (spec_stacks_of_kind (kind node) DefaultValueStack)
       (_defaultValueStack this) (_defaultValueStack (enter node this)).
Proof.
  destruct node as [?|?|[?|?|[| |? ?]]|?|?|[?|?|?]|?|[]|[]|?|[]|[]];
    try destruct k; simpl;
    repeat split; first [apply pushed_refl | apply pushed_push].
Qed.

(** [leave] pops the top entry of each stack that the table gives for the
    kind of the node, and leaves the other stacks as they are. *)
Lemma leave_pops node this :
  popped (spec_stacks_of_kind (kind node) TypeStack)
    (_typeStack this) (_typeStack (leave node this))
  /\ popped (spec_stacks_of_kind (kind node) ParentTypeStack)
       (_parentTypeStack this) (_parentTypeStack (leave node this))
  /\ popped (spec_stacks_of_kind (kind node) InputTypeStack)
       (_inputTypeStack this) (_inputTypeStack (leave node this))
  /\ popped (spec_stacks_of_kind (kind node) FieldDefStack)
       (_fieldDefStack this) (_fieldDefStack (leave node this))
  /\ popped (spec_stacks_of_kind (kind node) DefaultValueStack)
       (_defaultValueStack this) (_defaultValueStack (leave node this)).
Proof.
  unfold leave, popped. by destruct (kind node).
Qed.

Lemma pushed_popped {A} b (l l1 l2 : list A) :
  pushed b l l1 -> popped b l1 l2 -> l2 = l.
Proof.
  unfold pushed, popped. destruct b.
  - intros [x ->] ->. apply removelast_last.
  - by intros -> ->.
Qed.

(** C1. For every node and every state of a [TypeInfo], [enter] pushes
    exactly one entry on each stack that the table of transitions gives
    for the kind of the node and touches no other stack, [leave] pops the
    top entry of each stack of that same set and touches no other stack,
    the set depends on the kind of the node only, the entries under the
    top are unchanged, and [enter] followed by [leave] restores the five
    stacks to their prior contents. *)
Theorem enter_leave_restores_stacks node this :
  (pushed (spec_stacks_of_kind (kind node) TypeStack)
     (_typeStack this) (_typeStack (enter node this))
   /\ pushed (spec_stacks_of_kind (kind node) ParentTypeStack)
        (_parentTypeStack this) (_parentTypeStack (enter node this))
   /\ pushed (spec_stacks_of_kind (kind node) InputTypeStack)
        (_inputTypeStack this) (_inputTypeStack (enter node this))
   /\ pushed (spec_stacks_of_kind (kind node) FieldDefStack)
        (_fieldDefStack this) (_fieldDefStack (enter node this))
   /\ pushed (spec_stacks_of_kind (kind node) DefaultValueStack)
        (_defaultValueStack this) (_defaultValueStack (enter node this)))
  /\ (popped (spec_stacks_of_kind (kind node) TypeStack)
        (_typeStack this) (_typeStack (leave node this))
      /\ popped (spec_stacks_of_kind (kind node) ParentTypeStack)
           (_parentTypeStack this) (_parentTypeStack (leave node this))
      /\ popped (spec_stacks_of_kind (kind node) InputTypeStack)
           (_inputTypeStack this) (_inputTypeStack (leave node this))
      /\ popped (spec_stacks_of_kind (kind node) FieldDefStack)
           (_fieldDefStack this) (_fieldDefStack (leave node this))
      /\ popped (spec_stacks_of_kind (kind node) DefaultValueStack)
           (_defaultValueStack this) (_defaultValueStack (leave node this)))
  /\ (_typeStack (leave node (enter node this)) = _typeStack this
      /\ _parentTypeStack (leave node (enter node this))
         = _parentTypeStack this
      /\ _inputTypeStack (leave node (enter node this))
         = _inputTypeStack this
      /\ _fieldDefStack (leave node (enter node this)) = _fieldDefStack this
      /\ _defaultValueStack (leave node (enter node this))
         = _defaultValueStack this).
Proof.
  pose proof (enter_pushes node this) as (E1 & E2 & E3 & E4 & E5).
  pose proof (leave_pops node (enter node this)) as (L1 & L2 & L3 & L4 & L5).
  split; [by repeat split|]. split; [apply leave_pops|].
  repeat split; eapply pushed_popped; eassumption.
Qed.

End EnterLeave.

(* ===================================================================== *)
(** * Properties of visitWithTypeInfo *)
(* ===================================================================== *)

Section VisitWithTypeInfoFacts.
Context `{TS : TypeSystem} {U : Type}.
Implicit Types (fns : @UserFns TS U) (w : Observed U) (node : ASTNode).

(** C4. The visitor that [visitWithTypeInfo] returns has an [enter] and a
    [leave] function for every kind. On [enter], [typeInfo.enter(node)]
    is called first and the wrapped visitor's function, if it has one for
    the kind, second, on the state that [typeInfo.enter] left; when that
    function returns a defined result, [typeInfo.leave(node)] is called
    next, and then [typeInfo.enter(result)] when the result is a node;
    the result is returned. On [leave], the wrapped visitor's function,
    if any, is called first and [typeInfo.leave(node)] after it. *)
Theorem visitWithTypeInfo_calls fns node w :
  let wrapped := visitWithTypeInfo observed_typeInfo (observed_visitor fns) in
  let ti := obs_typeInfo w in
  (forall k isLeaving, is_Some (getVisitFn wrapped k isLeaving))
  /\ call_visitor wrapped false node w =
       match fns (kind node) false with
       | None =>
           (RUndefined,
            mkObserved (enter node ti) (obs_visitor w)
              (obs_calls w ++ [CallTypeInfoEnter node]))
       | Some fn =>
           let '(result, u) := fn node (enter node ti) (obs_visitor w) in
           (result,
            match result with
            | RUndefined =>
                mkObserved (enter node ti) u
                  (obs_calls w
                   ++ [CallTypeInfoEnter node; CallVisitorEnter node])
            | RNode replacement =>
                mkObserved
                  (enter replacement (leave node (enter node ti))) u
                  (obs_calls w
                   ++ [CallTypeInfoEnter node; CallVisitorEnter node;
                       CallTypeInfoLeave node;
                       CallTypeInfoEnter replacement])
            | _ =>
                mkObserved (leave node (enter node ti)) u
                  (obs_calls w
                   ++ [CallTypeInfoEnter node; CallVisitorEnter node;
                       CallTypeInfoLeave node])
            end)
       end
  /\ call_visitor wrapped true node w =
       match fns (kind node) true with
       | None =>
           (RUndefined,
            mkObserved (leave node ti) (obs_visitor w)
              (obs_calls w ++ [CallTypeInfoLeave node]))
       | Some fn =>
           let '(result, u) := fn node ti (obs_visitor w) in
           (result,
            mkObserved (leave node ti) u
              (obs_calls w
               ++ [CallVisitorLeave node; CallTypeInfoLeave node]))
       end.
Proof.
  cbn zeta. split; [by eauto|].
  unfold call_visitor, JsArray.push; cbn.
  split.
  - destruct (fns (kind node) false) as [fn|]; cbn; [|done].
    destruct (fn node _ _) as [result u].
    destruct result; cbn; unfold JsArray.push; by rewrite <- ?app_assoc.
  - destruct (fns (kind node) true) as [fn|]; cbn; [|done].
    destruct (fn node _ _) as [result u]; cbn; unfold JsArray.push.
    by rewrite <- app_assoc.
Qed.

End VisitWithTypeInfoFacts.

(* ===================================================================== *)
(** * Properties of the rules *)
(* ===================================================================== *)

Section ExecutableDefinitionsRuleFacts.
Import ValidationContext ExecutableDefinitionsRule.
Implicit Types (context : ASTValidationContext) (defs : list DefinitionNode).

(** Reporting several errors, one after the other. *)
Lemma reportError_fold context errors :
  fold_left (fun c e => reportError e c) errors context
  = mkASTValidationContext (_ast context) (reported context ++ errors)
      (_fragments context) (_fragmentSpreads context)
      (_recursivelyReferencedFragments context).
Proof.
  revert context. induction errors as [|e errors IH]; intros context; cbn.
  - rewrite app_nil_r. by destruct context.
  - rewrite IH. cbn. unfold JsArray.push. by rewrite <- app_assoc.
Qed.

Lemma check_definition_spec context d :
  check_definition (Some context) d
  = Some (fold_left (fun c e => reportError e c) (spec_not_executable [d])
            context).
Proof. by destruct d as [o|f|[| |k name]]; [| | | |destruct k]. Qed.

Lemma check_definitions_spec defs context :
  fold_left check_definition defs (Some context)
  = Some (fold_left (fun c e => reportError e c) (spec_not_executable defs)
            context).
Proof.
  revert context. induction defs as [|d defs IH]; intros context; [done|].
  cbn [fold_left]. rewrite check_definition_spec, IH.
  f_equal. rewrite <- fold_left_app. f_equal.
  by destruct d as [o|f|t].
Qed.

(** C5. On every document, the [Document] function of
    ExecutableDefinitionsRule does not throw, returns [false], and leaves
    the context as it was but for the reported errors, to which it adds,
    in the order of the document, exactly one error for each top-level
    definition that is neither an operation nor a fragment definition.
    The message of that error names the definition: the word [schema]
    for a schema definition or extension, the quoted name of the
    definition otherwise; its node is the definition. Nothing is added
    when every definition is an operation or a fragment definition. *)
Theorem ExecutableDefinitionsRule_reports node context :
  Document_ node context
  = Some (RFalse,
          mkASTValidationContext (_ast context)
            (reported context ++ spec_not_executable (definitions node))
            (_fragments context) (_fragmentSpreads context)
            (_recursivelyReferencedFragments context))
  /\ length (spec_not_executable (definitions node))
     = length (filter (fun d => is_operation_or_fragment d = false)
                 (definitions node))
  /\ (forallb is_operation_or_fragment (definitions node) = true
      <-> spec_not_executable (definitions node) = []).
Proof.
  split; [|split].
  - unfold Document_. rewrite check_definitions_spec. cbn.
    by rewrite reportError_fold.
  - induction (definitions node) as [|[o|f|t] defs IH]; [done|..].
    + by rewrite filter_cons_False.
    + by rewrite filter_cons_False.
    + rewrite filter_cons_True by done. cbn. by f_equal.
  - induction (definitions node) as [|[o|f|t] defs IH]; cbn; try done.
Qed.

End ExecutableDefinitionsRuleFacts.

Section VariablesAreInputTypesRuleFacts.
Import ValidationContext VariablesAreInputTypesRule.
Context `{TS : TypeSystem}.
Implicit Types (context : ValidationContext) (node : VariableDefinitionNode).

(** C6. The [VariableDefinition] function of VariablesAreInputTypesRule
    reports an error if and only if [typeFromAST] resolves the type of
    the definition to a type of the schema that is not an input type. It
    then reports exactly one error, whose message is
    [Variable "$<name>" cannot be non-input type "<printed type>".] and
    whose node is the type node of the definition; otherwise the context
    is unchanged. *)
Theorem VariablesAreInputTypesRule_reports node context :
  let type := typeFromAST (getSchema context) (vd_type node) in
  let error :=
    mkGraphQLError
      ("Variable " ++ dquote ++ "$" ++ value (var_name (vd_variable node))
       ++ dquote ++ " cannot be non-input type "
       ++ quoted (print (vd_type node)) ++ ".")
      (NType (vd_type node)) in
  let context' := snd (VariableDefinition_ node context) in
  fst (VariableDefinition_ node context) = RUndefined
  /\ ((exists t, type = Just t /\ isInputType (Just t) = false)
      /\ reported (super context') = reported (super context) ++ [error]
      /\ context' = reportError_ error context
      \/ ~ (exists t, type = Just t /\ isInputType (Just t) = false)
         /\ context' = context).
Proof.
  cbn zeta. unfold VariableDefinition_.
  destruct (typeFromAST (getSchema context) (vd_type node)) as [| |t] eqn:Et;
    cbn.
  1,2: split; [done|right]; split; [by intros (? & [=] & _)|reflexivity].
  destruct (isInputType (Just t)) eqn:Ei; cbn.
  - split; [done|right]. split; [|done].
    intros (t' & [= <-] & Hn). congruence.
  - split; [done|left]. split; [by exists t|]. split; reflexivity.
Qed.

End VariablesAreInputTypesRuleFacts.

Section RuleExamples.
Import ValidationContext.

(** A document with an operation, a schema definition and [type Foo]:
    two errors. *)
Example ExecutableDefinitionsRule_demo :
  let doc :=
    Document
      [DOperation Demo.operation; DTypeSystem SchemaDefinition;
       DTypeSystem (NamedTypeSystem ObjectTypeDefinition (Name "Foo"))] in
  (fun r => map message (reported (snd r)))
    <$> ExecutableDefinitionsRule.Document_ doc (newASTValidationContext doc)
  = Some ["The schema definition is not executable.";
          "The " ++ dquote ++ "Foo" ++ dquote
          ++ " definition is not executable."]%string.
Proof. reflexivity. Qed.

(** [query ($q: Query) ...] on a schema where [Query] is an object type:
    one error, at the type node of the definition. *)
Example VariablesAreInputTypesRule_demo :
  let type := TNamed (NamedType (Name "Query")) in
  let node := VariableDefinition (MkVariable (Name "q")) type None [] in
  reported
    (super (snd (VariablesAreInputTypesRule.VariableDefinition_ node
                   DemoSchema.context)))
  = [mkGraphQLError
       ("Variable " ++ dquote ++ "$q" ++ dquote
        ++ " cannot be non-input type " ++ dquote ++ "Query" ++ dquote
        ++ ".")
       (NType type)].
Proof. reflexivity. Qed.

(** [query ($v: Int) ...]: no error. *)
Example VariablesAreInputTypesRule_demo_input :
  let node :=
    VariableDefinition DemoSchema.v (TNamed (NamedType (Name "Int"))) None
      [] in
  VariablesAreInputTypesRule.VariableDefinition_ node DemoSchema.context
  = (RUndefined, DemoSchema.context).
Proof. reflexivity. Qed.

End RuleExamples.

(* ===================================================================== *)
(** * Properties of mapAsyncIterator *)
(* ===================================================================== *)

Module MapAsyncIteratorFacts.
Import MapAsyncIterator MapAsyncIteratorSpec.

Section Facts.
Context {Err St T U R : Type}.
Implicit Types (it : AsyncIterator Err St T R)
  (callback : T -> Promise Err U)
  (rejectCallback : option (Err -> Promise Err U)).

Lemma run_cons {S' T'} (m : AsyncIterator Err S' T' R) op ops s :
  run m (op :: ops) s
  = let '(p, s) := run_op m op s in
    let '(ps, s) := run m ops s in (p :: ps, s).
Proof. reflexivity. Qed.

(** One [next] of the mapped iterator on a value that the callback
    maps. *)
Lemma next_mapped it callback rejectCallback s v s1 u :
  next it s = (Fulfilled (Yielded v), s1) ->
  callback v = Fulfilled u ->
  next (mapAsyncIterator it callback rejectCallback) s
  = (Fulfilled (Yielded u), s1).
Proof.
  intros Hn Hc. cbn. rewrite Hn. cbn. unfold asyncMapValue.
  by rewrite Hc.
Qed.

(** One [next] of the mapped iterator when the source is done. *)
Lemma next_done it callback rejectCallback s r s' :
  next it s = (Fulfilled (Done r), s') ->
  next (mapAsyncIterator it callback rejectCallback) s
  = (Fulfilled (Done r), s').
Proof. intros Hn. cbn. by rewrite Hn. Qed.

(** C3. When successive calls of [next] on the source yield
    [v0, ..., v(n-1)] and then the done result, and the callback maps
    each of these values, [n + 1] successive calls of [next] on the
    mapped iterator return [{ value: callback(vi), done: false }] for
    each [i], in the order of the source, and then the done result of
    the source, unchanged. *)
Theorem mapAsyncIterator_maps it callback rejectCallback
    (f : T -> U) vs r s s' :
  yields it s vs r s' ->
  (forall v, v ∈ vs -> callback v = Fulfilled (f v)) ->
  run (mapAsyncIterator it callback rejectCallback)
    (replicate (S (length vs)) OpNext) s
  = (map (fun v => Fulfilled (Yielded (f v))) vs ++ [Fulfilled (Done r)],
     s').
Proof.
  intros Hy. induction Hy as [s r s' Hn|s v s1 vs r s' Hn Hy IH];
    intros Hc.
  - cbn [length replicate run run_op].
    by rewrite (next_done _ _ _ _ _ _ Hn).
  - change (replicate (S (length (v :: vs))) (@OpNext Err))
      with (@OpNext Err :: replicate (S (length vs)) OpNext).
    rewrite run_cons. cbn [run_op].
    rewrite (next_mapped _ _ _ _ _ _ (f v) Hn) by (apply Hc; left).
    rewrite IH; [done|].
    intros v' Hv'. apply Hc. by right.
Qed.

(** C2, as amended. When the source has a [return] method, [next] on
    the source yields a value and the callback throws on it (or returns
    a promise that is rejected), the [next] of the mapped iterator
    calls the source's [next] and then its [return], once each, and is
    rejected with the error of the callback, whether the promise of
    [return] is fulfilled or rejected. *)
Theorem mapAsyncIterator_abrupt_close it callback rejectCallback
    ret s calls v s1 error p s2 :
  return_ it = Some ret ->
  next it s = (Fulfilled (Yielded v), s1) ->
  callback v = Rejected error ->
  ret s1 = (p, s2) ->
  next (mapAsyncIterator (observed it) callback rejectCallback) (s, calls)
  = (Rejected error, (s2, calls ++ [CallNext; CallReturn])).
Proof.
  intros Hr Hn Hc Hp. cbn. rewrite Hn, Hr. cbn.
  unfold asyncMapValue. rewrite Hc. cbn. rewrite Hp.
  unfold JsArray.push. rewrite <- app_assoc.
  by destruct p.
Qed.

End Facts.

(** A witness of C3: a counter to 3, mapped by doubling. *)
Lemma mapAsyncIterator_maps_witness :
  run (mapAsyncIterator (counter 3) (fun v => Fulfilled (2 * v)) None)
    (replicate 4 OpNext) (0, false)
  = ([Fulfilled (Yielded 0); Fulfilled (Yielded 2); Fulfilled (Yielded 4);
      Fulfilled (Done undefined)], (3, false)).
Proof.
  apply (mapAsyncIterator_maps (counter 3) (fun v => Fulfilled (2 * v)) None
           (fun v => 2 * v) [0; 1; 2] undefined (0, false) (3, false)).
  - do 3 (eapply yields_value; [reflexivity|]).
    apply yields_done. reflexivity.
  - reflexivity.
Defined.

(** A witness of the amended C2: the callback throws on the first value
    of a counter. *)
Lemma mapAsyncIterator_abrupt_close_witness :
  next (mapAsyncIterator (observed (counter 3))
          (fun _ => @Rejected string nat "boom"%string) None)
    ((0, false), [])
  = (Rejected "boom"%string, ((1, true), [CallNext; CallReturn])).
Proof.
  eapply (mapAsyncIterator_abrupt_close (counter 3) _ None _
            (0, false) [] 0 (1, false) "boom"%string
            (Fulfilled (Done undefined)) (1, true));
    reflexivity.
Defined.

(** C2 as stated does not hold: over the whole life of a mapped iterator
    the source can be closed more than once. The callback throws on the
    first value of a counter, which closes the source; the consumer then
    calls [return] on the mapped iterator, which closes the source a
    second time. *)
Lemma closing_runs_twice :
  let mapped :=
    mapAsyncIterator (observed (counter 3))
      (fun _ => @Rejected string nat "boom"%string) None in
  let '(results, (_, calls)) :=
    run mapped [OpNext; OpReturn] ((0, false), []) in
  results = [Rejected "boom"%string; Fulfilled (Done undefined)]
  /\ calls = [CallNext; CallReturn; CallReturn]
  /\ closings calls = 2
  /\ closings calls <> 1.
Proof. cbn. repeat split; auto. Qed.

End MapAsyncIteratorFacts.

(* ===================================================================== *)
(** * Properties of the validation context *)
(* ===================================================================== *)

Section JsMapFacts.
Context {K V : Type} `{EqDecision K}.
Implicit Types (k : K) (v : V) (m : JsMap.t K V).

Lemma JsMap_get_set k v m : JsMap.get k (JsMap.set k v m) = Some v.
Proof.
  unfold JsMap.get. induction m as [|[k' v'] m IH]; cbn.
  - by rewrite bool_decide_eq_true_2.
  - destruct (bool_decide (k' = k)) eqn:E; cbn.
    + by rewrite bool_decide_eq_true_2.
    + by rewrite E.
Qed.

Lemma JsMap_get_elem_of k v m : JsMap.get k m = Some v -> (k, v) ∈ m.
Proof.
  unfold JsMap.get. induction m as [|[k' v'] m IH]; cbn; [done|].
  destruct (bool_decide (k' = k)) eqn:E; cbn.
  - apply bool_decide_eq_true_1 in E as ->. intros [= ->]. by left.
  - intros Hm. right. by apply IH.
Qed.

Lemma JsMap_elem_of_set k v k' v' m :
  (k', v') ∈ JsMap.set k v m -> (k', v') = (k, v) \/ (k', v') ∈ m.
Proof.
  induction m as [|[k0 v0] m IH]; cbn.
  - intros ->%list_elem_of_singleton. by left.
  - destruct (bool_decide (k0 = k)).
    + intros [->|Hm]%elem_of_cons; [by left|]. right. by right.
    + intros [->|Hm]%elem_of_cons; [right; by left|].
      destruct (IH Hm) as [->|?]; [by left|]. right. by right.
Qed.
End JsMapFacts.

Module FragmentsFacts.
Import ValidationContext FragmentsSpec.
Implicit Types (s : SelectionSetNode) (x : SelectionNode)
  (sels : list SelectionNode) (f : FragmentSpreadNode)
  (this : ASTValidationContext).

(** *** The loops of [getFragmentSpreads] *)

Lemma fold_collect_selection sels spreads stack :
  fold_left collect_selection sels (spreads, stack)
  = (spreads ++ omap spread_of sels, stack ++ omap child_set sels).
Proof.
  revert spreads stack.
  induction sels as [|x sels IH]; intros spreads stack; cbn.
  - by rewrite !app_nil_r.
  - destruct x as [fld|f|fr]; cbn.
    + destruct (field_selectionSet fld); rewrite IH; unfold JsArray.push;
        by rewrite <- ?app_assoc.
    + rewrite IH. unfold JsArray.push. by rewrite <- app_assoc.
    + rewrite IH. unfold JsArray.push. by rewrite <- app_assoc.
Qed.

Lemma sel_size_child x :
  sel_size x = from_option ss_size 0 (child_set x).
Proof. by destruct x as [[? ? ? ? [?|]]|?|[? ? ?]]. Qed.

Lemma spreads_under_child x :
  spreads_under x = from_option spreads_depth_first [] (child_set x).
Proof. by destruct x as [[? ? ? ? [?|]]|?|[? ? ?]]. Qed.

Lemma child_sets_size sels :
  list_sum (map ss_size (omap child_set sels))
  = list_sum (map sel_size sels).
Proof.
  induction sels as [|x sels IH]; [done|]. cbn.
  rewrite sel_size_child.
  unfold list_sum in *. destruct (child_set x); cbn in *; lia.
Qed.

Lemma child_sets_spreads sels :
  mjoin (spreads_depth_first <$> reverse (omap child_set sels))
  = mjoin (reverse (spreads_under <$> sels)).
Proof.
  induction sels as [|x sels IH]; [done|].
  rewrite fmap_cons, reverse_cons, join_app, <- IH, spreads_under_child.
  change (omap child_set (x :: sels))
    with (match child_set x with
          | Some y => y :: omap child_set sels
          | None => omap child_set sels
          end).
  destruct (child_set x) as [s'|]; cbn [from_option].
  - by rewrite reverse_cons, fmap_app, join_app.
  - cbn [mjoin list_join]. by rewrite !app_nil_r.
Qed.

Lemma ss_size_pos s : 0 < ss_size s.
Proof. destruct s; cbn; lia. Qed.

(** The loop returns the collected spreads followed by those of the sets
    of the stack, from its top to its bottom, whenever the fuel is at
    least the number of selection sets on and under the stack. *)
Lemma collect_spreads_spec fuel spreads stack :
  list_sum (map ss_size stack) <= fuel ->
  collect_spreads fuel spreads stack
  = Some (spreads ++ mjoin (spreads_depth_first <$> reverse stack)).
Proof.
  revert spreads stack.
  induction fuel as [|fuel IH]; intros spreads stack Hfuel.
  - destruct stack as [|s stack]; cbn.
    + by rewrite app_nil_r.
    + pose proof (ss_size_pos s). cbn in Hfuel. lia.
  - destruct stack as [|s0 stack0] using rev_ind.
    + cbn. by rewrite app_nil_r.
    + clear IHstack0. cbn [collect_spreads].
      change (JsArray.pop (stack0 ++ [s0]))
        with (JsArray.pop (JsArray.push stack0 s0)).
      rewrite pop_push.
      rewrite fold_collect_selection. rewrite IH.
      * rewrite reverse_app, fmap_app, join_app, reverse_app.
        rewrite fmap_app, join_app, child_sets_spreads. cbn.
        destruct s0 as [sels]; cbn. by rewrite !app_nil_r, <- !app_assoc.
      * rewrite map_app, list_sum_app, child_sets_size.
        rewrite map_app, list_sum_app in Hfuel.
        destruct s0 as [sels]; cbn in *. unfold list_sum in *. lia.
Qed.

(** *** Spreads and nesting *)

Lemma sel_size_le x sels : x ∈ sels -> sel_size x <= list_sum (map sel_size sels).
Proof.
  induction 1 as [x sels|x y sels _ IH]; cbn; unfold list_sum in *; lia.
Qed.

Lemma SelectionSet_ind_children (P : SelectionSetNode -> Prop) :
  (forall sels,
     (forall x s', x ∈ sels -> child_set x = Some s' -> P s') ->
     P (SelectionSet sels)) ->
  forall s, P s.
Proof.
  intros Hstep s.
  remember (ss_size s) as n eqn:Hn.
  revert s Hn. induction n as [n IH] using lt_wf_ind. intros [sels] ->.
  apply Hstep. intros x s' Hx Hc.
  apply (IH (ss_size s')); [|done].
  pose proof (sel_size_le _ _ Hx) as Hle.
  rewrite sel_size_child, Hc in Hle. cbn in *. lia.
Qed.

Lemma elem_of_spreads_sels f sels :
  f ∈ omap spread_of sels ++ mjoin (reverse (spreads_under <$> sels))
  <-> SFragmentSpread f ∈ sels
      \/ exists x s', x ∈ sels /\ child_set x = Some s'
                      /\ f ∈ spreads_depth_first s'.
Proof.
  rewrite elem_of_app, list_elem_of_omap, list_elem_of_join.
  split.
  - intros [(x & Hx & Hs)|(l & Hf & Hl)].
    + left. by destruct x; simplify_eq/=.
    + right. apply elem_of_reverse, list_elem_of_fmap in Hl as (x & -> & Hx).
      rewrite spreads_under_child in Hf.
      destruct (child_set x) as [s'|] eqn:Hc; cbn in Hf.
      * by exists x, s'.
      * by apply elem_of_nil in Hf.
  - intros [Hx|(x & s' & Hx & Hc & Hf)].
    + left. by exists (SFragmentSpread f).
    + right. exists (spreads_under x). split.
      * by rewrite spreads_under_child, Hc.
      * apply elem_of_reverse, list_elem_of_fmap. by exists x.
Qed.

Lemma spreads_nested s f :
  f ∈ spreads_depth_first s <-> nested_spread s f.
Proof.
  split.
  - revert f. induction s as [sels IH] using SelectionSet_ind_children.
    intros f. cbn [spreads_depth_first]. rewrite elem_of_spreads_sels.
    intros [Hx|(x & s' & Hx & Hc & Hf)].
    + by apply nested_here.
    + eapply nested_below; [exact Hx|exact Hc|]. by eapply IH.
  - induction 1 as [[sels] f Hx|[sels] x s' f Hx Hc _ IH];
      cbn [spreads_depth_first]; rewrite elem_of_spreads_sels.
    + by left.
    + right. by exists x, s'.
Qed.

Lemma spreads_of_selection_split x :
  spreads_of_selection x
  = option_list (spread_of x)
    ++ from_option spreads_in_order [] (child_set x).
Proof. by destruct x as [[? ? ? ? [?|]]|?|[? ? ?]]. Qed.

Lemma omap_cons_match {A B} (g : A -> option B) a (l : list A) :
  omap g (a :: l) = option_list (g a) ++ omap g l.
Proof. cbn. by destruct (g a). Qed.

Lemma spreads_permutation_sels sels :
  (forall x s', x ∈ sels -> child_set x = Some s' ->
     spreads_depth_first s' ≡ₚ spreads_in_order s') ->
  omap spread_of sels ++ mjoin (spreads_under <$> sels)
  ≡ₚ mjoin (spreads_of_selection <$> sels).
Proof.
  induction sels as [|x sels IHsels]; intros IH; [done|].
  rewrite omap_cons_match, !fmap_cons.
  change (mjoin (?a :: ?l)) with (a ++ mjoin l).
  rewrite spreads_of_selection_split, spreads_under_child.
  rewrite <- IHsels by (intros y s' Hy; apply IH; by right).
  assert (from_option spreads_depth_first [] (child_set x)
          ≡ₚ from_option spreads_in_order [] (child_set x)) as ->.
  { destruct (child_set x) as [s'|] eqn:Hc; [|done].
    cbn. eapply IH; [by left|done]. }
  rewrite <- !app_assoc. f_equiv.
  rewrite !app_assoc. f_equiv. apply Permutation_app_comm.
Qed.

Lemma spreads_permutation s :
  spreads_depth_first s ≡ₚ spreads_in_order s.
Proof.
  induction s as [sels IH] using SelectionSet_ind_children.
  cbn [spreads_depth_first spreads_in_order].
  rewrite reverse_Permutation. by apply spreads_permutation_sels.
Qed.

End FragmentsFacts.

Module ReferencedFragmentsFacts.
Import ValidationContext FragmentsSpec FragmentsInv FragmentsFacts.
Implicit Types (defs : list DefinitionNode) (s : SelectionSetNode)
  (f : FragmentDefinitionNode) (st : Pure)
  (fm : gmap string FragmentDefinitionNode).

(** *** [fragments_by_name] *)

Lemma fold_fragments_lookup defs fm n f :
  fold_left
    (fun frags statement =>
       match statement with
       | DFragment f => <[value (fd_name f) := f]> frags
       | _ => frags
       end) defs fm !! n = Some f ->
  fm !! n = Some f \/ (name_of f = n /\ DFragment f ∈ defs).
Proof.
  revert fm. induction defs as [|d defs IH]; intros fm; cbn; [by left|].
  intros [H|[? ?]]%IH.
  - destruct d as [o|g|t]; [by left| |by left].
    destruct (decide (value (fd_name g) = n)) as [<-|Hne].
    + rewrite lookup_insert_eq in H. injection H as ->.
      right. split; [done|by left].
    + rewrite lookup_insert_ne in H by done. by left.
  - right. split; [done|by right].
Qed.

Lemma fragments_by_name_lookup defs n f :
  fragments_by_name defs !! n = Some f ->
  name_of f = n /\ DFragment f ∈ defs.
Proof.
  intros [H|H]%fold_fragments_lookup; [|done].
  by rewrite lookup_empty in H.
Qed.

Lemma fragment_definitions_app defs defs' :
  fragment_definitions (defs ++ defs')
  = fragment_definitions defs ++ fragment_definitions defs'.
Proof. apply omap_app. Qed.

Lemma fragments_by_name_snoc defs d :
  fragments_by_name (defs ++ [d])
  = match d with
    | DFragment f => <[value (fd_name f) := f]> (fragments_by_name defs)
    | _ => fragments_by_name defs
    end.
Proof. unfold fragments_by_name. by rewrite fold_left_app. Qed.

(** The fragment of a name is the last fragment definition of that name
    in the document. *)
Lemma fragments_by_name_last defs name :
  fragments_by_name defs !! name
  = last (filter (fun f => name_of f = name) (fragment_definitions defs)).
Proof.
  induction defs as [|d defs IH] using rev_ind; [done|].
  rewrite fragments_by_name_snoc, fragment_definitions_app, filter_app.
  destruct d as [o|f|t];
    change (fragment_definitions [DOperation o])
      with (@nil FragmentDefinitionNode)
    || change (fragment_definitions [DTypeSystem t])
         with (@nil FragmentDefinitionNode)
    || change (fragment_definitions [DFragment f]) with [f];
    rewrite ?filter_nil, ?app_nil_r; try done.
  destruct (decide (name_of f = name)) as [<-|Hne].
  - rewrite (filter_cons_True _ f) by done.
    rewrite filter_nil, last_snoc. apply lookup_insert_eq.
  - rewrite (filter_cons_False _ f) by done.
    rewrite filter_nil, app_nil_r, <- IH. by apply lookup_insert_ne.
Qed.

(** [getFragment] looks a name up as the document gives it. *)
Lemma fragments_by_name_named defs name :
  fragments_by_name defs !! name = fragment_named defs name.
Proof. apply fragments_by_name_last. Qed.

Lemma fold_fragments_size defs fm :
  size
    (fold_left
       (fun frags statement =>
          match statement with
          | DFragment f => <[value (fd_name f) := f]> frags
          | _ => frags
          end) defs fm)
  <= size fm + length defs.
Proof.
  revert fm. induction defs as [|d defs IH]; intros fm; cbn; [lia|].
  etrans; [apply IH|].
  destruct d as [o|g|t]; try lia.
  pose proof (map_size_insert (value (fd_name g)) g fm) as Hs.
  destruct (fm !! value (fd_name g)); unfold id in Hs; lia.
Qed.

Lemma fragments_by_name_size defs :
  size (fragments_by_name defs) <= length defs.
Proof.
  pose proof (fold_fragments_size defs ∅) as H.
  by rewrite map_size_empty in H.
Qed.

Lemma fragment_size_le defs f :
  DFragment f ∈ defs ->
  ss_size (fd_selectionSet f) <= list_sum (map def_size defs).
Proof.
  induction defs as [|d defs IH]; [by intros ?%elem_of_nil|].
  intros [<-|H]%elem_of_cons; cbn; [|specialize (IH H)];
    unfold list_sum in *; lia.
Qed.

(** *** The inner loop keeps the invariant *)

Lemma pure_spread_inv defs s0 node spread pending st :
  inv defs s0 node (spread :: pending) st ->
  inv defs s0 node pending (pure_spread (fragments_by_name defs) st spread).
Proof.
  destruct st as [[names frags] stack].
  intros [Hfrags Hnames Hnodup Hstack Hclosed Hnode Hpending]; cbn in *.
  unfold pure_spread.
  set (n := value (fs_name spread)).
  assert (spread ∈ spreads_depth_first node) as Hspread
    by (apply Hpending; left).
  case_bool_decide as Hcollected.
  { (* the name was collected before *)
    split; cbn; try done.
    - intros s Hs. destruct (Hclosed s Hs) as [?|[?|[-> Hp]]]; auto.
      right; right. split; [done|]. intros sp Hsp.
      destruct (Hp sp Hsp) as [[->|?]%elem_of_cons|?]; auto.
    - intros sp Hsp. apply Hpending. by right. }
  assert (forall m, names !! m = Some true ->
                    <[n:=true]> names !! m = Some true) as Hmono.
  { intros m Hm. destruct (decide (n = m)) as [->|Hne].
    - by rewrite lookup_insert_eq.
    - by rewrite lookup_insert_ne. }
  assert (forall s, closed names s -> closed (<[n:=true]> names) s)
    as Hclosed_mono by (intros s Hs sp Hsp; by apply Hmono, Hs).
  assert (forall s,
    s ∈ stack \/ closed names s
    \/ (s = node /\ forall sp, sp ∈ spreads_depth_first node ->
          sp ∈ spread :: pending
          \/ names !! value (fs_name sp) = Some true) ->
    s ∈ stack \/ closed (<[n:=true]> names) s
    \/ (s = node /\ forall sp, sp ∈ spreads_depth_first node ->
          sp ∈ pending
          \/ <[n:=true]> names !! value (fs_name sp) = Some true))
    as Hstep.
  { intros s [?|[?|[-> Hp]]]; auto.
    right; right. split; [done|]. intros sp Hsp.
    destruct (Hp sp Hsp) as [[->|?]%elem_of_cons|?]; auto.
    right. by rewrite lookup_insert_eq. }
  destruct (fragments_by_name defs !! n) as [f|] eqn:Hf.
  - (* a fragment of that name: it is found and its set is pushed *)
    pose proof (fragments_by_name_lookup _ _ _ Hf) as [Hname _].
    assert (reachable defs s0 f) as Hreach.
    { destruct Hnode as [->|(g & Hg & ->)].
      - eapply reachable_spread; [by apply spreads_nested|].
        by rewrite <- fragments_by_name_named.
      - eapply reachable_trans; [by apply Hfrags|].
        eapply reachable_spread; [by apply spreads_nested|].
        by rewrite <- fragments_by_name_named. }
    split; cbn.
    + intros g [Hg| ->%list_elem_of_singleton]%elem_of_app.
      * destruct (Hfrags g Hg) as (? & ? & ?). auto.
      * rewrite Hname. split; [done|]. split; [|done].
        by rewrite lookup_insert_eq.
    + intros m g Hm Hg. apply elem_of_app.
      destruct (decide (n = m)) as [<-|Hne].
      * right. apply list_elem_of_singleton. congruence.
      * left. rewrite lookup_insert_ne in Hm by done. eauto.
    + rewrite fmap_app. apply NoDup_app. split; [done|]. split.
      * intros m Hm ->%list_elem_of_singleton.
        apply list_elem_of_fmap in Hm as (g & Hmg & Hg).
        destruct (Hfrags g Hg) as (_ & Hc & _).
        apply Hcollected. change (names !! n = Some true).
        by rewrite <- Hname, Hmg.
      * apply NoDup_singleton.
    + intros s [Hs| ->%list_elem_of_singleton]%elem_of_app.
      * destruct (Hstack s Hs) as [->|(g & Hg & ->)]; [by left|].
        right. exists g. split; [|done]. apply elem_of_app. by left.
      * right. exists f. split; [|done]. apply elem_of_app. right.
        by apply list_elem_of_singleton.
    + intros s [->|(g & [Hg| ->%list_elem_of_singleton]%elem_of_app & ->)].
      * destruct (Hstep s0) as [?|[?|?]]; [apply Hclosed; by left|..];
          [left; apply elem_of_app; by left|by right; left|by right; right].
      * destruct (Hstep (fd_selectionSet g)) as [?|[?|?]];
          [apply Hclosed; right; by exists g|..];
          [left; apply elem_of_app; by left|by right; left|by right; right].
      * left. apply elem_of_app. right. by apply list_elem_of_singleton.
    + destruct Hnode as [->|(g & Hg & ->)]; [by left|].
      right. exists g. split; [|done]. apply elem_of_app. by left.
    + intros sp Hsp. apply Hpending. by right.
  - (* no fragment of that name: only the name is collected *)
    split; cbn.
    + intros g Hg. destruct (Hfrags g Hg) as (? & ? & ?). auto.
    + intros m g Hm Hg. destruct (decide (n = m)) as [<-|Hne];
        [congruence|].
      rewrite lookup_insert_ne in Hm by done. eauto.
    + done.
    + done.
    + intros s Hs. apply Hstep, Hclosed, Hs.
    + done.
    + intros sp Hsp. apply Hpending. by right.
Qed.

Lemma fold_pure_spread_inv defs s0 node pending st :
  inv defs s0 node pending st ->
  inv defs s0 node []
    (fold_left (pure_spread (fragments_by_name defs)) pending st).
Proof.
  revert st. induction pending as [|spread pending IH]; intros st Hinv;
    [done|].
  cbn. by apply IH, pure_spread_inv.
Qed.

(** *** The outer loop *)

Lemma inv_pop defs s0 node' names frags rest node :
  inv defs s0 node' [] (names, frags, rest ++ [node]) ->
  inv defs s0 node (spreads_depth_first node) (names, frags, rest).
Proof.
  intros [Hfrags Hnames Hnodup Hstack Hclosed Hnode Hpending]; cbn in *.
  split; cbn; try done.
  - intros s Hs. apply Hstack, elem_of_app. by left.
  - intros s Hs.
    destruct (Hclosed s Hs)
      as [[?| ->%list_elem_of_singleton]%elem_of_app|[?|[-> Hp]]]; auto.
    right; left. intros sp Hsp.
    by destruct (Hp sp Hsp) as [?%elem_of_nil|?].
  - apply Hstack, elem_of_app. right. by apply list_elem_of_singleton.
Qed.

Lemma inv_init defs s0 : inv defs s0 s0 [] (∅, [], [s0]).
Proof.
  split; cbn.
  - by intros f ?%elem_of_nil.
  - intros n f H. by rewrite lookup_empty in H.
  - apply NoDup_nil_2.
  - intros s ->%list_elem_of_singleton. by left.
  - intros s [->|(f & ?%elem_of_nil & _)]; [|done].
    left. by apply list_elem_of_singleton.
  - by left.
  - by intros sp ?%elem_of_nil.
Qed.

Lemma inv_frags_size defs s0 node pending st :
  inv defs s0 node pending st ->
  length st.1.2 <= size (fragments_by_name defs).
Proof.
  intros [Hfrags _ Hnodup _ _ _ _].
  rewrite <- (length_fmap name_of), <- (size_list_to_set (C := gset string))
    by done.
  rewrite <- (size_dom (D := gset string)). apply subseteq_size.
  intros n (f & -> & Hf)%elem_of_list_to_set%list_elem_of_fmap.
  apply elem_of_dom. exists f. by apply Hfrags.
Qed.

Lemma pure_spread_pushes fm st spread :
  length (pure_spread fm st spread).2 + length st.1.2
  = length st.2 + length (pure_spread fm st spread).1.2.
Proof.
  destruct st as [[names frags] stack]. unfold pure_spread.
  case_bool_decide; [done|].
  destruct (fm !! _); cbn; rewrite ?length_app; cbn; lia.
Qed.

Lemma fold_pure_spread_pushes fm spreads st :
  length (fold_left (pure_spread fm) spreads st).2 + length st.1.2
  = length st.2 + length (fold_left (pure_spread fm) spreads st).1.2.
Proof.
  revert st. induction spreads as [|sp spreads IH]; intros st; [done|].
  cbn. pose proof (IH (pure_spread fm st sp)).
  pose proof (pure_spread_pushes fm st sp). lia.
Qed.

Lemma pure_fragments_unfold fuel fm names frags rest node :
  pure_fragments (S fuel) fm (names, frags, rest ++ [node])
  = pure_fragments fuel fm
      (fold_left (pure_spread fm) (spreads_depth_first node)
         (names, frags, rest)).
Proof.
  cbn [pure_fragments].
  change (JsArray.pop (rest ++ [node]))
    with (JsArray.pop (JsArray.push rest node)).
  by rewrite pop_push.
Qed.

(** The outer loop ends, with an empty stack and the invariant, when the
    fuel is at least the height of the stack plus the number of fragments
    of the document not found yet. *)
Lemma pure_fragments_terminates defs s0 fuel : forall node st,
  inv defs s0 node [] st ->
  length st.2 + size (fragments_by_name defs) - length st.1.2 <= fuel ->
  exists names frags node',
    pure_fragments fuel (fragments_by_name defs) st
    = Some (names, frags, [])
    /\ inv defs s0 node' [] (names, frags, []).
Proof.
  induction fuel as [|fuel IH]; intros node [[names frags] stack] Hinv Hfuel.
  - pose proof (inv_frags_size _ _ _ _ _ Hinv). cbn in *.
    destruct stack; [|cbn in *; lia]. by exists names, frags, node.
  - destruct stack as [|top rest _] using rev_ind.
    { by exists names, frags, node. }
    rewrite pure_fragments_unfold.
    pose proof (inv_frags_size _ _ _ _ _ Hinv) as Hsize.
    apply inv_pop, fold_pure_spread_inv in Hinv.
    pose proof (inv_frags_size _ _ _ _ _ Hinv) as Hsize'.
    pose proof (fold_pure_spread_pushes (fragments_by_name defs)
                  (spreads_depth_first top) (names, frags, rest)) as Hpush.
    eapply IH; [exact Hinv|].
    cbn in *. rewrite length_app in Hfuel. cbn in Hfuel. lia.
Qed.

Lemma pure_fragments_more_fuel fm fuel : forall fuel' st st',
  pure_fragments fuel fm st = Some st' ->
  fuel <= fuel' ->
  pure_fragments fuel' fm st = Some st'.
Proof.
  induction fuel as [|fuel IH]; intros fuel' [[names frags] stack] st'.
  - destruct stack as [|top rest _] using rev_ind.
    + by destruct fuel'.
    + cbn [pure_fragments].
      change (JsArray.pop (rest ++ [top]))
        with (JsArray.pop (JsArray.push rest top)).
      by rewrite pop_push.
  - destruct stack as [|top rest _] using rev_ind.
    + by destruct fuel'.
    + destruct fuel' as [|fuel']; [lia|].
      rewrite !pure_fragments_unfold. intros H ?. apply IH; [done|lia].
Qed.

Lemma inv_reachable defs s0 node names frags :
  inv defs s0 node [] (names, frags, []) ->
  forall f, f ∈ frags <-> reachable defs s0 f.
Proof.
  intros [Hfrags Hnames _ _ Hclosed _ _] f; cbn in *.
  assert (forall s, visited_set s0 frags s -> closed names s) as Hcl.
  { intros s Hs. destruct (Hclosed s Hs) as [?%elem_of_nil|[?|[-> Hp]]];
      [done|done|].
    intros sp Hsp. by destruct (Hp sp Hsp) as [?%elem_of_nil|?]. }
  split; [by intros Hf; apply Hfrags|].
  assert (forall s g, reachable defs s g -> visited_set s0 frags s ->
                      g ∈ frags) as Haux.
  { induction 1 as [s sp g Hsp Hg|s g h _ IHg _ IHh]; intros Hs.
    - rewrite <- fragments_by_name_named in Hg.
      eapply Hnames; [|exact Hg]. by apply (Hcl s Hs), spreads_nested.
    - apply IHh. right. exists g. split; [|done]. by apply IHg. }
  intros Hr. apply (Haux _ _ Hr). by left.
Qed.

(** What [referenced_fragments] is. *)
Lemma referenced_fragments_spec doc operation fuel :
  doc_fuel doc operation <= fuel ->
  let defs := definitions doc in
  let frags := referenced_fragments doc operation in
  (exists names,
     pure_fragments fuel (fragments_by_name defs)
       (∅, [], [op_selectionSet operation])
     = Some (names, frags, []))
  /\ NoDup (name_of <$> frags)
  /\ (forall f, f ∈ frags
                <-> reachable defs (op_selectionSet operation) f)
  /\ (forall f, f ∈ frags ->
        fragments_by_name defs !! name_of f = Some f).
Proof.
  intros Hfuel defs frags.
  pose proof (fragments_by_name_size defs) as Hsize.
  destruct (pure_fragments_terminates defs (op_selectionSet operation)
              (doc_fuel doc operation) _ _ (inv_init _ _))
    as (names & frags' & node' & Hrun & Hinv).
  { cbn. unfold doc_fuel. fold defs. lia. }
  assert (frags = frags') as ->.
  { unfold frags, referenced_fragments. fold defs. by rewrite Hrun. }
  split; [|split; [|split]].
  - exists names. by eapply pure_fragments_more_fuel.
  - apply Hinv.
  - by eapply inv_reachable.
  - intros f Hf. by apply Hinv.
Qed.

End ReferencedFragmentsFacts.

Module ContextFacts.
Import ValidationContext FragmentsSpec FragmentsInv FragmentsFacts
  ReferencedFragmentsFacts.
Implicit Types (this : ASTValidationContext) (s node : SelectionSetNode)
  (st : Collecting).

Lemma same_but_caches_refl this : same_but_caches this this.
Proof. done. Qed.

Lemma same_but_caches_trans this1 this2 this3 :
  same_but_caches this1 this2 -> same_but_caches this2 this3 ->
  same_but_caches this1 this3.
Proof. intros [? ?] [? ?]. split; congruence. Qed.

(** A new context has empty caches. *)
Lemma cache_ok_new ast : cache_ok (newASTValidationContext ast).
Proof.
  split; [done|]. split; cbn; by intros k v ?%elem_of_nil.
Qed.

(** Reporting an error leaves the caches as they are. *)
Lemma cache_ok_reportError error this :
  cache_ok this -> cache_ok (reportError error this).
Proof. done. Qed.

Lemma getFragment_ok name this :
  cache_ok this ->
  exists this',
    getFragment name this
    = (fragments_by_name (definitions (_ast this)) !! name, this')
    /\ cache_ok this' /\ same_but_caches this this'.
Proof.
  intros Hok. pose proof Hok as (Hf & Hs & Hr). unfold getFragment.
  destruct (_fragments this) as [fragments|] eqn:E.
  - exists this. by rewrite (Hf fragments eq_refl).
  - eexists. split; [reflexivity|]. split; [|done].
    split; [|done]. cbn. by intros ? [= <-].
Qed.

(** [getFragmentSpreads] returns the spreads in depth-first order, with
    enough fuel for the selection sets under [node], and caches them. *)
Lemma getFragmentSpreads_ok fuel node this :
  cache_ok this ->
  ss_size node <= fuel ->
  exists this',
    getFragmentSpreads fuel node this
    = Some (spreads_depth_first node, this')
    /\ JsMap.get node (_fragmentSpreads this')
       = Some (spreads_depth_first node)
    /\ cache_ok this' /\ same_but_caches this this'.
Proof.
  intros Hok Hfuel. pose proof Hok as (Hf & Hs & Hr).
  unfold getFragmentSpreads.
  destruct (JsMap.get node (_fragmentSpreads this)) as [spreads|] eqn:E.
  - exists this. apply JsMap_get_elem_of in E as HE.
    by rewrite <- (Hs _ _ HE).
  - rewrite collect_spreads_spec by (cbn; lia). cbn.
    rewrite app_nil_r. eexists. split; [reflexivity|]. cbn.
    split; [apply JsMap_get_set|]. split; [|done].
    split; [done|]. split; [|done]. cbn.
    intros k v [[= -> ->]|?]%JsMap_elem_of_set; [done|by apply Hs].
Qed.

(** A call that hits the cache needs no fuel and changes nothing. *)
Lemma getFragmentSpreads_cached fuel node this spreads :
  JsMap.get node (_fragmentSpreads this) = Some spreads ->
  getFragmentSpreads fuel node this = Some (spreads, this).
Proof. intros E. unfold getFragmentSpreads. by rewrite E. Qed.

Lemma pure_of_with_context this (p : Pure) :
  pure_of (with_context this p) = p.
Proof. by destruct p as [[? ?] ?]. Qed.

Lemma collect_spread_ok st spread :
  cache_ok (this_ st) ->
  exists this',
    collect_spread st spread
    = with_context this'
        (pure_spread (fragments_by_name (definitions (_ast (this_ st))))
           (pure_of st) spread)
    /\ cache_ok this' /\ same_but_caches (this_ st) this'.
Proof.
  intros Hok. destruct st as [this names frags stack]; cbn in *.
  unfold collect_spread, pure_spread, pure_of; cbn.
  case_bool_decide.
  { by exists this. }
  destruct (getFragment_ok (value (fs_name spread)) this Hok)
    as (this' & -> & Hok' & Hsame).
  exists this'. split; [|done].
  by destruct (fragments_by_name _ !! _).
Qed.

Lemma fold_collect_spread_ok spreads : forall st,
  cache_ok (this_ st) ->
  exists this',
    fold_left collect_spread spreads st
    = with_context this'
        (fold_left
           (pure_spread (fragments_by_name (definitions (_ast (this_ st)))))
           spreads (pure_of st))
    /\ cache_ok this' /\ same_but_caches (this_ st) this'.
Proof.
  induction spreads as [|sp spreads IH]; intros st Hok.
  - exists (this_ st). by destruct st.
  - cbn [fold_left].
    destruct (collect_spread_ok st sp Hok) as (this1 & -> & Hok1 & Hsame1).
    set (fm := fragments_by_name (definitions (_ast (this_ st)))).
    destruct (IH (with_context this1 (pure_spread fm (pure_of st) sp)) Hok1)
      as (this2 & E & Hok2 & Hsame2).
    exists this2. cbn [this_ with_context] in E, Hsame2. rewrite E.
    split; [|split; [done|]].
    + rewrite pure_of_with_context. by destruct Hsame1 as [-> _].
    + eapply same_but_caches_trans; [exact Hsame1|exact Hsame2].
Qed.

Lemma pure_spread_sizes bound fm (p : Pure) spread :
  (forall n f, fm !! n = Some f -> ss_size (fd_selectionSet f) <= bound) ->
  sizes_ok bound p.2 ->
  sizes_ok bound (pure_spread fm p spread).2.
Proof.
  intros Hfm Hst. destruct p as [[names frags] stack]. unfold pure_spread.
  case_bool_decide; [done|].
  destruct (fm !! _) as [f|] eqn:E; [|done]. cbn.
  apply Forall_app. split; [done|]. apply Forall_singleton. by eapply Hfm.
Qed.

Lemma fold_pure_spread_sizes bound fm spreads : forall p : Pure,
  (forall n f, fm !! n = Some f -> ss_size (fd_selectionSet f) <= bound) ->
  sizes_ok bound p.2 ->
  sizes_ok bound (fold_left (pure_spread fm) spreads p).2.
Proof.
  induction spreads as [|sp spreads IH]; intros p Hfm Hst; [done|].
  cbn. apply IH; [done|]. by apply pure_spread_sizes.
Qed.

Lemma collect_fragments_unfold fuel fuel' this names frags rest top :
  collect_fragments (S fuel) fuel'
    (mkCollecting this names frags (rest ++ [top]))
  = '(spreads, this) ← getFragmentSpreads fuel' top this;
    collect_fragments fuel fuel'
      (fold_left collect_spread spreads
         (mkCollecting this names frags rest)).
Proof.
  cbn [collect_fragments nodesToVisit].
  change (JsArray.pop (rest ++ [top]))
    with (JsArray.pop (JsArray.push rest top)).
  by rewrite pop_push.
Qed.

Lemma pure_fragments_no_fuel fm names frags rest top :
  pure_fragments 0 fm (names, frags, rest ++ [top]) = None.
Proof.
  cbn [pure_fragments].
  change (JsArray.pop (rest ++ [top]))
    with (JsArray.pop (JsArray.push rest top)).
  by rewrite pop_push.
Qed.

(** The loop with the caches does what the loop without them does. *)
Lemma collect_fragments_ok fuel' fuel : forall st r,
  cache_ok (this_ st) ->
  let fm := fragments_by_name (definitions (_ast (this_ st))) in
  (forall n f, fm !! n = Some f -> ss_size (fd_selectionSet f) <= fuel') ->
  sizes_ok fuel' (nodesToVisit st) ->
  pure_fragments fuel fm (pure_of st) = Some r ->
  exists this',
    collect_fragments fuel fuel' st = Some (with_context this' r)
    /\ cache_ok this' /\ same_but_caches (this_ st) this'.
Proof.
  induction fuel as [|fuel IH];
    intros [this names frags stack] r Hok fm Hfm Hsizes;
    unfold pure_of; cbn [this_ collectedNames fragments nodesToVisit] in *.
  - destruct stack as [|top rest _] using rev_ind.
    + intros [= <-]. by exists this.
    + by rewrite pure_fragments_no_fuel.
  - destruct stack as [|top rest _] using rev_ind.
    + intros [= <-]. by exists this.
    + rewrite pure_fragments_unfold, collect_fragments_unfold.
      apply Forall_app in Hsizes as [Hrest Htop].
      rewrite Forall_singleton in Htop.
      destruct (getFragmentSpreads_ok fuel' top this Hok Htop)
        as (this1 & -> & _ & Hok1 & Hsame1). cbn [mbind option_bind].
      destruct (fold_collect_spread_ok (spreads_depth_first top)
                  (mkCollecting this1 names frags rest) Hok1)
        as (this2 & -> & Hok2 & Hsame2).
      cbn [this_] in *. destruct Hsame1 as [Hast1 Hrep1].
      destruct Hsame2 as [Hast2 Hrep2]. rewrite Hast1. fold fm.
      unfold pure_of; cbn [collectedNames fragments nodesToVisit].
      intros Hpure.
      destruct (IH (with_context this2
                      (fold_left (pure_spread fm) (spreads_depth_first top)
                         (names, frags, rest))) r)
        as (this3 & E & Hok3 & Hsame3).
      * done.
      * cbn [this_ with_context]. rewrite Hast2, Hast1. exact Hfm.
      * cbn [nodesToVisit with_context].
        by apply fold_pure_spread_sizes.
      * cbn [this_ with_context]. rewrite Hast2, Hast1. fold fm.
        by rewrite pure_of_with_context.
      * exists this3. split; [done|]. split; [done|].
        destruct Hsame3 as [Hast3 Hrep3]. cbn [this_ with_context] in *.
        split; congruence.
Qed.

(** [getRecursivelyReferencedFragments] returns the referenced fragments,
    with enough fuel for the document and the operation, and caches
    them. *)
Lemma getRecursivelyReferencedFragments_ok fuel operation this :
  cache_ok this ->
  doc_fuel (_ast this) operation <= fuel ->
  exists this',
    getRecursivelyReferencedFragments fuel operation this
    = Some (referenced_fragments (_ast this) operation, this')
    /\ JsMap.get operation (_recursivelyReferencedFragments this')
       = Some (referenced_fragments (_ast this) operation)
    /\ cache_ok this' /\ same_but_caches this this'.
Proof.
  intros Hok Hfuel. unfold getRecursivelyReferencedFragments.
  destruct (JsMap.get operation (_recursivelyReferencedFragments this))
    as [frags|] eqn:E.
  - exists this. apply JsMap_get_elem_of in E as HE.
    pose proof Hok as (Hf & Hs & Hr). by rewrite <- (Hr _ _ HE).
  - destruct (referenced_fragments_spec (_ast this) operation fuel Hfuel)
      as ((names & Hpure) & _).
    destruct (collect_fragments_ok fuel fuel
                (mkCollecting this ∅ [] [op_selectionSet operation])
                (names, referenced_fragments (_ast this) operation, [])
                Hok)
      as (this' & -> & Hok' & Hsame); [..|exact Hpure|].
    + cbn. intros n f [_ Hf]%fragments_by_name_lookup.
      apply fragment_size_le in Hf. unfold doc_fuel in Hfuel. lia.
    + apply Forall_singleton. unfold doc_fuel in Hfuel. lia.
    + cbn in *. eexists. split; [reflexivity|]. cbn.
      split; [apply JsMap_get_set|].
      destruct Hok' as (Hf & Hs & Hr). destruct Hsame as [Hast Hrep].
      split; [|done]. split; [done|]. split; [done|]. cbn.
      intros k v [[= -> ->]|?]%JsMap_elem_of_set; [|by apply Hr].
      by rewrite Hast.
Qed.

Lemma getRecursivelyReferencedFragments_cached fuel operation this frags :
  JsMap.get operation (_recursivelyReferencedFragments this) = Some frags ->
  getRecursivelyReferencedFragments fuel operation this
  = Some (frags, this).
Proof.
  intros E. unfold getRecursivelyReferencedFragments. by rewrite E.
Qed.

End ContextFacts.

Module ContextTheorems.
Import ValidationContext FragmentsSpec FragmentsInv FragmentsFacts
  ReferencedFragmentsFacts ContextFacts.
Implicit Types (this : ASTValidationContext).

(** C9. For every selection set [node], and every context whose caches
    hold what the methods compute, [getFragmentSpreads(node)] returns,
    once its loop is given as many iterations as there are selection
    sets under [node], the spreads nested anywhere under [node], each
    once and no others, fragment definitions not being entered. They
    come in the depth-first order of the tree of selection sets in which
    a set gives its own spreads first and its nested sets follow from
    the last to the first. The context changes in its caches only, and a
    further call with the same node returns the same sequence from the
    cache, whatever the fuel. *)
Theorem getFragmentSpreads_depth_first fuel node this :
  cache_ok this ->
  ss_size node <= fuel ->
  exists this',
    getFragmentSpreads fuel node this
    = Some (spreads_depth_first node, this')
    /\ (forall f, f ∈ spreads_depth_first node <-> nested_spread node f)
    /\ spreads_depth_first node ≡ₚ spreads_in_order node
    /\ (forall fuel', getFragmentSpreads fuel' node this'
                      = Some (spreads_depth_first node, this'))
    /\ cache_ok this' /\ same_but_caches this this'.
Proof.
  intros Hok Hfuel.
  destruct (getFragmentSpreads_ok fuel node this Hok Hfuel)
    as (this' & Hrun & Hcached & Hok' & Hsame).
  exists this'. split; [done|]. split; [apply spreads_nested|].
  split; [apply spreads_permutation|]. split; [|done].
  intros fuel'. by apply getFragmentSpreads_cached.
Qed.

(** A witness of C9: the selection set [{ a { ...B } ...A }]. *)
Lemma getFragmentSpreads_depth_first_witness :
  exists this',
    getFragmentSpreads 2 Demo.operation_set
      (newASTValidationContext Demo.document)
    = Some ([Demo.spread "A"; Demo.spread "B"], this')
    /\ (forall f, f ∈ [Demo.spread "A"; Demo.spread "B"]
                  <-> nested_spread Demo.operation_set f)
    /\ [Demo.spread "A"; Demo.spread "B"]
       ≡ₚ [Demo.spread "B"; Demo.spread "A"]
    /\ (forall fuel', getFragmentSpreads fuel' Demo.operation_set this'
                      = Some ([Demo.spread "A"; Demo.spread "B"], this'))
    /\ cache_ok this'
    /\ same_but_caches (newASTValidationContext Demo.document) this'.
Proof.
  apply (getFragmentSpreads_depth_first 2 Demo.operation_set
           (newASTValidationContext Demo.document)).
  - apply cache_ok_new.
  - cbn. lia.
Defined.

(** C8. For every document and operation, and every context on that
    document whose caches hold what the methods compute,
    [getRecursivelyReferencedFragments(operation)] returns, once its
    loops are given the fuel of the document, which bounds their
    iterations also when fragments spread one another, the fragment
    definitions of the document that are reachable from the selection set
    of the operation through spreads, each once: no two of them have the
    same name. A spread stands for the fragment definition of the
    document that has its name (the last one, should the document have
    several), read off the definitions of the document and not off the
    index that [getFragment] builds. The context changes in its caches
    only, and a further call with the same operation returns the same
    fragments from the cache. *)
Theorem getRecursivelyReferencedFragments_reachable fuel operation this :
  cache_ok this ->
  doc_fuel (_ast this) operation <= fuel ->
  exists frags this',
    getRecursivelyReferencedFragments fuel operation this
    = Some (frags, this')
    /\ (forall f, f ∈ frags
          <-> reachable (definitions (_ast this))
                (op_selectionSet operation) f)
    /\ NoDup frags
    /\ NoDup (name_of <$> frags)
    /\ (forall f, f ∈ frags -> DFragment f ∈ definitions (_ast this))
    /\ (forall fuel', getRecursivelyReferencedFragments fuel' operation this'
                      = Some (frags, this'))
    /\ cache_ok this' /\ same_but_caches this this'.
Proof.
  intros Hok Hfuel.
  destruct (getRecursivelyReferencedFragments_ok fuel operation this Hok
              Hfuel) as (this' & Hrun & Hcached & Hok' & Hsame).
  destruct (referenced_fragments_spec (_ast this) operation fuel Hfuel)
    as (_ & Hnodup & Hreach & Hdefs).
  exists (referenced_fragments (_ast this) operation), this'.
  split; [done|]. split; [done|].
  split; [by eapply NoDup_fmap_1|]. split; [done|].
  split; [|split; [|done]].
  - intros f Hf. by apply (fragments_by_name_lookup _ (name_of f)), Hdefs.
  - intros fuel'. by apply getRecursivelyReferencedFragments_cached.
Qed.

(** A witness of C8: the example document, in which the fragments [A]
    and [B] spread one another. The fragments found are [A], [B] and
    [C], in this order; [D], which no spread names, is not among
    them. *)
Lemma getRecursivelyReferencedFragments_reachable_witness :
  let frags := [Demo.A; Demo.B; Demo.C] in
  exists this',
    getRecursivelyReferencedFragments 13 Demo.operation
      (newASTValidationContext Demo.document)
    = Some (frags, this')
    /\ (forall f, f ∈ frags
          <-> reachable (definitions Demo.document) Demo.operation_set f)
    /\ NoDup frags
    /\ NoDup (name_of <$> frags)
    /\ (forall f, f ∈ frags -> DFragment f ∈ definitions Demo.document)
    /\ (forall fuel',
          getRecursivelyReferencedFragments fuel' Demo.operation this'
          = Some (frags, this'))
    /\ cache_ok this'
    /\ same_but_caches (newASTValidationContext Demo.document) this'.
Proof.
  cbn zeta.
  destruct (getRecursivelyReferencedFragments_reachable 13 Demo.operation
              (newASTValidationContext Demo.document))
    as (frags & this' & Hrun & Hrest).
  - apply cache_ok_new.
  - vm_compute. lia.
  - assert (fst <$> getRecursivelyReferencedFragments 13 Demo.operation
                      (newASTValidationContext Demo.document)
            = Some [Demo.A; Demo.B; Demo.C]) as Hfrags
      by (vm_compute; reflexivity).
    rewrite Hrun in Hfrags. injection Hfrags as <-.
    exists this'. exact (conj Hrun Hrest).
Defined.

(** On the example document the fragments found are [A], [B] and [C], in
    this order; [D] is not among them. *)
Example referenced_fragments_demo :
  fst <$> getRecursivelyReferencedFragments 13 Demo.operation
            (newASTValidationContext Demo.document)
  = Some [Demo.A; Demo.B; Demo.C].
Proof. vm_compute. reflexivity. Qed.

End ContextTheorems.

(* ===================================================================== *)
(** * Properties of getVariableUsages *)
(* ===================================================================== *)

Module UsagesFacts.
Import ValidationContext UsagesSpec FragmentsSpec FragmentsFacts.

Section Facts.
Context `{TS : TypeSystem}.
Implicit Types (ti : TypeInfo) (node : ASTNode)
  (step : @Step UsageWalk) (ps : list Position).

(** *** [enter] and [leave] on the whole state *)

(** [enter] followed by [leave] gives back the whole state, when the
    slot that the kind of the node sets, if any, held [null]. *)
Lemma leave_enter node ti :
  (kind node = DIRECTIVE -> _directive ti = null) ->
  (kind node = ARGUMENT -> _argument ti = null) ->
  (kind node = ENUM -> _enumValue ti = null) ->
  leave node (enter node ti) = ti.
Proof.
  intros Hd Ha He. destruct ti.
  destruct node as [?|?|[?|?|[| |? ?]]|?|?|[?|?|?]|?|[]|[]|?|[]|[]];
    try destruct k; cbn in *;
    unfold JsArray.push; rewrite ?removelast_last;
    rewrite ?Hd, ?Ha, ?He by done; reflexivity.
Qed.

Lemma enter_directive node ti :
  kind node <> DIRECTIVE -> _directive (enter node ti) = _directive ti.
Proof.
  destruct node as [?|?|[?|?|[| |? ?]]|?|?|[?|?|?]|?|[]|[]|?|[]|[]];
    try destruct k; done.
Qed.

Lemma enter_argument node ti :
  kind node <> ARGUMENT -> _argument (enter node ti) = _argument ti.
Proof.
  destruct node as [?|?|[?|?|[| |? ?]]|?|?|[?|?|?]|?|[]|[]|?|[]|[]];
    try destruct k; done.
Qed.

Lemma enter_enumValue node ti :
  kind node <> ENUM -> _enumValue (enter node ti) = _enumValue ti.
Proof.
  destruct node as [?|?|[?|?|[| |? ?]]|?|?|[?|?|?]|?|[]|[]|?|[]|[]];
    try destruct k; done.
Qed.

(** *** Steps of the walk *)

Lemma adds_nil ti : adds (visit_seq []) ti [].
Proof. intros us. cbn. by rewrite app_nil_r. Qed.

Lemma adds_cons step steps ti ps ps' :
  adds step ti ps -> adds (visit_seq steps) ti ps' ->
  adds (visit_seq (step :: steps)) ti (ps ++ ps').
Proof.
  intros H H' us. cbn. rewrite H, H'. by rewrite fmap_app, app_assoc.
Qed.

Lemma adds_map {A} (f : A -> @Step UsageWalk) (g : A -> list Position)
    (l : list A) ti :
  (forall x, x ∈ l -> adds (f x) ti (g x)) ->
  adds (visit_seq (map f l)) ti (mjoin (g <$> l)).
Proof.
  induction l as [|x l IH]; intros H; [apply adds_nil|].
  cbn [map]. rewrite fmap_cons.
  change (mjoin (g x :: (g <$> l))) with (g x ++ mjoin (g <$> l)).
  apply adds_cons; [apply H; by left|].
  apply IH. intros y Hy. apply H. by right.
Qed.

Lemma adds_opt {A} (f : A -> @Step UsageWalk) (g : A -> list Position)
    (x : option A) ti :
  (forall a, x = Some a -> adds (f a) ti (g a)) ->
  adds (visit_opt f x) ti (from_option g [] x).
Proof. destruct x; intros H; [by apply H|apply adds_nil]. Qed.

(** A node that is neither a variable nor a variable definition: the
    walk enters it, walks its children and leaves it. *)
Lemma adds_node node children ti ps :
  kind node <> VARIABLE -> kind node <> VARIABLE_DEFINITION ->
  leave node (enter node ti) = ti ->
  adds children (enter node ti) ps ->
  adds (visit_node usage_walker node children) ti ps.
Proof.
  intros Hv Hd Hleave Hc us.
  assert (getVisitFn usage_visitor (kind node) false = None) as Hnone
    by (cbn; by destruct (kind node)).
  unfold visit_node, visit_leave, usage_walker, visitWithTypeInfo.
  cbn [getVisitFn]. rewrite Hnone.
  cbn [visit_seq typeInfo_enter typeInfo_leave usage_typeInfo fst snd].
  rewrite Hc.
  change (getVisitFn usage_visitor (kind node) true)
    with (@None (VisitFn UsageWalk)).
  cbn [fst snd]. by rewrite Hleave.
Qed.

(** A variable: its usage is recorded with the [TypeInfo] at its
    position. *)
Lemma adds_variable x ti :
  adds (visit_Value usage_walker (VVariable x)) ti
    [(x, enter (NValue (VVariable x)) ti)].
Proof. intros us. reflexivity. Qed.

(** A variable definition: the walk enters it, skips it and leaves
    it. *)
Lemma adds_variableDefinition d ti :
  adds (visit_VariableDefinition usage_walker d) ti [].
Proof.
  intros us. unfold visit_VariableDefinition, visit_node. cbn.
  rewrite app_nil_r. do 2 f_equal.
  by apply (leave_enter (NVariableDefinition d)).
Qed.

Lemma adds_Name n ti : adds (visit_Name usage_walker n) ti [].
Proof.
  apply adds_node; [done|done|by apply leave_enter|apply adds_nil].
Qed.

Lemma adds_NamedType t ti : adds (visit_NamedType usage_walker t) ti [].
Proof.
  apply adds_node; [done|done|by apply leave_enter|apply adds_Name].
Qed.

Lemma adds_eq step ti ps ps' :
  adds step ti ps -> ps = ps' -> adds step ti ps'.
Proof. by intros H <-. Qed.

(** *** Values *)

Lemma ValueNode_ind_nested (P : ValueNode -> Prop) :
  (forall x, P (VVariable x)) ->
  (forall v, P (IntValue v)) ->
  (forall v, P (FloatValue v)) ->
  (forall v b, P (StringValue v b)) ->
  (forall v, P (BooleanValue v)) ->
  P NullValue ->
  (forall v, P (EnumValue v)) ->
  (forall values, Forall P values -> P (ListValue values)) ->
  (forall fields,
     Forall (fun f => match f with ObjectField _ v => P v end) fields ->
     P (ObjectValue fields)) ->
  forall v, P v.
Proof.
  intros Hvar Hint Hfloat Hstring Hbool Hnull Henum Hlist Hobject.
  fix F 1. intros [x|v|v|v b|v| |v|values|fields];
    [apply Hvar|apply Hint|apply Hfloat|apply Hstring|apply Hbool
    |apply Hnull|apply Henum|..].
  - apply Hlist. induction values as [|v values IH]; constructor.
    + apply F.
    + apply IH.
  - apply Hobject. induction fields as [|[n v] fields IH]; constructor.
    + apply F.
    + apply IH.
Qed.

Lemma adds_Value v : forall ti,
  _enumValue ti = null ->
  adds (visit_Value usage_walker v) ti (positions_Value ti v).
Proof.
  induction v as [x|v|v|v b|v| |v|values IH|fields IH]
    using ValueNode_ind_nested; intros ti He.
  - apply adds_variable.
  - apply adds_node; [done|done|by apply leave_enter|apply adds_nil].
  - apply adds_node; [done|done|by apply leave_enter|apply adds_nil].
  - apply adds_node; [done|done|by apply leave_enter|apply adds_nil].
  - apply adds_node; [done|done|by apply leave_enter|apply adds_nil].
  - apply adds_node; [done|done|by apply leave_enter|apply adds_nil].
  - apply adds_node; [done|done|by apply leave_enter|apply adds_nil].
  - change (visit_Value usage_walker (ListValue values))
      with (visit_node usage_walker (NValue (ListValue values))
              (visit_seq (map (visit_Value usage_walker) values))).
    apply adds_node; [done|done|by apply leave_enter|].
    apply adds_map. intros v Hv.
    rewrite Forall_forall in IH. apply IH; [done|].
    by rewrite enter_enumValue.
  - change (visit_Value usage_walker (ObjectValue fields))
      with (visit_node usage_walker (NValue (ObjectValue fields))
              (visit_seq (map (visit_ObjectField usage_walker) fields))).
    apply adds_node; [done|done|by apply leave_enter|].
    apply adds_map. intros [n v] Hf.
    rewrite Forall_forall in IH. specialize (IH _ Hf). cbn beta iota in IH.
    change (visit_ObjectField usage_walker (ObjectField n v))
      with (visit_node usage_walker (NObjectField (ObjectField n v))
              (visit_seq [visit_Name usage_walker n;
                          visit_Value usage_walker v])).
    apply adds_node; [done|done|by apply leave_enter|].
    eapply adds_eq.
    { apply adds_cons; [apply adds_Name|].
      apply adds_cons; [|apply adds_nil].
      apply IH. by rewrite !enter_enumValue. }
    cbn [app]. by rewrite app_nil_r.
Qed.

Lemma adds_Argument a ti :
  _argument ti = null -> _enumValue ti = null ->
  adds (visit_Argument usage_walker a) ti (positions_Argument ti a).
Proof.
  intros Ha He. apply adds_node; [done|done|by apply leave_enter|].
  eapply adds_eq.
  { apply adds_cons; [apply adds_Name|].
    apply adds_cons; [|apply adds_nil].
    apply adds_Value. by rewrite enter_enumValue. }
  cbn [app]. by rewrite app_nil_r.
Qed.

Lemma adds_Arguments arguments ti :
  _argument ti = null -> _enumValue ti = null ->
  adds (visit_seq (map (visit_Argument usage_walker) arguments)) ti
    (mjoin (positions_Argument ti <$> arguments)).
Proof. intros Ha He. apply adds_map. intros a _. by apply adds_Argument. Qed.

Lemma adds_Directive d ti :
  slots_null ti ->
  adds (visit_Directive usage_walker d) ti (positions_Directive ti d).
Proof.
  intros (Hd & Ha & He).
  apply adds_node; [done|done|by apply leave_enter|].
  eapply adds_eq.
  { apply adds_cons; [apply adds_Name|].
    apply adds_cons; [|apply adds_nil].
    apply adds_Arguments;
      [by rewrite enter_argument|by rewrite enter_enumValue]. }
  cbn [app]. by rewrite app_nil_r.
Qed.

Lemma adds_Directives directives ti :
  slots_null ti ->
  adds (visit_seq (map (visit_Directive usage_walker) directives)) ti
    (mjoin (positions_Directive ti <$> directives)).
Proof. intros H. apply adds_map. intros d _. by apply adds_Directive. Qed.

Lemma adds_VariableDefinitions ds ti :
  adds (visit_seq (map (visit_VariableDefinition usage_walker) ds)) ti [].
Proof.
  eapply adds_eq.
  - apply (adds_map _ (fun _ => [])). intros d _.
    apply adds_variableDefinition.
  - induction ds as [|d ds IH]; [done|]. by rewrite fmap_cons.
Qed.

Lemma enter_slots_null node ti :
  kind node <> DIRECTIVE -> kind node <> ARGUMENT -> kind node <> ENUM ->
  slots_null ti -> slots_null (enter node ti).
Proof.
  intros ? ? ? (Hd & Ha & He).
  unfold slots_null.
  by rewrite enter_directive, enter_argument, enter_enumValue.
Qed.

(** *** Selections *)

Lemma adds_opt_Name alias ti :
  adds (visit_opt (visit_Name usage_walker) alias) ti [].
Proof. destruct alias; [apply adds_Name|apply adds_nil]. Qed.

Lemma adds_opt_NamedType t ti :
  adds (visit_opt (visit_NamedType usage_walker) t) ti [].
Proof. destruct t; [apply adds_NamedType|apply adds_nil]. Qed.

Lemma adds_Selection x ti :
  (forall s', child_set x = Some s' -> forall ti', slots_null ti' ->
     adds (visit_SelectionSet usage_walker s') ti'
       (positions_SelectionSet ti' s')) ->
  slots_null ti ->
  adds (visit_Selection usage_walker x) ti (positions_Selection ti x).
Proof.
  intros IH Hti.
  assert (slots_null (enter (NSelection x) ti)) as Hti'
    by (apply enter_slots_null; by destruct x).
  pose proof Hti as (Hd & Ha & He).
  pose proof Hti' as (Hd' & Ha' & He').
  destruct x as [[alias name arguments directives selectionSet]|f
                |[typeCondition directives selectionSet]].
  - change (visit_Selection usage_walker (SField _))
      with (visit_node usage_walker
              (NSelection
                 (SField
                    (Field alias name arguments directives selectionSet)))
              (visit_seq
                 [visit_opt (visit_Name usage_walker) alias;
                  visit_Name usage_walker name;
                  visit_seq (map (visit_Argument usage_walker) arguments);
                  visit_seq
                    (map (visit_Directive usage_walker) directives);
                  match selectionSet with
                  | Some ss => visit_SelectionSet usage_walker ss
                  | None => visit_seq []
                  end])).
    apply adds_node; [done|done|by apply leave_enter|].
    eapply adds_eq.
    { apply adds_cons; [apply adds_opt_Name|].
      apply adds_cons; [apply adds_Name|].
      apply adds_cons; [by apply adds_Arguments|].
      apply adds_cons; [by apply adds_Directives|].
      apply adds_cons; [|apply adds_nil].
      instantiate (1 := match selectionSet with
                        | Some ss => positions_SelectionSet _ ss
                        | None => []
                        end).
      destruct selectionSet as [ss|]; [by apply IH|apply adds_nil]. }
    cbn [app positions_Selection]. by rewrite app_nil_r.
  - change (visit_Selection usage_walker (SFragmentSpread f))
      with (visit_node usage_walker (NSelection (SFragmentSpread f))
              (visit_seq
                 [visit_Name usage_walker (fs_name f);
                  visit_seq
                    (map (visit_Directive usage_walker)
                       (fs_directives f))])).
    apply adds_node; [done|done|by apply leave_enter|].
    eapply adds_eq.
    { apply adds_cons; [apply adds_Name|].
      apply adds_cons; [by apply adds_Directives|apply adds_nil]. }
    cbn [app positions_Selection]. by rewrite app_nil_r.
  - change (visit_Selection usage_walker (SInlineFragment _))
      with (visit_node usage_walker
              (NSelection
                 (SInlineFragment
                    (InlineFragment typeCondition directives
                       selectionSet)))
              (visit_seq
                 [visit_opt (visit_NamedType usage_walker) typeCondition;
                  visit_seq
                    (map (visit_Directive usage_walker) directives);
                  visit_SelectionSet usage_walker selectionSet])).
    apply adds_node; [done|done|by apply leave_enter|].
    eapply adds_eq.
    { apply adds_cons; [apply adds_opt_NamedType|].
      apply adds_cons; [by apply adds_Directives|].
      apply adds_cons; [by apply IH|apply adds_nil]. }
    cbn [app positions_Selection]. by rewrite app_nil_r.
Qed.

Lemma adds_SelectionSet s : forall ti,
  slots_null ti ->
  adds (visit_SelectionSet usage_walker s) ti (positions_SelectionSet ti s).
Proof.
  induction s as [sels IH] using SelectionSet_ind_children. intros ti Hti.
  change (visit_SelectionSet usage_walker (SelectionSet sels))
    with (visit_node usage_walker (NSelectionSet (SelectionSet sels))
            (visit_seq (map (visit_Selection usage_walker) sels))).
  apply adds_node; [done|done|by apply leave_enter|].
  apply adds_map. intros x Hx. apply adds_Selection.
  - intros s' Hs'. by eapply IH.
  - by apply enter_slots_null.
Qed.

(** *** The roots *)

Lemma adds_visit root ti :
  slots_null ti ->
  adds (visit usage_walker root) ti (positions ti root).
Proof.
  intros Hti. destruct root as [o|f].
  - apply adds_node; [done|done|by apply leave_enter|].
    assert (slots_null (enter (NDefinition (DOperation o)) ti))
      by (by apply enter_slots_null).
    eapply adds_eq.
    { apply adds_cons; [apply adds_opt_Name|].
      apply adds_cons; [apply adds_VariableDefinitions|].
      apply adds_cons; [by apply adds_Directives|].
      apply adds_cons; [by apply adds_SelectionSet|apply adds_nil]. }
    cbn [app positions]. by rewrite app_nil_r.
  - apply adds_node; [done|done|by apply leave_enter|].
    assert (slots_null (enter (NDefinition (DFragment f)) ti))
      by (by apply enter_slots_null).
    eapply adds_eq.
    { apply adds_cons; [apply adds_Name|].
      apply adds_cons; [apply adds_VariableDefinitions|].
      apply adds_cons; [apply adds_NamedType|].
      apply adds_cons; [by apply adds_Directives|].
      apply adds_cons; [by apply adds_SelectionSet|apply adds_nil]. }
    cbn [app positions]. by rewrite app_nil_r.
Qed.

Lemma newTypeInfo_slots_null schema :
  slots_null (newTypeInfo schema None None).
Proof. done. Qed.

(** [getVariableUsages] returns the usages at the positions of the
    variables of the node, and caches them. *)
Lemma getVariableUsages_ok root (this : ValidationContext) :
  usages_cache_ok this ->
  exists this',
    getVariableUsages root this
    = (spec_usages (ValidationContext._schema this) root, this')
    /\ JsMap.get root (_variableUsages this')
       = Some (spec_usages (ValidationContext._schema this) root)
    /\ usages_cache_ok this'
    /\ super this' = super this
    /\ ValidationContext._schema this' = ValidationContext._schema this
    /\ _typeInfo this' = _typeInfo this.
Proof.
  intros Hok. unfold getVariableUsages.
  destruct (JsMap.get root (_variableUsages this)) as [usages|] eqn:E.
  - exists this. apply JsMap_get_elem_of in E as HE.
    by rewrite <- (Hok _ _ HE).
  - pose proof (adds_visit root _
                  (newTypeInfo_slots_null (ValidationContext._schema this))
                  []) as Hwalk.
    fold usage_walker. rewrite Hwalk. cbn [app].
    eexists. split; [reflexivity|]. cbn.
    split; [apply JsMap_get_set|]. split; [|done].
    intros k v [[= -> ->]|?]%JsMap_elem_of_set; [done|by apply Hok].
Qed.

End Facts.

(** C7. For every operation or fragment definition [root], and every
    context whose cache of usages holds what the method computes,
    [getVariableUsages(root)] returns one usage record for each
    [Variable] leaf under [root] that does not lie in a variable
    definition, in the order of the document: variable definitions are
    entered and left by the [TypeInfo] and their subtrees are skipped.
    The [type] and [defaultValue] of a record are what [getInputType]
    and [getDefaultValue] return on a fresh [TypeInfo] for the schema of
    the context that has entered the ancestors of the leaf, from [root]
    down, and the leaf. The walk completes. The context changes in that
    cache only, and a further call with the same node returns the same
    sequence. *)
Theorem getVariableUsages_positions `{TS : TypeSystem}
    (root : NodeWithSelectionSet) (this : ValidationContext) :
  usages_cache_ok this ->
  let fresh := newTypeInfo (ValidationContext._schema this) None None in
  let usages := usage_at <$> positions fresh root in
  exists this',
    getVariableUsages root this = (usages, this')
    /\ visit usage_walker root (fresh, [])
       = (Completed, (fresh, usages))
    /\ ValidationContext.node <$> usages = fst <$> positions fresh root
    /\ getVariableUsages root this' = (usages, this')
    /\ usages_cache_ok this'
    /\ super this' = super this
    /\ ValidationContext._schema this' = ValidationContext._schema this
    /\ _typeInfo this' = _typeInfo this.
Proof.
  intros Hok fresh usages.
  destruct (getVariableUsages_ok root this Hok)
    as (this' & Hrun & Hcached & Hok' & Hsuper & Hschema & Hti).
  exists this'. split; [exact Hrun|].
  split; [apply (adds_visit root fresh (newTypeInfo_slots_null _) [])|].
  split; [unfold usages; rewrite <- list_fmap_compose;
          by apply list_fmap_ext|].
  split; [|done].
  unfold getVariableUsages. by rewrite Hcached.
Qed.

(** A witness of C7: the example operation, whose variables [$v] and
    [$s] are used in a list under an argument of a field and in an
    argument of a directive. *)
Lemma getVariableUsages_positions_witness :
  let usages :=
    [mkVariableUsage DemoSchema.demo DemoSchema.v
       (Just DemoSchema.DInt) undefined;
     mkVariableUsage DemoSchema.demo DemoSchema.s
       (Just (DemoSchema.DNonNull DemoSchema.DBoolean)) undefined] in
  let fresh := @newTypeInfo DemoSchema.demo tt None None in
  exists this',
    getVariableUsages (WOperation DemoSchema.operation) DemoSchema.context
    = (usages, this')
    /\ visit usage_walker (WOperation DemoSchema.operation) (fresh, [])
       = (Completed, (fresh, usages))
    /\ ValidationContext.node <$> usages = [DemoSchema.v; DemoSchema.s]
    /\ getVariableUsages (WOperation DemoSchema.operation) this'
       = (usages, this')
    /\ usages_cache_ok this'
    /\ super this' = super DemoSchema.context
    /\ ValidationContext._schema this' = tt
    /\ _typeInfo this' = fresh.
Proof.
  apply (getVariableUsages_positions (WOperation DemoSchema.operation)
           DemoSchema.context).
  by intros k u ?%elem_of_nil.
Defined.

End UsagesFacts.

(* ===================================================================== *)
(** * Further properties of TypeInfo *)
(* ===================================================================== *)

Module TypeInfoExtra.
Import UsagesFacts.

Section Facts.
Context `{TS : TypeSystem}.
Implicit Types (this : TypeInfo) (node : ASTNode).

Lemma second_snoc {A} (s : list (JsOpt A)) x : second (s ++ [x]) = top s.
Proof.
  unfold second, top. rewrite reverse_app. cbn.
  destruct s as [|y s _] using rev_ind; [done|].
  by rewrite reverse_app, last_snoc.
Qed.

Lemma leave_slot_null node this : slot_is_null node (leave node this).
Proof. unfold slot_is_null, leave. by destruct (kind node). Qed.

(** X1. [enter(node)] followed by [leave(node)] gives back the whole
    state of a [TypeInfo], slots included, exactly when the slot that
    the kind of the node sets (the directive, the argument or the enum
    value) held [null] before; for the other kinds, always. *)
Theorem enter_leave_whole_state node this :
  leave node (enter node this) = this <-> slot_is_null node this.
Proof.
  split.
  - intros <-. apply leave_slot_null.
  - intros H. unfold slot_is_null in H.
    apply leave_enter; intros K; by rewrite K in H.
Qed.

(** X2. When [enter(node)] pushes an input type (on a variable
    definition, an argument, a list value or an object field),
    [getParentInputType] returns afterwards what [getInputType]
    returned before. On every other node [getInputType] and
    [getParentInputType] return what they returned before. *)
Theorem enter_parent_input_type node this :
  if spec_stacks_of_kind (kind node) InputTypeStack
  then getParentInputType (enter node this) = getInputType this
  else getInputType (enter node this) = getInputType this
       /\ getParentInputType (enter node this) = getParentInputType this.
Proof.
  pose proof (enter_pushes node this) as (_ & _ & H & _ & _).
  unfold getParentInputType, getInputType. rewrite !get_top, !get_second.
  destruct (spec_stacks_of_kind (kind node) InputTypeStack); cbn in H.
  - destruct H as [x ->]. apply second_snoc.
  - by rewrite H.
Qed.

Lemma top_snoc {A} (s : list (JsOpt A)) x : top (s ++ [x]) = x.
Proof. unfold top. by rewrite last_snoc. Qed.

(** X3. After [enter] of an argument, [getArgument] is the definition
    of that name among the arguments of the current directive when
    there is one, whatever the field; among those of the current field
    definition otherwise; and [undefined] when there is neither or the
    name is not found. [getInputType] is the type of that definition
    if it is an input type, and [getDefaultValue] its default value;
    both are [undefined] when [getArgument] is. *)
Theorem enter_argument_resolution (a : ArgumentNode) this :
  let this' := enter (NArgument a) this in
  let name := value (arg_name a) in
  (forall d, getDirective_ this = Just d ->
     getArgument this' = find_arg (directiveArgs d) name)
  /\ (forall f, truthy (getDirective_ this) = false ->
        getFieldDef_ this = Just f ->
        getArgument this' = find_arg (fieldArgs f) name)
  /\ (truthy (getDirective_ this) = false ->
      truthy (getFieldDef_ this) = false ->
      getArgument this' = undefined)
  /\ getInputType this'
     = keep_if isInputType
         match getArgument this' with
         | Just argDef => argType argDef
         | _ => undefined
         end
  /\ getDefaultValue this'
     = match getArgument this' with
       | Just argDef => argDefaultValue argDef
       | _ => undefined
       end.
Proof.
  cbn zeta. unfold getInputType, getDefaultValue, getArgument.
  rewrite !get_top. cbn. unfold JsArray.push. rewrite !last_snoc. cbn.
  repeat split.
  - by intros d ->.
  - intros f Hd ->. by destruct (getDirective_ this).
  - intros Hd Hf.
    by destruct (getDirective_ this), (getFieldDef_ this).
Qed.

(** X4. After [enter] of a field, [getFieldDef] is [undefined] when
    there is no parent type (the top of the parent-type stack is
    [undefined] or [null], or the stack is empty), and what the
    [getFieldDef] function of the instance finds on the parent type
    otherwise; [getType] is the type of that field definition if it is
    an output type and [undefined] otherwise. The parent type is
    unchanged. *)
Theorem enter_field_resolution (f : FieldNode) this :
  let this' := enter (NSelection (SField f)) this in
  (truthy (getParentType this) = false ->
     getFieldDef_ this' = undefined /\ getType this' = undefined)
  /\ (forall parentType, getParentType this = Just parentType ->
        getFieldDef_ this'
        = _getFieldDef this (_schema this) parentType f)
  /\ getType this'
     = keep_if isOutputType
         match getFieldDef_ this' with
         | Just fieldDef => fieldType fieldDef
         | _ => undefined
         end
  /\ getParentType this' = getParentType this.
Proof.
  cbn zeta. unfold getFieldDef_, getType. rewrite !get_top. cbn.
  unfold JsArray.push. rewrite !last_snoc. cbn.
  repeat split.
  - by destruct (getParentType this).
  - destruct (getParentType this); [| |done]; cbn;
      unfold keep_if; by destruct (isOutputType undefined).
  - by intros p ->.
Qed.

End Facts.
End TypeInfoExtra.

(* ===================================================================== *)
(** * Further properties of visitWithTypeInfo *)
(* ===================================================================== *)

Section VisitWithTypeInfoExtra.
Context `{TS : TypeSystem} {U : Type}.
Implicit Types (fns : @UserFns TS U) (w : Observed U) (node : ASTNode)
  (this : TypeInfo).

Lemma enter_leave_stacks node this :
  stacks (leave node (enter node this)) = stacks this.
Proof.
  pose proof (enter_pushes node this) as (E1 & E2 & E3 & E4 & E5).
  pose proof (leave_pops node (enter node this)) as (L1 & L2 & L3 & L4 & L5).
  unfold stacks.
  by rewrite (pushed_popped _ _ _ _ E1 L1), (pushed_popped _ _ _ _ E2 L2),
    (pushed_popped _ _ _ _ E3 L3), (pushed_popped _ _ _ _ E4 L4),
    (pushed_popped _ _ _ _ E5 L5).
Qed.

(** X5. The visitor of [visitWithTypeInfo] keeps the five stacks of the
    [TypeInfo] balanced. When the wrapped [enter] returns [undefined],
    the [leave] of the wrapper on the same node gives the stacks back.
    When it returns [false], [null] or BREAK, the stacks are given back
    at once, so that a skipped subtree leaves nothing behind. When it
    returns a replacement node, the [leave] of the wrapper on the
    replacement gives the stacks back. *)
Theorem visitWithTypeInfo_balanced fns node w :
  let wrapped := visitWithTypeInfo observed_typeInfo (observed_visitor fns) in
  let before := stacks (obs_typeInfo w) in
  let entered := call_visitor wrapped false node w in
  match fst entered with
  | RUndefined =>
      stacks (obs_typeInfo (snd (call_visitor wrapped true node
                                   (snd entered)))) = before
  | RNode replacement =>
      stacks (obs_typeInfo (snd (call_visitor wrapped true replacement
                                   (snd entered)))) = before
  | _ => stacks (obs_typeInfo (snd entered)) = before
  end.
Proof.
  cbn zeta. unfold call_visitor; cbn.
  destruct (fns (kind node) false) as [fn|]; cbn.
  - destruct (fn node _ _) as [[| | | |replacement] u]; cbn;
      try apply enter_leave_stacks.
    + destruct (fns (kind node) true) as [fn'|]; cbn;
        [destruct (fn' node _ _); cbn|]; apply enter_leave_stacks.
    + destruct (fns (kind replacement) true) as [fn'|]; cbn;
        [destruct (fn' replacement _ _); cbn|];
        by rewrite enter_leave_stacks, enter_leave_stacks.
  - destruct (fns (kind node) true) as [fn'|]; cbn;
      [destruct (fn' node _ _); cbn|]; apply enter_leave_stacks.
Qed.

End VisitWithTypeInfoExtra.

(* ===================================================================== *)
(** * Further properties of mapAsyncIterator *)
(* ===================================================================== *)

Module MapAsyncIteratorExtra.
Import MapAsyncIterator MapAsyncIteratorSpec.

Section Facts.
Context {Err St T U R : Type}.
Implicit Types (it : AsyncIterator Err St T R)
  (callback : T -> Promise Err U)
  (rejectCallback : option (Err -> Promise Err U))
  (calls : list Call).

(** X6. [return()] on the mapped iterator. When the source has no
    [return] method it resolves to [{ value: undefined, done: true }]
    and the source is not touched. When the source has one it is called
    once; a done result of it is passed on unchanged, a value that it
    still yields is mapped through the callback, and its rejection is
    passed on when there is no [rejectCallback]. *)
Theorem mapped_return it callback rejectCallback s calls :
  let mapped := mapAsyncIterator (observed it) callback rejectCallback in
  (return_ it = None ->
     run_op mapped OpReturn (s, calls)
     = (Fulfilled (Done undefined), (s, calls)))
  /\ (forall ret r s', return_ it = Some ret ->
        ret s = (Fulfilled (Done r), s') ->
        run_op mapped OpReturn (s, calls)
        = (Fulfilled (Done r), (s', calls ++ [CallReturn])))
  /\ (forall ret v u s', return_ it = Some ret ->
        ret s = (Fulfilled (Yielded v), s') ->
        callback v = Fulfilled u ->
        run_op mapped OpReturn (s, calls)
        = (Fulfilled (Yielded u), (s', calls ++ [CallReturn])))
  /\ (forall ret error s', return_ it = Some ret ->
        ret s = (Rejected error, s') ->
        rejectCallback = None ->
        run_op mapped OpReturn (s, calls)
        = (Rejected error, (s', calls ++ [CallReturn]))).
Proof.
  cbn zeta. repeat split.
  - intros Hr. cbn. by rewrite Hr.
  - intros ret r s' Hr Hs. cbn. by rewrite Hr; cbn; rewrite Hs.
  - intros ret v u s' Hr Hs Hc. cbn. rewrite Hr; cbn; rewrite Hs; cbn.
    unfold asyncMapValue. by rewrite Hc.
  - intros ret error s' Hr Hs ->. cbn. by rewrite Hr; cbn; rewrite Hs.
Qed.

(** X7. [throw(error)] on the mapped iterator. When the source has a
    [throw] method, it is called once with the error and a done result
    of it is passed on. When it has none but has a [return] method,
    the source is closed by one call of [return] and the promise is
    rejected with the error, however [return] settles. When it has
    neither, the promise is rejected with the error and the source is
    not touched. *)
Theorem mapped_throw it callback rejectCallback error s calls :
  let mapped := mapAsyncIterator (observed it) callback rejectCallback in
  (forall thr r s', throw it = Some thr ->
     thr error s = (Fulfilled (Done r), s') ->
     run_op mapped (OpThrow error) (s, calls)
     = (Fulfilled (Done r), (s', calls ++ [CallThrow])))
  /\ (forall ret p s', throw it = None -> return_ it = Some ret ->
        ret s = (p, s') ->
        run_op mapped (OpThrow error) (s, calls)
        = (Rejected error, (s', calls ++ [CallReturn])))
  /\ (throw it = None -> return_ it = None ->
        run_op mapped (OpThrow error) (s, calls)
        = (Rejected error, (s, calls))).
Proof.
  cbn zeta. repeat split.
  - intros thr r s' Ht Hs. cbn. by rewrite Ht; cbn; rewrite Hs.
  - intros ret p s' Ht Hr Hs. cbn. rewrite Ht, Hr; cbn. rewrite Hs.
    by destruct p.
  - intros Ht Hr. cbn. by rewrite Ht, Hr.
Qed.

(** X8. A rejection of the source's [next()]. Without a
    [rejectCallback] it is passed on unchanged and the source is not
    closed. With one, the error is mapped through it and returned as a
    value that is not done; when the [rejectCallback] itself throws and
    the source has a [return] method, the source is closed by one call
    of it and the promise is rejected with the new error. *)
Theorem mapped_next_rejected it callback rejectCallback error s s' calls :
  let mapped := mapAsyncIterator (observed it) callback rejectCallback in
  (next it s = (Rejected error, s') -> rejectCallback = None ->
     next mapped (s, calls) = (Rejected error, (s', calls ++ [CallNext])))
  /\ (forall reject u, next it s = (Rejected error, s') ->
        rejectCallback = Some reject ->
        reject error = Fulfilled u ->
        next mapped (s, calls)
        = (Fulfilled (Yielded u), (s', calls ++ [CallNext])))
  /\ (forall reject error' ret p s'', next it s = (Rejected error, s') ->
        rejectCallback = Some reject ->
        reject error = Rejected error' ->
        return_ it = Some ret ->
        ret s' = (p, s'') ->
        next mapped (s, calls)
        = (Rejected error', (s'', calls ++ [CallNext; CallReturn]))).
Proof.
  cbn zeta. repeat split.
  - intros Hn ->. cbn. by rewrite Hn.
  - intros reject u Hn -> Hr. cbn. rewrite Hn. cbn. unfold asyncMapValue.
    by rewrite Hr.
  - intros reject error' ret p s'' Hn -> Hr Hret Hp. cbn.
    rewrite Hn, Hret.
    cbn. unfold asyncMapValue. rewrite Hr. cbn. rewrite Hp.
    unfold JsArray.push. rewrite <- app_assoc. by destruct p.
Qed.

(** X9. When the source has no [return] method and the callback throws
    on a yielded value, the [next()] of the mapped iterator is rejected
    with the error of the callback after the one call of the source's
    [next]: there is nothing to close. *)
Theorem mapped_next_throws_no_return it callback rejectCallback
    s calls v s1 error :
  return_ it = None ->
  next it s = (Fulfilled (Yielded v), s1) ->
  callback v = Rejected error ->
  next (mapAsyncIterator (observed it) callback rejectCallback) (s, calls)
  = (Rejected error, (s1, calls ++ [CallNext])).
Proof.
  intros Hr Hn Hc. cbn. rewrite Hn, Hr. cbn. unfold asyncMapValue.
  by rewrite Hc.
Qed.

End Facts.

Section Composition.
Context {Err St T U V R : Type}.

(** X10. Mapping twice is mapping once with the composed callback: for
    callbacks that return values, an iterator mapped by [f] and then
    by [g] answers every call of [next], [return] and [throw], from
    every state, as the iterator mapped by [g] after [f] does. *)
Theorem mapAsyncIterator_compose (it : AsyncIterator Err St T R)
    (f : T -> U) (g : U -> V) (op : Op) (s : St) :
  run_op
    (mapAsyncIterator
       (mapAsyncIterator it (fun v => Fulfilled (f v)) None)
       (fun u => Fulfilled (g u)) None) op s
  = run_op (mapAsyncIterator it (fun v => Fulfilled (g (f v))) None) op s.
Proof.
  destruct op as [| |error]; cbn.
  - destruct (next it s) as [[[v|r]|e] s']; cbn; reflexivity.
  - destruct (return_ it) as [ret|]; cbn; [|reflexivity].
    destruct (ret s) as [[[v|r]|e] s']; cbn; reflexivity.
  - destruct (throw it) as [thr|]; cbn.
    + destruct (thr error s) as [[[v|r]|e] s']; cbn; reflexivity.
    + destruct (return_ it) as [ret|]; cbn; [|reflexivity].
      destruct (ret s) as [[[v|r]|e] s']; cbn; reflexivity.
Qed.

End Composition.

(** A witness of X9: a source without [return]. *)
Lemma mapped_next_throws_no_return_witness :
  let it : AsyncIterator string nat nat unit :=
    {| next := fun n => (Fulfilled (Yielded n), S n);
       return_ := None; throw := None |} in
  next (mapAsyncIterator (observed it)
          (fun _ => @Rejected string nat "boom"%string) None) (0, [])
  = (Rejected "boom"%string, (1, [CallNext])).
Proof.
  cbn zeta.
  eapply (mapped_next_throws_no_return _ _ None 0 [] 0 1 "boom"%string);
    reflexivity.
Defined.

End MapAsyncIteratorExtra.

(* ===================================================================== *)
(** * Further properties of the validation context *)
(* ===================================================================== *)

Module ValidationContextFacts.
Import ValidationContext FragmentsSpec FragmentsInv FragmentsFacts
  ReferencedFragmentsFacts ContextFacts UsagesSpec UsagesFacts
  ValidationContextExtra.

(** *** [getFragment] *)

(** X11. [getFragment(name)] returns the last fragment definition of that
    name in the document, a later definition replacing an earlier one,
    and [undefined] when the document has no fragment of that name.
    The index of fragments is built at the first call; the context is
    otherwise unchanged and a further call returns the same fragment
    and leaves the context as it is. *)
Theorem getFragment_last name (this : ASTValidationContext) :
  cache_ok this ->
  exists this',
    getFragment name this
    = (last (filter (fun f => name_of f = name)
               (fragment_definitions (definitions (_ast this)))), this')
    /\ getFragment name this' = (fst (getFragment name this), this')
    /\ cache_ok this' /\ same_but_caches this this'
    /\ _fragmentSpreads this' = _fragmentSpreads this
    /\ _recursivelyReferencedFragments this'
       = _recursivelyReferencedFragments this.
Proof.
  intros Hok. pose proof Hok as (Hf & Hs & Hr).
  rewrite <- fragments_by_name_last. unfold getFragment.
  destruct (_fragments this) as [fragments|] eqn:E.
  - exists this. rewrite E. by rewrite (Hf fragments eq_refl).
  - eexists. split; [reflexivity|]. cbn. split; [done|].
    split; [|done]. split; [|done]. cbn. by intros ? [= <-].
Qed.

(** A witness of X11: the fragment [B] of the example document. *)
Lemma getFragment_last_witness :
  exists this',
    getFragment "B" (newASTValidationContext Demo.document)
    = (Some Demo.B, this')
    /\ getFragment "B" this'
       = (fst (getFragment "B" (newASTValidationContext Demo.document)),
          this')
    /\ cache_ok this'
    /\ same_but_caches (newASTValidationContext Demo.document) this'
    /\ _fragmentSpreads this' = []
    /\ _recursivelyReferencedFragments this' = [].
Proof.
  apply (getFragment_last "B" (newASTValidationContext Demo.document)).
  apply cache_ok_new.
Defined.

(** *** [getRecursiveVariableUsages] *)

Section Usages.
Context `{TS : TypeSystem}.

(** [getVariableUsages] leaves the cache of recursive usages alone. *)
Lemma getVariableUsages_frame root (this : ValidationContext) :
  _recursiveVariableUsages (snd (getVariableUsages root this))
  = _recursiveVariableUsages this.
Proof.
  unfold getVariableUsages.
  destruct (JsMap.get root (_variableUsages this)); [done|].
  by destruct (visit _ _ _) as [? [? ?]].
Qed.

(** The loop over the referenced fragments appends the usages of each
    fragment, in order. *)
Lemma concat_usages_fold frags : forall acc (this : ValidationContext),
  usages_cache_ok this ->
  exists this',
    fold_left concat_usages frags (acc, this)
    = (acc ++ mjoin ((fun f => spec_usages
                                  (ValidationContext._schema this)
                                  (WFragment f)) <$> frags), this')
    /\ usages_cache_ok this'
    /\ super this' = super this
    /\ ValidationContext._schema this' = ValidationContext._schema this
    /\ _typeInfo this' = _typeInfo this
    /\ _recursiveVariableUsages this' = _recursiveVariableUsages this.
Proof.
  induction frags as [|frag frags IH]; intros acc this Hok.
  - exists this. cbn. by rewrite app_nil_r.
  - cbn [fold_left]. unfold concat_usages at 2.
    pose proof (getVariableUsages_frame (WFragment frag) this) as Hframe.
    destruct (getVariableUsages_ok (WFragment frag) this Hok)
      as (this1 & E & _ & Hok1 & Hsuper & Hschema & Hti).
    rewrite E in Hframe |- *. cbn in Hframe.
    destruct (IH (acc ++ spec_usages (ValidationContext._schema this)
                           (WFragment frag)) this1 Hok1)
      as (this' & -> & Hok' & Hsuper' & Hschema' & Hti' & Hrec').
    exists this'. rewrite Hschema. cbn. rewrite <- app_assoc.
    repeat split; try done; congruence.
Qed.

Lemma getRecursiveVariableUsages_ok fuel operation
    (this : ValidationContext) :
  context_ok this ->
  doc_fuel (_ast (super this)) operation <= fuel ->
  exists this',
    getRecursiveVariableUsages fuel operation this
    = Some (spec_recursive_usages (ValidationContext._schema this)
              (_ast (super this)) operation, this')
    /\ JsMap.get operation (_recursiveVariableUsages this')
       = Some (spec_recursive_usages (ValidationContext._schema this)
                 (_ast (super this)) operation)
    /\ context_ok this'
    /\ same_but_caches (super this) (super this')
    /\ ValidationContext._schema this' = ValidationContext._schema this
    /\ _typeInfo this' = _typeInfo this.
Proof.
  intros (Hsuper & Husages & Hrec) Hfuel.
  unfold getRecursiveVariableUsages.
  destruct (JsMap.get operation (_recursiveVariableUsages this))
    as [usages|] eqn:E.
  - exists this. apply JsMap_get_elem_of in E as HE.
    rewrite <- (Hrec _ _ HE).
    split; [done|]. split; [done|]. split; [by split|]. by split.
  - pose proof (getVariableUsages_frame (WOperation operation) this)
      as Hframe.
    destruct (getVariableUsages_ok (WOperation operation) this Husages)
      as (this1 & E1 & _ & Hok1 & Hsuper1 & Hschema1 & Hti1).
    rewrite E1 in Hframe |- *. cbn in Hframe. rewrite Hsuper1.
    destruct (getRecursivelyReferencedFragments_ok fuel operation
                (super this) Hsuper Hfuel)
      as (super' & -> & _ & Hsuper' & Hsame).
    cbn [mbind option_bind].
    destruct (concat_usages_fold
                (referenced_fragments (_ast (super this)) operation)
                (spec_usages (ValidationContext._schema this)
                   (WOperation operation))
                (set_super super' this1))
      as (this2 & -> & Hok2 & Hsuper2 & Hschema2 & Hti2 & Hrec2);
      [exact Hok1|].
    cbn in Hsuper2, Hschema2, Hti2, Hrec2.
    change (ValidationContext._schema (set_super super' this1))
      with (ValidationContext._schema this1).
    rewrite Hschema1 in *.
    fold (spec_recursive_usages (ValidationContext._schema this)
            (_ast (super this)) operation).
    eexists. split; [reflexivity|].
    cbn [super ValidationContext._schema _typeInfo _variableUsages
         _recursiveVariableUsages].
    split; [apply JsMap_get_set|].
    rewrite Hsuper2, Hschema2, Hti2.
    split; [|done].
    split; [done|]. split.
    + intros k v Hin. rewrite <- Hschema2. by apply Hok2.
    + destruct Hsame as [Hast _].
      cbn [super ValidationContext._schema _recursiveVariableUsages].
      rewrite Hast.
      intros k v [[= -> ->]|Hin]%JsMap_elem_of_set; [done|].
      apply Hrec. congruence.
Qed.

(** X12. On a context whose caches hold what the methods compute,
    [getRecursiveVariableUsages(operation)] returns the usages of the
    operation followed by the usages of each fragment the operation
    references, directly or through other fragments, in the order
    [getRecursivelyReferencedFragments] lists them; a fragment that
    is referenced is counted once however many spreads name it.  The
    call stores the result and a second call returns it from the
    store without changing the context.  Nothing is reported and the
    document, the schema and the [TypeInfo] of the context stay the
    same. *)
Theorem getRecursiveVariableUsages_concat fuel operation
    (this : ValidationContext) :
  context_ok this ->
  doc_fuel (_ast (super this)) operation <= fuel ->
  exists this',
    getRecursiveVariableUsages fuel operation this
    = Some (spec_usages (ValidationContext._schema this)
              (WOperation operation)
            ++ mjoin ((fun f => spec_usages
                                  (ValidationContext._schema this)
                                  (WFragment f))
                      <$> referenced_fragments (_ast (super this))
                            operation),
            this')
    /\ (forall fuel',
          getRecursiveVariableUsages fuel' operation this'
          = Some (spec_recursive_usages (ValidationContext._schema this)
                    (_ast (super this)) operation, this'))
    /\ context_ok this'
    /\ same_but_caches (super this) (super this')
    /\ ValidationContext._schema this' = ValidationContext._schema this
    /\ _typeInfo this' = _typeInfo this.
Proof.
  intros Hok Hfuel.
  destruct (getRecursiveVariableUsages_ok fuel operation this Hok Hfuel)
    as (this' & E & Hget & Hok' & Hsame & Hschema & Hti).
  exists this'. split; [exact E|]. split; [|done].
  intros fuel'. unfold getRecursiveVariableUsages. by rewrite Hget.
Qed.

End Usages.

(** A witness of X12: [query ($v: Int) { f(arg: [$v]) ...F ...F }] with
    [fragment F on Query { f @skip(if: $s) }] uses [$v], then [$s]
    once. *)
Lemma getRecursiveVariableUsages_concat_witness :
  let usages :=
    [mkVariableUsage DemoSchema.demo DemoSchema.v
       (Just DemoSchema.DInt) undefined;
     mkVariableUsage DemoSchema.demo DemoSchema.s
       (Just (DemoSchema.DNonNull DemoSchema.DBoolean)) undefined] in
  exists this',
    getRecursiveVariableUsages 8 DemoUsages.operation DemoUsages.context
    = Some (usages, this')
    /\ (forall fuel',
          getRecursiveVariableUsages fuel' DemoUsages.operation this'
          = Some (usages, this'))
    /\ context_ok this'
    /\ same_but_caches (super DemoUsages.context) (super this')
    /\ ValidationContext._schema this' = tt
    /\ _typeInfo this' = @newTypeInfo DemoSchema.demo tt None None.
Proof.
  apply (getRecursiveVariableUsages_concat 8 DemoUsages.operation
           DemoUsages.context).
  - split; [apply cache_ok_new|].
    split; by intros k u ?%elem_of_nil.
  - vm_compute. lia.
Defined.

End ValidationContextFacts.

(* ===================================================================== *)
(** * utilities/concatAST *)
(* ===================================================================== *)

Module ConcatASTFacts.
Import ValidationContext ExecutableDefinitionsRule FragmentsSpec
  FragmentsInv ReferencedFragmentsFacts ValidationContextExtra
  ValidationContextFacts.

Lemma concat_fold (documents : list DocumentNode) : forall acc,
  fold_left (fun definitions_ doc => definitions_ ++ definitions doc)
    documents acc
  = acc ++ mjoin (definitions <$> documents).
Proof.
  induction documents as [|doc documents IH]; intros acc; cbn.
  - by rewrite app_nil_r.
  - by rewrite IH, app_assoc.
Qed.

Lemma concatAST_definitions documents :
  definitions (concatAST documents) = mjoin (definitions <$> documents).
Proof. unfold concatAST. by rewrite concat_fold. Qed.

(** X13. [concatAST] keeps every definition of every document, in the
    order of the documents and, within a document, in its own order:
    the definition at index [i] of the [k]-th document is found at index
    [i] plus the number of definitions of the documents before it.
    Nothing is dropped or merged, so the result has as many definitions
    as the documents together, and concatenating two batches of
    documents gives the definitions of the first batch followed by those
    of the second. *)
Theorem concatAST_order documents :
  (forall before doc after i,
     documents = before ++ doc :: after ->
     i < length (definitions doc) ->
     definitions (concatAST documents)
       !! (length (definitions (concatAST before)) + i)
     = definitions doc !! i)
  /\ length (definitions (concatAST documents))
     = sum_list (length ∘ definitions <$> documents)
  /\ (forall documents1 documents2,
        documents = documents1 ++ documents2 ->
        definitions (concatAST documents)
        = definitions (concatAST documents1)
          ++ definitions (concatAST documents2)).
Proof.
  rewrite concatAST_definitions. split; [|split].
  - intros before doc after i -> Hi.
    rewrite concatAST_definitions, fmap_app, join_app, fmap_cons.
    cbn [mjoin list_join].
    rewrite lookup_app_r by lia.
    replace (_ + i - _) with i by lia.
    by rewrite lookup_app_l.
  - induction documents as [|doc documents IH]; [done|].
    cbn. rewrite length_app. by f_equal.
  - intros documents1 documents2 ->.
    by rewrite !concatAST_definitions, fmap_app, join_app.
Qed.

(** X14. In the context of a concatenation of documents, the fragment
    of a name is the one that the last document defining a fragment of
    that name gives for it: a later document overrides an earlier one,
    and the name has no fragment when no document defines one. *)
Theorem concatAST_getFragment documents name :
  fst (getFragment name (newASTValidationContext (concatAST documents)))
  = last (omap
            (fun doc =>
               fst (getFragment name (newASTValidationContext doc)))
            documents).
Proof.
  assert (forall doc,
            fst (getFragment name (newASTValidationContext doc))
            = last (filter (fun f => name_of f = name)
                      (fragment_definitions (definitions doc)))) as Hget.
  { intros doc. unfold getFragment. cbn. apply fragments_by_name_last. }
  set (g := fun doc =>
              fst (getFragment name (newASTValidationContext doc))).
  change (forall doc,
            g doc = last (filter (fun f => name_of f = name)
                            (fragment_definitions (definitions doc))))
    in Hget.
  change (g (concatAST documents) = last (omap g documents)).
  clearbody g. rewrite Hget, concatAST_definitions.
  induction documents as [|doc documents IH] using rev_ind; [done|].
  rewrite fmap_app, join_app, fragment_definitions_app, filter_app.
  rewrite omap_app, !last_app, IH. cbn.
  rewrite app_nil_r, Hget.
  fold (fragment_definitions (definitions doc)).
  by destruct (last (filter _ (fragment_definitions (definitions doc)))).
Qed.

Lemma spec_not_executable_app defs defs' :
  spec_not_executable (defs ++ defs')
  = spec_not_executable defs ++ spec_not_executable defs'.
Proof. apply omap_app. Qed.

(** X15. Running the [Document] function of ExecutableDefinitionsRule
    on a concatenation of documents reports what running it on each
    document in turn reports, in the same order. *)
Theorem concatAST_ExecutableDefinitionsRule documents context :
  snd <$> Document_ (concatAST documents) context
  = fold_left
      (fun context doc =>
         context ← context; snd <$> Document_ doc context)
      documents (Some context).
Proof.
  assert (forall doc c,
            snd <$> Document_ doc c
            = Some (fold_left (fun c e => reportError e c)
                      (spec_not_executable (definitions doc)) c)) as Hdoc.
  { intros doc c. unfold Document_. by rewrite check_definitions_spec. }
  rewrite Hdoc, concatAST_definitions.
  revert context.
  induction documents as [|doc documents IH]; intros context; [done|].
  cbn [fold_left mbind option_bind]. rewrite Hdoc, <- IH.
  rewrite fmap_cons. cbn [mjoin list_join].
  by rewrite spec_not_executable_app, fold_left_app.
Qed.

End ConcatASTFacts.

(* ===================================================================== *)
(** * VariablesAreInputTypesRule and TypeInfo *)
(* ===================================================================== *)

Section RuleAndTypeInfo.
Import VariablesAreInputTypesRule.
Context `{TS : TypeSystem}.

(** X16. VariablesAreInputTypesRule and [TypeInfo] agree on variable
    definitions.  For a [TypeInfo] of the schema of the context, the
    rule reports a variable definition exactly when [typeFromAST]
    resolves its type and the [TypeInfo] that has entered the definition
    has no input type; when the rule does not report and the type
    resolves, [getInputType] is that type. *)
Theorem VariablesAreInputTypesRule_agrees_with_TypeInfo
    (node : VariableDefinitionNode)
    (context : ValidationContext.ValidationContext)
    (typeInfo : TypeInfo) :
  _schema typeInfo = ValidationContext.getSchema context ->
  let type :=
    typeFromAST (ValidationContext.getSchema context) (vd_type node) in
  let context' := snd (VariableDefinition_ node context) in
  let entered := enter (NVariableDefinition node) typeInfo in
  (context' <> context
   <-> truthy type = true /\ getInputType entered = undefined)
  /\ (context' = context -> truthy type = true ->
      getInputType entered = type).
Proof.
  intros Hschema. cbn zeta.
  assert (getInputType (enter (NVariableDefinition node) typeInfo)
          = keep_if isInputType
              (typeFromAST (ValidationContext.getSchema context)
                 (vd_type node))) as ->.
  { rewrite <- Hschema. unfold getInputType. rewrite get_top.
    cbn. unfold JsArray.push, top. by rewrite last_snoc. }
  unfold VariableDefinition_, keep_if.
  destruct (typeFromAST (ValidationContext.getSchema context)
              (vd_type node)) as [| |t]; cbn.
  1,2: split; [split; [done|by intros [[=] _]]|done].
  destruct (isInputType (Just t)) eqn:Ei; cbn.
  - split; [split; [done|by intros [_ [=]]]|done].
  - split; [|].
    + split; [done|]. intros _ Heq.
      apply (f_equal (fun c => length (ValidationContext.reported
                                         (ValidationContext.super c))))
        in Heq.
      cbn in Heq. unfold JsArray.push in Heq.
      rewrite length_app in Heq. cbn in Heq. lia.
    + intros Heq.
      apply (f_equal (fun c => length (ValidationContext.reported
                                         (ValidationContext.super c))))
        in Heq.
      cbn in Heq. unfold JsArray.push in Heq.
      rewrite length_app in Heq. cbn in Heq. lia.
Qed.

End RuleAndTypeInfo.

(** A witness of X16: the definition [$q: Query] of the example operation,
    whose type resolves to an object type. *)
Lemma VariablesAreInputTypesRule_agrees_with_TypeInfo_witness :
  let node :=
    VariableDefinition (MkVariable (Name "q"))
      (TNamed (NamedType (Name "Query"))) None [] in
  let typeInfo := @newTypeInfo DemoSchema.demo tt None None in
  let context' :=
    snd (VariablesAreInputTypesRule.VariableDefinition_ node
           DemoSchema.context) in
  let entered := enter (NVariableDefinition node) typeInfo in
  (context' <> DemoSchema.context
   <-> truthy (Just DemoSchema.DQuery) = true
       /\ getInputType entered = undefined)
  /\ (context' = DemoSchema.context ->
      truthy (Just DemoSchema.DQuery) = true ->
      getInputType entered = Just DemoSchema.DQuery).
Proof.
  intros node typeInfo.
  apply (VariablesAreInputTypesRule_agrees_with_TypeInfo node
           DemoSchema.context typeInfo).
  reflexivity.
Defined.

(* ===================================================================== *)
(** * jsutils/memoize3 *)
(* ===================================================================== *)

Module Memoize3Facts.
Import Memoize3.

Section Facts.
Context {A1 A2 A3 V W : Type}
  `{EqDecision A1, EqDecision A2, EqDecision A3}.
Implicit Types (c : A1 * A2 * A3) (w : W).
Variable fn : A1 -> A2 -> A3 -> W -> JsOpt V * W.

Lemma JsMap_get_set_ne {K X} `{EqDecision K} (k k' : K) (x : X) m :
  k <> k' -> JsMap.get k' (JsMap.set k x m) = JsMap.get k' m.
Proof.
  intros Hne. unfold JsMap.get.
  induction m as [|[k0 x0] m IH]; cbn.
  - by rewrite bool_decide_eq_false_2.
  - destruct (bool_decide (k0 = k)) eqn:E; cbn.
    + apply bool_decide_eq_true_1 in E as ->.
      by rewrite !bool_decide_eq_false_2.
    + destruct (bool_decide (k0 = k')); [done|]. apply IH.
Qed.

(** A value other than [undefined] in the maps is returned, and [fn]
    is not called. *)
Lemma memoized_hit a1 a2 a3
    (cache0 : option (@Cache0 A1 A2 A3 V)) w :
  defined (stored cache0 (a1, a2, a3)) = true ->
  memoized fn a1 a2 a3 (cache0, w)
  = (stored cache0 (a1, a2, a3), (cache0, w)).
Proof.
  unfold memoized, stored. destruct cache0 as [c0|]; [|done].
  change (default [] (Some c0)) with c0.
  destruct (JsMap.get a1 c0) as [c1|]; [|done].
  destruct (JsMap.get a2 c1) as [c2|]; [|done].
  by intros ->.
Qed.

(** Otherwise [fn] is called and its result is put in the maps, which
    are unchanged for other arguments. *)
Lemma memoized_miss a1 a2 a3
    (cache0 : option (@Cache0 A1 A2 A3 V)) w :
  defined (stored cache0 (a1, a2, a3)) = false ->
  exists cache0',
    memoized fn a1 a2 a3 (cache0, w)
    = (fst (fn a1 a2 a3 w), (Some cache0', snd (fn a1 a2 a3 w)))
    /\ stored (Some cache0') (a1, a2, a3) = fst (fn a1 a2 a3 w)
    /\ forall c, c <> (a1, a2, a3) ->
         stored (Some cache0') c = stored cache0 c.
Proof.
  intros Hmiss. unfold memoized.
  set (c0 := default [] cache0).
  assert (forall c, stored cache0 c = stored (Some c0) c) as Hc0.
  { intros [[b1 b2] b3]. by destruct cache0. }
  rewrite Hc0 in Hmiss. setoid_rewrite Hc0. clearbody c0. clear Hc0.
  unfold stored in Hmiss.
  destruct (JsMap.get a1 c0) as [c1|] eqn:E1.
  - destruct (JsMap.get a2 c1) as [c2|] eqn:E2.
    + rewrite Hmiss. cbn [default].
      destruct (fn a1 a2 a3 w) as [newValue w'].
      eexists. split; [reflexivity|]. split.
      * unfold stored. by rewrite !JsMap_get_set.
      * intros [[b1 b2] b3] Hne. unfold stored.
        destruct (decide (a1 = b1)) as [<-|H1];
          [|by rewrite JsMap_get_set_ne].
        rewrite JsMap_get_set, E1.
        destruct (decide (a2 = b2)) as [<-|H2];
          [|by rewrite JsMap_get_set_ne].
        rewrite JsMap_get_set, E2.
        by rewrite JsMap_get_set_ne by congruence.
    + cbn [defined default].
      destruct (fn a1 a2 a3 w) as [newValue w'].
      eexists. split; [reflexivity|]. split.
      * unfold stored. by rewrite !JsMap_get_set.
      * intros [[b1 b2] b3] Hne. unfold stored.
        destruct (decide (a1 = b1)) as [<-|H1];
          [|by rewrite JsMap_get_set_ne].
        rewrite JsMap_get_set, E1.
        destruct (decide (a2 = b2)) as [<-|H2];
          [|by rewrite JsMap_get_set_ne].
        rewrite JsMap_get_set, E2.
        by rewrite JsMap_get_set_ne by congruence.
  - cbn [defined default].
    destruct (fn a1 a2 a3 w) as [newValue w'].
    eexists. split; [reflexivity|]. split.
    + unfold stored. by rewrite !JsMap_get_set.
    + intros [[b1 b2] b3] Hne. unfold stored.
      destruct (decide (a1 = b1)) as [<-|H1];
        [|by rewrite JsMap_get_set_ne].
      rewrite JsMap_get_set, E1.
      destruct (decide (a2 = b2)) as [<-|H2];
        [|by rewrite JsMap_get_set_ne].
      rewrite JsMap_get_set.
      by rewrite JsMap_get_set_ne by congruence.
Qed.

(** After a call, the maps hold what the call returned. *)
Lemma memoized_stored a1 a2 a3 (st : State) :
  stored (fst (snd (memoized fn a1 a2 a3 st))) (a1, a2, a3)
  = fst (memoized fn a1 a2 a3 st).
Proof.
  destruct st as [cache0 w].
  destruct (defined (stored cache0 (a1, a2, a3))) eqn:E.
  - by rewrite memoized_hit.
  - destruct (memoized_miss a1 a2 a3 cache0 w E) as (? & -> & Hs & _).
    by cbn [fst snd].
Qed.

(** A value other than [undefined] stays in the maps. *)
Lemma memoized_keeps a1 a2 a3 c v (st : State) :
  stored (fst st) c = v -> defined v = true ->
  stored (fst (snd (memoized fn a1 a2 a3 st))) c = v.
Proof.
  destruct st as [cache0 w]. cbn [fst]. intros Hc Hv.
  destruct (defined (stored cache0 (a1, a2, a3))) eqn:E.
  - by rewrite memoized_hit.
  - destruct (memoized_miss a1 a2 a3 cache0 w E) as (? & -> & _ & Hne).
    cbn [fst snd]. rewrite Hne; [done|]. intros ->. congruence.
Qed.

Lemma run_memoized_cons a1 a2 a3 calls (st : State) :
  run fn ((a1, a2, a3) :: calls) st
  = (fst (memoized fn a1 a2 a3 st)
       :: fst (run fn calls (snd (memoized fn a1 a2 a3 st))),
     snd (run fn calls (snd (memoized fn a1 a2 a3 st)))).
Proof.
  cbn [run]. destruct (memoized fn a1 a2 a3 st) as [r st1].
  cbn [fst snd]. by destruct (run fn calls st1).
Qed.

Lemma run_keeps calls : forall c v (st : State),
  stored (fst st) c = v -> defined v = true ->
  stored (fst (snd (run fn calls st))) c = v.
Proof.
  induction calls as [|[[a1 a2] a3] calls IH]; intros c v st Hc Hv;
    [done|].
  rewrite run_memoized_cons. cbn [snd]. apply IH; [|done].
  by apply memoized_keeps.
Qed.

(** X18. Once a call of the memoized function has returned a value
    other than [undefined], every later call with the same three
    arguments returns that value without calling [fn] and without
    changing the maps, whatever calls were made in between and
    whatever [fn] would return now. *)
Theorem memoized_result_sticks calls : forall i c v (st : State),
  calls !! i = Some c ->
  fst (run fn calls st) !! i = Some v ->
  defined v = true ->
  memoized fn c.1.1 c.1.2 c.2 (snd (run fn calls st))
  = (v, snd (run fn calls st)).
Proof.
  induction calls as [|[[a1 a2] a3] calls IH]; intros i c v st Hi Hr Hv;
    [done|].
  rewrite run_memoized_cons in Hr |- *. cbn [fst snd] in Hr |- *.
  destruct i as [|i].
  - injection Hi as <-. injection Hr as Hr. cbn [fst snd].
    pose proof (run_keeps calls (a1, a2, a3) v
                  (snd (memoized fn a1 a2 a3 st))) as Hkeep.
    rewrite memoized_stored in Hkeep.
    specialize (Hkeep Hr Hv).
    destruct (snd (run fn calls (snd (memoized fn a1 a2 a3 st))))
      as [cache0 w].
    cbn [fst] in Hkeep. rewrite memoized_hit; rewrite Hkeep; done.
  - by apply (IH i).
Qed.

(** X19. A result [undefined] is not remembered: when [fn] returns
    [undefined] for arguments the maps have no value for, the next
    call with the same arguments calls [fn] again, in the world the
    first call left, and returns what it returns then. *)
Theorem memoized_undefined_not_kept a1 a2 a3
    (cache0 : option (@Cache0 A1 A2 A3 V)) w :
  defined (stored cache0 (a1, a2, a3)) = false ->
  fst (fn a1 a2 a3 w) = undefined ->
  let first := memoized fn a1 a2 a3 (cache0, w) in
  let again := memoized fn a1 a2 a3 (snd first) in
  let w' := snd (fn a1 a2 a3 w) in
  fst first = undefined
  /\ snd (snd first) = w'
  /\ fst again = fst (fn a1 a2 a3 w')
  /\ snd (snd again) = snd (fn a1 a2 a3 w').
Proof.
  intros Hmiss Hundef. cbn zeta.
  destruct (memoized_miss a1 a2 a3 cache0 w Hmiss)
    as (cache0' & -> & Hstored & _).
  cbn [fst snd]. split; [done|]. split; [done|].
  rewrite Hundef in Hstored.
  destruct (memoized_miss a1 a2 a3 (Some cache0')
              (snd (fn a1 a2 a3 w))) as (cache0'' & -> & _).
  { by rewrite Hstored. }
  done.
Qed.

End Facts.

Section Pure.
Context {A1 A2 A3 V : Type}
  `{EqDecision A1, EqDecision A2, EqDecision A3}.
Variable f : A1 -> A2 -> A3 -> JsOpt V.

Lemma run_logging calls :
  forall (seen : list (A1 * A2 * A3))
         (cache0 : option (@Cache0 A1 A2 A3 V)) log,
  (forall c, c ∈ seen -> stored cache0 c = uncurry3 f c) ->
  (forall c, c ∉ seen -> stored cache0 c = undefined) ->
  (forall c, c ∈ log <-> c ∈ seen) ->
  ((forall c, c ∈ seen -> defined (uncurry3 f c) = true) -> NoDup log) ->
  let r := run (logging f) calls (cache0, log) in
  fst r = uncurry3 f <$> calls
  /\ (forall c, c ∈ snd (snd r) <-> c ∈ seen ++ calls)
  /\ ((forall c, c ∈ seen ++ calls -> defined (uncurry3 f c) = true) ->
      NoDup (snd (snd r))).
Proof.
  induction calls as [|[[a1 a2] a3] calls IH];
    intros seen cache0 log Hin Hout Hlog Hdup; cbn zeta.
  - cbn. rewrite app_nil_r. by repeat split; try apply Hlog.
  - rewrite run_memoized_cons. cbn [fst snd].
    replace (seen ++ (a1, a2, a3) :: calls)
      with ((seen ++ [(a1, a2, a3)]) ++ calls) by by rewrite <- app_assoc.
    destruct (defined (stored cache0 (a1, a2, a3))) eqn:E.
    + assert ((a1, a2, a3) ∈ seen) as Hseen.
      { destruct (decide ((a1, a2, a3) ∈ seen)) as [|Hn]; [done|].
        by rewrite (Hout _ Hn) in E. }
      rewrite memoized_hit by done. cbn [fst snd].
      rewrite (Hin _ Hseen). rewrite fmap_cons.
      destruct (IH (seen ++ [(a1, a2, a3)]) cache0 log)
        as (-> & Hlog' & Hdup').
      * intros c [?| ->%list_elem_of_singleton]%elem_of_app; auto.
      * intros c Hc. apply Hout. intros ?. apply Hc, elem_of_app. auto.
      * intros c. rewrite Hlog, elem_of_app, list_elem_of_singleton.
        split; [auto|]. by intros [?| ->].
      * intros Hall. apply Hdup. intros c Hc. apply Hall, elem_of_app.
        auto.
      * done.
    + destruct (memoized_miss (logging f) a1 a2 a3 cache0 log E)
        as (cache0' & -> & Hstored & Hne).
      cbn [fst snd logging] in *. rewrite fmap_cons.
      destruct (IH (seen ++ [(a1, a2, a3)]) (Some cache0')
                  (log ++ [(a1, a2, a3)]))
        as (-> & Hlog' & Hdup').
      * intros c [Hc| ->%list_elem_of_singleton]%elem_of_app; [|done].
        destruct (decide (c = (a1, a2, a3))) as [->|Hc']; [done|].
        rewrite Hne by done. by apply Hin.
      * intros c Hc.
        rewrite Hne.
        -- apply Hout. intros ?. apply Hc, elem_of_app. auto.
        -- intros ->. apply Hc, elem_of_app. right.
           by apply list_elem_of_singleton.
      * intros c. by rewrite !elem_of_app, Hlog.
      * intros Hall. apply NoDup_app. split; [|split].
        -- apply Hdup. intros c Hc. apply Hall, elem_of_app. auto.
        -- intros c Hc ->%list_elem_of_singleton.
           apply Hlog in Hc. rewrite (Hin _ Hc) in E.
           rewrite Hall in E; [done|].
           apply elem_of_app. right. by apply list_elem_of_singleton.
        -- apply NoDup_singleton.
      * done.
Qed.

(** X17. Memoizing a function without effects does not change what
    it returns: in any sequence of calls, starting with no maps, each
    call of the memoized function returns what [f] returns for its
    arguments.  [f] is called for every triple of arguments that
    occurs in the sequence and for no other, and, when none of these
    results is [undefined], exactly once for each triple, however
    often it occurs. *)
Theorem memoize3_calls_once calls :
  let r := run (logging f) calls (None, []) in
  fst r = uncurry3 f <$> calls
  /\ (forall c, c ∈ snd (snd r) <-> c ∈ calls)
  /\ ((forall c, c ∈ calls -> defined (uncurry3 f c) = true) ->
      NoDup (snd (snd r))).
Proof.
  apply (run_logging calls [] None []).
  - by intros c ?%elem_of_nil.
  - by intros [[a1 a2] a3] _.
  - done.
  - intros _. apply NoDup_nil_2.
Qed.

End Pure.

(** A witness of X18: the second call of [late] returns a value, which
    the third call returns again. *)
Lemma memoized_result_sticks_witness :
  let calls := [(1, 2, 3); (1, 2, 3); (4, 5, 6)] in
  memoized late 1 2 3 (snd (run late calls (None, 0)))
  = (Just 7, snd (run late calls (None, 0))).
Proof.
  intros calls.
  apply (memoized_result_sticks late calls 1 (1, 2, 3) (Just 7) (None, 0));
    reflexivity.
Defined.

(** A witness of X19: the first call of [late] returns [undefined] and
    the second one calls it again. *)
Lemma memoized_undefined_not_kept_witness :
  let first := memoized late 1 2 3 (None, 0) in
  let again := memoized late 1 2 3 (snd first) in
  fst first = undefined
  /\ snd (snd first) = 1
  /\ fst again = Just 7
  /\ snd (snd again) = 2.
Proof.
  apply (memoized_undefined_not_kept late 1 2 3 None 0); reflexivity.
Defined.

End Memoize3Facts.

(* ===================================================================== *)
(** * type/scalars *)
(* ===================================================================== *)

Module ScalarsFacts.
Import Scalars.

Section Facts.
Context `{D : Doubles} `{RT : !Runtime}.
Implicit Types (v r : Unknown) (n : JsNumber) (t : GraphQLScalarType).

Lemma in_range n :
  Number_isInteger (VNumber n) = true ->
  gt n MAX_INT || lt n MIN_INT = false ->
  is_int32 n.
Proof.
  destruct n as [|b| |z|x]; try done; [by left|].
  intros _ [Hgt Hlt]%orb_false_elim. right. exists z. split; [done|].
  unfold gt, lt in Hgt, Hlt. rewrite Z.gtb_ltb in Hgt.
  apply Z.ltb_ge in Hgt, Hlt. by split.
Qed.

Lemma int32_in_range n :
  is_int32 n ->
  Number_isInteger (VNumber n) = true
  /\ gt n MAX_INT || lt n MIN_INT = false.
Proof.
  intros [->|(z & -> & Hlo & Hhi)]; [done|]. split; [done|].
  unfold gt, lt. rewrite Z.gtb_ltb.
  apply orb_false_intro; by apply Z.ltb_ge.
Qed.

Lemma serializeInt_int32 v n : serializeInt v = inr n -> is_int32 n.
Proof.
  unfold serializeInt.
  destruct (serializeObject v) as [| |b|m|s|o1 o2| | |z]; try done.
  - intros [= <-]. destruct b; right; eexists; (split; [done|]);
      by split.
  - cbn [number_of].
    destruct (Number_isInteger (VNumber m)) eqn:Ei; [|done]. cbn [negb].
    destruct (gt m MAX_INT || lt m MIN_INT) eqn:Er; [done|].
    intros [= <-]. by apply in_range.
  - unfold number_of.
    destruct (negb (String.eqb s EmptyString)); [|done].
    destruct (Number_isInteger (VNumber (Number_ s))) eqn:Ei; [|done].
    cbn [negb].
    destruct (gt (Number_ s) MAX_INT || lt (Number_ s) MIN_INT) eqn:Er;
      [done|].
    intros [= <-]. by apply in_range.
Qed.

Lemma coerceInt_int32 v n :
  coerceInt v = inr n <-> v = VNumber n /\ is_int32 n.
Proof.
  split.
  - unfold coerceInt. destruct v as [| |b|m|s|o1 o2| | |z]; try done.
    destruct (Number_isInteger (VNumber m)) eqn:Ei; [|done]. cbn [negb].
    destruct (gt m MAX_INT || lt m MIN_INT) eqn:Er; [done|].
    intros [= <-]. split; [done|]. by apply in_range.
  - intros [-> [Hi Hr]%int32_in_range]. unfold coerceInt.
    by rewrite Hi, Hr.
Qed.

Lemma serializeInt_number n :
  is_int32 n -> serializeInt (VNumber n) = inr n.
Proof.
  intros [Hi Hr]%int32_in_range. unfold serializeInt.
  cbn [serializeObject number_of]. by rewrite Hi, Hr.
Qed.

Lemma serializeFloat_finite v n :
  serializeFloat v = inr n -> Number_isFinite (VNumber n) = true.
Proof.
  unfold serializeFloat.
  destruct (serializeObject v) as [| |b|m|s|o1 o2| | |z]; try done.
  - by intros [= <-].
  - cbn [number_of].
    destruct (Number_isFinite (VNumber m)) eqn:Ei; [|done].
    by intros [= <-].
  - unfold number_of.
    destruct (negb (String.eqb s EmptyString)); [|done].
    destruct (Number_isFinite (VNumber (Number_ s))) eqn:Ei; [|done].
    by intros [= <-].
Qed.

(** X20. What a specified scalar serializes a value to is a value of
    the scalar: whenever [serialize] of [Int], [Float], [String],
    [Boolean] or [ID] returns a result, [parseValue] of the same
    scalar accepts that result and returns it unchanged, and so does
    [serialize] itself. *)
Theorem serialize_then_parseValue t v r :
  t ∈ specifiedScalarTypes ->
  serialize t v = inr r ->
  parseValue t r = inr r /\ serialize t r = inr r.
Proof.
  intros Ht. unfold specifiedScalarTypes in Ht.
  repeat (apply elem_of_cons in Ht as [->|Ht]);
    [..|by apply elem_of_nil in Ht]; cbn [serialize parseValue
      GraphQLString GraphQLInt GraphQLFloat GraphQLBoolean GraphQLID].
  - destruct (serializeString v) as [e|s]; [done|]. by intros [= <-].
  - destruct (serializeInt v) as [e|n] eqn:E; [done|]. intros [= <-].
    apply serializeInt_int32 in E.
    rewrite serializeInt_number by done.
    by rewrite (proj2 (coerceInt_int32 (VNumber n) n)).
  - destruct (serializeFloat v) as [e|n] eqn:E; [done|]. intros [= <-].
    apply serializeFloat_finite in E.
    unfold coerceFloat, serializeFloat.
    cbn [serializeObject number_of]. by rewrite E.
  - destruct (serializeBoolean v) as [e|b]; [done|]. by intros [= <-].
  - destruct (serializeID v) as [e|s]; [done|]. by intros [= <-].
Qed.

(** X21. Serialization accepts at least what input coercion accepts:
    whenever [parseValue] of a specified scalar returns a result for
    a value, [serialize] of that scalar returns the same result for
    it. *)
Theorem parseValue_then_serialize t v r :
  t ∈ specifiedScalarTypes ->
  parseValue t v = inr r ->
  serialize t v = inr r.
Proof.
  intros Ht. unfold specifiedScalarTypes in Ht.
  repeat (apply elem_of_cons in Ht as [->|Ht]);
    [..|by apply elem_of_nil in Ht]; cbn [serialize parseValue
      GraphQLString GraphQLInt GraphQLFloat GraphQLBoolean GraphQLID].
  - by destruct v.
  - destruct (coerceInt v) as [e|n] eqn:E; [done|]. intros [= <-].
    apply coerceInt_int32 in E as [-> Hn].
    by rewrite serializeInt_number.
  - by destruct v.
  - by destruct v.
  - by destruct v.
Qed.

(** X22. A result of [serializeInt] or of [coerceInt] is an integer
    between -2^31 and 2^31 - 1 (or [-0]); [true] and [false]
    serialize to 1 and 0.  The empty string is no number for
    [serializeInt] and [serializeFloat], whatever [Number] makes of
    it.  [parseLiteral] of [Int] does not check that [parseInt] gave
    a number: for an [IntValue] node whose text [parseInt] turns into
    [NaN] it returns [NaN], which [parseValue] rejects. *)
Theorem Int_results v :
  (forall n, serializeInt v = inr n -> is_int32 n)
  /\ (forall n, coerceInt v = inr n -> v = VNumber n /\ is_int32 n)
  /\ (forall b, serializeInt (VBoolean b)
                = inr (Integer (if b then 1 else 0)))
  /\ (exists e, serializeInt (VString EmptyString) = inl e)
  /\ (exists e, serializeFloat (VString EmptyString) = inl e)
  /\ (forall s, parseInt s = NaN ->
        parseLiteral GraphQLInt (IntValue s) = inr (VNumber NaN)
        /\ exists e, parseValue GraphQLInt (VNumber NaN) = inl e).
Proof.
  split; [intros n; apply serializeInt_int32|].
  split; [intros n; apply coerceInt_int32|].
  split; [done|]. split; [by eexists|]. split; [by eexists|].
  intros s Hs. cbn. rewrite Hs. split; [done|]. by eexists.
Qed.

End Facts.

(** A witness of X20: [true] serializes to the [Int] 1. *)
Lemma serialize_then_parseValue_witness :
  @parseValue _ (@GraphQLInt _ demo_runtime) (VNumber (Integer 1))
  = inr (VNumber (Integer 1))
  /\ @serialize _ (@GraphQLInt _ demo_runtime) (VNumber (Integer 1))
     = inr (VNumber (Integer 1)).
Proof.
  apply (@serialize_then_parseValue demo_doubles demo_runtime
           GraphQLInt (VBoolean true) (VNumber (Integer 1))).
  - unfold specifiedScalarTypes. apply elem_of_cons. right.
    apply elem_of_cons. by left.
  - reflexivity.
Defined.

(** A witness of X21: the number 7 is an [ID]. *)
Lemma parseValue_then_serialize_witness :
  @serialize _ (@GraphQLID _ demo_runtime) (VNumber (Integer 7))
  = inr (VString "7").
Proof.
  apply (@parseValue_then_serialize demo_doubles demo_runtime
           GraphQLID (VNumber (Integer 7)) (VString "7")).
  - unfold specifiedScalarTypes. do 4 (apply elem_of_cons; right).
    apply elem_of_cons. by left.
  - reflexivity.
Defined.

End ScalarsFacts.

(* ===================================================================== *)
(** * utilities/getIntrospectionQuery *)
(* ===================================================================== *)

Module IntrospectionQueryFacts.
Import IntrospectionQuery.

(** X23. The options of [getIntrospectionQuery].  The query contains
    the word [description] exactly when [descriptions] is on: with
    [descriptions] off, [schemaDescription] changes nothing.  No
    options, an empty object of options and the defaults written out
    give the same query.  An option that is present with the value
    [undefined] counts as [false], also [descriptions], whose default
    is [true]. *)
Theorem getIntrospectionQuery_options :
  (forall options,
     String.index 0 "description" (getIntrospectionQuery options) = None
     <-> with_default true options descriptions = false)
  /\ (forall d s r sd sd',
        with_default true (Some (Build_IntrospectionOptions d s r sd))
          descriptions = false ->
        getIntrospectionQuery (Some (Build_IntrospectionOptions d s r sd))
        = getIntrospectionQuery
            (Some (Build_IntrospectionOptions d s r sd')))
  /\ getIntrospectionQuery None
     = getIntrospectionQuery
         (Some (Build_IntrospectionOptions None None None None))
  /\ getIntrospectionQuery None
     = getIntrospectionQuery
         (Some (Build_IntrospectionOptions (Some (Some true))
                  (Some (Some false)) (Some (Some false))
                  (Some (Some false))))
  /\ getIntrospectionQuery
       (Some (Build_IntrospectionOptions (Some None) None None None))
     = getIntrospectionQuery
         (Some (Build_IntrospectionOptions (Some (Some false)) None None
                  None))
  /\ getIntrospectionQuery
       (Some (Build_IntrospectionOptions (Some None) None None None))
     <> getIntrospectionQuery None.
Proof.
  split; [|split; [|split; [|split; [|split]]]].
  - intros [[[[[]|]|] [[[]|]|] [[[]|]|] [[[]|]|]]|];
      vm_compute; split; intros [=]; reflexivity.
  - intros [[[]|]|] s r sd sd'; cbn [with_default descriptions];
      intros [=]; unfold getIntrospectionQuery, with_default;
      cbn [descriptions schemaDescription specifiedByUrl
           directiveIsRepeatable];
      destruct sd as [[[]|]|], sd' as [[[]|]|]; reflexivity.
  - reflexivity.
  - reflexivity.
  - reflexivity.
  - intros Heq.
    apply (f_equal (String.index 0 "description")) in Heq.
    vm_compute in Heq. discriminate Heq.
Qed.

End IntrospectionQueryFacts.
